(** * Object utilities of coc.nvim: [src/util/object.ts]

    A shallow embedding of the module's functions over an explicit object
    heap, and the properties of the functions proved on it.

    Data model.  A JavaScript value is a primitive or a reference to a heap
    node; a node is an array, a plain object (its own enumerable properties,
    in the order in which they are enumerated, and whether it inherits from
    [Object.prototype], as [{}] does, or from nothing, as
    [Object.create(null)] does) or a regular expression, and carries the flag
    set by [Object.freeze].  Reference identity is address equality, mutation
    is an update of the heap, and recursion over the object graph is bounded
    by a fuel argument, so that a cyclic graph exhausts the fuel where the
    program would exhaust its stack.

    Limits of the model.  Arrays are dense and have no named properties.
    Finite numbers are represented by integers (the module never computes with
    numbers; it compares, tests and prints them, and they are printed in
    plain decimal notation, without the exponent that JavaScript uses from
    [1e21] on); [NaN] is kept apart because [===] treats it apart.  Strings
    are byte strings, and [toLowerCase] is defined on strings of ASCII
    characters only, where it converts the letters [A] to [Z].  A property
    that an assignment adds goes last in the order of enumeration; JavaScript
    puts a key that is an array index before the other keys, in ascending
    order, which the model does not reproduce.  An operation whose outcome
    would depend on an inherited property of a heap object (reading a missing
    key that [Object.prototype] defines, assigning an object to [__proto__])
    is reported as [Unsupported] rather than given a meaning, and a dangling
    address as [Dangling].  [createKeywordMatcher] calls an inherited method
    on its hash object, so the hash is modelled with its inherited names. *)

From Stdlib Require Import ZArith Ascii String List Lia Bool.
From Stdlib Require Import DecimalString DecimalNat Permutation.
From stdpp Require Import base list strings sorting.

(** ** Values, nodes and the heap *)

Abbreviation addr := nat.

Inductive number :=
| NaN
| Fin (z : Z).

Inductive value :=
| VUndefined
| VNull
| VBool (b : bool)
| VNumber (n : number)
| VString (s : string)
| VRef (a : addr).

Inductive kind :=
| Array (elems : list value)
| Plain (proto : bool) (props : list (string * value))
| RegExp (source : string).

Record node := Node { shape : kind; frozen : bool }.

Abbreviation heap := (list node).

(** ** Outcomes

    [Throw] is a JavaScript exception; the other three errors belong to the
    model: the fuel ran out, an address was not allocated, or the operation
    is outside the modelled fragment. *)

Inductive error :=
| OutOfFuel
| Dangling
| Unsupported
| Throw (msg : string).

Inductive result (A : Type) :=
| Ok (a : A)
| Err (e : error).

Arguments Ok {A} a.
Arguments Err {A} e.

Definition bind {A B} (m : result A) (f : A → result B) : result B :=
  match m with
  | Ok a => f a
  | Err e => Err e
  end.

Notation "'let*' x ':=' m 'in' k" := (bind m (λ x, k))
  (at level 10, x pattern, m at level 100, k at level 200,
   format "'[v' 'let*'  x  ':='  m  'in' '/' k ']'").

Definition recursive_error : string := "Cannot clone recursive data-structure".
Definition read_only_error : string := "TypeError: object is not writable".
Definition not_a_function_error : string := "TypeError: hash.hasOwnProperty is not a function".
Definition circular_error : string := "TypeError: Converting circular structure to JSON".

(** [Array.prototype.forEach] and [for] loops over a key list, threading the
    state through the loop body. *)
Fixpoint forEach {A St} (l : list A) (f : St → A → result St) (s : St)
  : result St :=
  match l with
  | [] => Ok s
  | x :: l' => let* s' := f s x in forEach l' f s'
  end.

(** A loop whose body returns [false] from the enclosing function as soon as
    one test fails, and which is followed by [return true]. *)
Fixpoint all_pass {A} (l : list A) (test : A → result bool) : result bool :=
  match l with
  | [] => Ok true
  | x :: l' =>
      match test x with
      | Ok true => all_pass l' test
      | Ok false => Ok false
      | Err e => Err e
      end
  end.

(** ** Operators on values *)

Definition strict_eq (a b : value) : bool :=
  match a, b with
  | VUndefined, VUndefined => true
  | VNull, VNull => true
  | VBool x, VBool y => Bool.eqb x y
  | VNumber (Fin x), VNumber (Fin y) => Z.eqb x y
  | VString x, VString y => String.eqb x y
  | VRef x, VRef y => Nat.eqb x y
  | _, _ => false
  end.

Definition typeof (v : value) : string :=
  match v with
  | VUndefined => "undefined"
  | VNull => "object"
  | VBool _ => "boolean"
  | VNumber _ => "number"
  | VString _ => "string"
  | VRef _ => "object"
  end.

Definition truthy (v : value) : bool :=
  match v with
  | VUndefined | VNull => false
  | VBool b => b
  | VNumber NaN => false
  | VNumber (Fin z) => negb (Z.eqb z 0)
  | VString s => negb (String.eqb s "")
  | VRef _ => true
  end.

Definition is_null (v : value) : bool :=
  match v with VNull => true | _ => false end.

Definition is_undefined (v : value) : bool :=
  match v with VUndefined => true | _ => false end.

(** [v == null] *)
Definition loose_null (v : value) : bool := is_null v || is_undefined v.

(** [a.indexOf(v) >= 0], on an array held as a list *)
Definition includes (l : list value) (v : value) : bool :=
  existsb (strict_eq v) l.

(** ** Heap access *)

Definition deref (h : heap) (a : addr) : result node :=
  match h !! a with
  | Some n => Ok n
  | None => Err Dangling
  end.

Definition kind_of (h : heap) (v : value) : result (option kind) :=
  match v with
  | VRef a => let* n := deref h a in Ok (Some (shape n))
  | _ => Ok None
  end.

Definition isArray (h : heap) (v : value) : result bool :=
  let* k := kind_of h v in
  Ok (match k with Some (Array _) => true | _ => false end).

Definition instanceofRegExp (h : heap) (v : value) : result bool :=
  let* k := kind_of h v in
  Ok (match k with Some (RegExp _) => true | _ => false end).

Module Is.
(** Modelled from the spec: the module [./is] is not part of the sources;
    it supplies "is this value an ordered sequence". *)
Definition array (h : heap) (v : value) : result bool := isArray h v.

(** Modelled from the spec: the module [./is] is not part of the sources;
    it supplies "is this value a plain mapping", a key-value structure
    with no special behaviour: neither a sequence nor a regular
    expression nor a primitive. *)
Definition objectLiteral (h : heap) (v : value) : result bool :=
  let* k := kind_of h v in
  Ok (match k with Some (Plain _ _) => true | _ => false end).
End Is.

Definition alloc (h : heap) (k : kind) : heap * value :=
  (h ++ [Node k false], VRef (length h)).

(** ** Property keys *)

Definition key_of_index (i : nat) : string :=
  NilEmpty.string_of_uint (Nat.to_uint i).

(** The index that a key denotes, when it is a canonical decimal numeral. *)
Definition index_of_key (key : string) : option nat :=
  match NilEmpty.uint_of_string key with
  | Some u =>
      let i := Nat.of_uint u in
      if String.eqb (key_of_index i) key then Some i else None
  | None => None
  end.

(** The names every plain object inherits from [Object.prototype]. *)
Definition object_prototype_names : list string :=
  [ "constructor"; "__defineGetter__"; "__defineSetter__"; "hasOwnProperty";
    "__lookupGetter__"; "__lookupSetter__"; "isPrototypeOf";
    "propertyIsEnumerable"; "toString"; "valueOf"; "__proto__";
    "toLocaleString" ].

Definition inherited (key : string) : bool :=
  existsb (String.eqb key) object_prototype_names.

Fixpoint assoc {V} (key : string) (ps : list (string * V)) : option V :=
  match ps with
  | [] => None
  | (k, v) :: ps' => if String.eqb key k then Some v else assoc key ps'
  end.

(** Assignment to a property held in a list: an existing key keeps its
    position, a new key goes last. *)
Fixpoint assoc_set {V} (key : string) (v : V) (ps : list (string * V))
  : list (string * V) :=
  match ps with
  | [] => [(key, v)]
  | (k, w) :: ps' =>
      if String.eqb key k then (k, v) :: ps' else (k, w) :: assoc_set key v ps'
  end.

(** The own enumerable keys, in enumeration order: what [Object.keys] returns
    and what [for ... in] visits. *)
Definition own_keys (k : kind) : list string :=
  match k with
  | Array elems => map key_of_index (seq 0 (length elems))
  | Plain _ props => map fst props
  | RegExp _ => []
  end.

Definition object_keys (h : heap) (obj : value) : result (list string) :=
  match obj with
  | VRef a => let* n := deref h a in Ok (own_keys (shape n))
  | _ => Err Unsupported
  end.

(** [Object.prototype.hasOwnProperty.call(obj, key)] *)
Definition has_own (k : kind) (key : string) : bool :=
  match k with
  | Array elems =>
      match index_of_key key with
      | Some i => i <? length elems
      | None => String.eqb key "length"
      end
  | Plain _ props => match assoc key props with Some _ => true | None => false end
  | RegExp _ => String.eqb key "lastIndex"
  end.

Definition hasOwnProperty (h : heap) (obj : value) (key : string) : result bool :=
  match obj with
  | VRef a => let* n := deref h a in Ok (has_own (shape n) key)
  | _ => Err Unsupported
  end.

(** [key in obj] *)
Definition has_property (h : heap) (obj : value) (key : string) : result bool :=
  match obj with
  | VRef a =>
      let* n := deref h a in
      match shape n with
      | Plain proto props =>
          Ok (has_own (Plain proto props) key || proto && inherited key)
      | k => if has_own k key then Ok true else Err Unsupported
      end
  | _ => Err Unsupported
  end.

(** [obj[key]] *)
Definition get_kind (k : kind) (key : string) : result value :=
  match k with
  | Array elems =>
      match index_of_key key with
      | Some i => Ok (default VUndefined (elems !! i))
      | None =>
          if String.eqb key "length"
          then Ok (VNumber (Fin (Z.of_nat (length elems))))
          else Err Unsupported
      end
  | Plain proto props =>
      match assoc key props with
      | Some v => Ok v
      | None => if proto && inherited key then Err Unsupported else Ok VUndefined
      end
  | RegExp _ => Err Unsupported
  end.

Definition get (h : heap) (obj : value) (key : string) : result value :=
  match obj with
  | VRef a => let* n := deref h a in get_kind (shape n) key
  | _ => Err Unsupported
  end.

(** [obj[i]] and [obj.length] on an array *)
Definition get_index (h : heap) (obj : value) (i : nat) : result value :=
  match obj with
  | VRef a =>
      let* n := deref h a in
      match shape n with
      | Array elems => Ok (default VUndefined (elems !! i))
      | _ => Err Unsupported
      end
  | _ => Err Unsupported
  end.

Definition array_length (h : heap) (obj : value) : result nat :=
  match obj with
  | VRef a =>
      let* n := deref h a in
      match shape n with
      | Array elems => Ok (length elems)
      | _ => Err Unsupported
      end
  | _ => Err Unsupported
  end.

(** [obj[key] = v] on the own properties of a plain object.  When the object
    inherits from [Object.prototype] ([proto]), a key it does not own is
    looked up there: [__proto__] is an
    accessor there, whose setter ignores a primitive and otherwise replaces the
    prototype (outside the model); every other inherited name is a writable
    data property, which the assignment shadows. *)
Definition plain_set (proto : bool) (props : list (string * value))
    (key : string) (v : value) : result (list (string * value)) :=
  if proto && String.eqb key "__proto__" && negb (has_own (Plain proto props) key)
  then match v with
       | VRef _ | VNull => Err Unsupported
       | _ => Ok props
       end
  else Ok (assoc_set key v props).

(** [obj[key] = v]; the module is compiled in strict mode, where writing to a
    frozen object throws.  An assignment that the setter of [__proto__] takes
    does not write to the object, frozen or not. *)
Definition set_kind (k : kind) (key : string) (v : value) : result kind :=
  match k with
  | Array elems =>
      match index_of_key key with
      | Some i =>
          if i <? length elems then Ok (Array (<[i:=v]> elems))
          else if i =? length elems then Ok (Array (elems ++ [v]))
          else Err Unsupported
      | None => Err Unsupported
      end
  | Plain proto props =>
      let* props' := plain_set proto props key v in Ok (Plain proto props')
  | RegExp _ => Err Unsupported
  end.

Definition to_proto_setter (k : kind) (key : string) : bool :=
  match k with
  | Plain proto props =>
      proto && String.eqb key "__proto__" && negb (has_own (Plain proto props) key)
  | Array _ | RegExp _ => String.eqb key "__proto__"
  end.

Definition set (h : heap) (obj : value) (key : string) (v : value) : result heap :=
  match obj with
  | VRef a =>
      let* n := deref h a in
      if frozen n then
        if to_proto_setter (shape n) key
        then match v with
             | VRef _ | VNull => Err Unsupported
             | _ => Ok h
             end
        else Err (Throw read_only_error)
      else let* k := set_kind (shape n) key v in Ok (<[a:=Node k false]> h)
  | _ => Err Unsupported
  end.

(** [arr.push(v)] *)
Definition push (h : heap) (arr : value) (v : value) : result heap :=
  match arr with
  | VRef a =>
      let* n := deref h a in
      match shape n with
      | Array elems =>
          if frozen n then Err (Throw read_only_error)
          else Ok (<[a:=Node (Array (elems ++ [v])) false]> h)
      | _ => Err Unsupported
      end
  | _ => Err Unsupported
  end.

(** [Object.freeze(obj)] and [Object.isFrozen(obj)]; a primitive counts as
    frozen. *)
Definition freeze (h : heap) (obj : value) : result heap :=
  match obj with
  | VRef a => let* n := deref h a in Ok (<[a:=Node (shape n) true]> h)
  | _ => Ok h
  end.

Definition isFrozen (h : heap) (obj : value) : result bool :=
  match obj with
  | VRef a => let* n := deref h a in Ok (frozen n)
  | _ => Ok true
  end.

(** ** [deepClone] *)

Fixpoint deepClone (fuel : nat) (h : heap) (obj : value) : result (heap * value) :=
  match fuel with
  | O => Err OutOfFuel
  | S fuel' =>
      if negb (truthy obj) || negb (String.eqb (typeof obj) "object")
      then Ok (h, obj)
      else
        let* re := instanceofRegExp h obj in
        if re then Ok (h, obj)
        else
          let* arr := isArray h obj in
          let '(h1, result) := alloc h (if arr then Array [] else Plain true []) in
          let* keys := object_keys h1 obj in
          let* h' :=
            forEach keys
              (λ hi key,
                 let* v := get hi obj key in
                 if truthy v && String.eqb (typeof v) "object"
                 then let* (h2, c) := deepClone fuel' hi v in set h2 result key c
                 else set hi result key v)
              h1 in
          Ok (h', result)
  end.

(** ** [deepFreeze] *)

(** The body of [for (const key in obj)]: enqueue the property when it is an
    object that is not frozen yet. *)
Definition deepFreeze_visit (h : heap) (obj : value) (stack : list value)
    (key : string) : result (list value) :=
  let* own := hasOwnProperty h obj key in
  if own then
    let* prop := get h obj key in
    if String.eqb (typeof prop) "object"
    then let* fz := isFrozen h prop in
         if negb fz then Ok (stack ++ [prop]) else Ok stack
    else Ok stack
  else Ok stack.

(** The [while (stack.length > 0)] loop; one unit of fuel per iteration. *)
Fixpoint deepFreeze_loop (fuel : nat) (h : heap) (stack : list value) : result heap :=
  match fuel with
  | O => Err OutOfFuel
  | S fuel' =>
      match stack with
      | [] => Ok h
      | obj :: stack' =>
          let* h1 := freeze h obj in
          let* keys := object_keys h1 obj in
          let* stack'' := forEach keys (deepFreeze_visit h1 obj) stack' in
          deepFreeze_loop fuel' h1 stack''
      end
  end.

Definition deepFreeze (fuel : nat) (h : heap) (obj : value) : result (heap * value) :=
  if negb (truthy obj) || negb (String.eqb (typeof obj) "object")
  then Ok (h, obj)
  else let* h' := deepFreeze_loop fuel h [obj] in Ok (h', obj).

(** ** [cloneAndChange]

    The state of a call: the heap, the array [encounteredObjects] shared by
    all recursive calls, and the arguments [changer] has been applied to so
    far, in call order. *)

Record cstate := CState {
  c_heap : heap;
  encounteredObjects : list value;
  calls : list value
}.

Definition with_heap (h : heap) (st : cstate) : cstate :=
  CState h (encounteredObjects st) (calls st).

Definition record_call (v : value) (st : cstate) : cstate :=
  CState (c_heap st) (encounteredObjects st) (calls st ++ [v]).

Definition push_encountered (v : value) (st : cstate) : cstate :=
  CState (c_heap st) (encounteredObjects st ++ [v]) (calls st).

Definition pop_encountered (st : cstate) : cstate :=
  CState (c_heap st) (removelast (encounteredObjects st)) (calls st).

Fixpoint _cloneAndChange (fuel : nat) (changer : value → value) (obj : value)
    (st : cstate) : result (cstate * value) :=
  match fuel with
  | O => Err OutOfFuel
  | S fuel' =>
      if loose_null obj then Ok (st, obj)
      else
        let changed := changer obj in
        let st := record_call obj st in
        if negb (String.eqb (typeof changed) "undefined") then Ok (st, changed)
        else
          let* isarr := Is.array (c_heap st) obj in
          if isarr then
            let '(h1, r1) := alloc (c_heap st) (Array []) in
            let* len := array_length h1 obj in
            let* st' :=
              forEach (seq 0 len)
                (λ s i1,
                   let* v := get_index (c_heap s) obj i1 in
                   let* (s', c) := _cloneAndChange fuel' changer v s in
                   let* h' := push (c_heap s') r1 c in
                   Ok (with_heap h' s'))
                (with_heap h1 st) in
            Ok (st', r1)
          else
            let* isobj := Is.objectLiteral (c_heap st) obj in
            if isobj then
              if includes (encounteredObjects st) obj
              then Err (Throw recursive_error)
              else
                let st := push_encountered obj st in
                let '(h2, r2) := alloc (c_heap st) (Plain true []) in
                let* keys := object_keys h2 obj in
                let* st' :=
                  forEach keys
                    (λ s i2,
                       let* own := hasOwnProperty (c_heap s) obj i2 in
                       if own then
                         let* v := get (c_heap s) obj i2 in
                         let* (s', c) := _cloneAndChange fuel' changer v s in
                         let* h' := set (c_heap s') r2 i2 c in
                         Ok (with_heap h' s')
                       else Ok s)
                    (with_heap h2 st) in
                Ok (pop_encountered st', r2)
            else Ok (st, obj)
  end.

Definition cloneAndChange (fuel : nat) (h : heap) (obj : value)
    (changer : value → value) : result (cstate * value) :=
  _cloneAndChange fuel changer obj (CState h [] []).

(** ** [mixin] *)

Fixpoint mixin (fuel : nat) (h : heap) (destination source : value)
    (overwrite : bool) : result (heap * value) :=
  match fuel with
  | O => Err OutOfFuel
  | S fuel' =>
      let* dobj := Is.objectLiteral h destination in
      if negb dobj then Ok (h, source)
      else
        let* sobj := Is.objectLiteral h source in
        if sobj then
          let* keys := object_keys h source in
          let* h' :=
            forEach keys
              (λ hi key,
                 let* present := has_property hi destination key in
                 if present then
                   if overwrite then
                     let* dv := get hi destination key in
                     let* dl := Is.objectLiteral hi dv in
                     let* both :=
                       if dl
                       then let* sv := get hi source key in Is.objectLiteral hi sv
                       else Ok false in
                     let* sv := get hi source key in
                     if both
                     then let* (h2, _) := mixin fuel' hi dv sv overwrite in Ok h2
                     else set hi destination key sv
                   else Ok hi
                 else
                   let* sv := get hi source key in
                   set hi destination key sv)
              h in
          Ok (h', destination)
        else Ok (h, destination)
  end.

(** ** [arrayToHash] and [createKeywordMatcher]

    The hash is a fresh object literal that never leaves the closure: it is
    held as the list of its own properties.  It inherits from
    [Object.prototype], which the two expressions of the returned predicate
    consult. *)

Definition arrayToHash (array : list string) : result (list (string * value)) :=
  forEach array (λ result key, plain_set true result key (VBool true)) [].

(** [hash[word] !== undefined]: an inherited property is a function or the
    prototype object, never [undefined]. *)
Definition hash_defined (hash : list (string * value)) (word : string) : bool :=
  match assoc word hash with
  | Some v => negb (strict_eq v VUndefined)
  | None => inherited word
  end.

(** [hash.hasOwnProperty(word)]: the method is looked up on the hash first;
    an own property of that name is not a function. *)
Definition hash_hasOwnProperty (hash : list (string * value)) (word : string)
  : result bool :=
  match assoc "hasOwnProperty" hash with
  | Some _ => Err (Throw not_a_function_error)
  | None => Ok (has_own (Plain true hash) word)
  end.

Definition lower_ascii (c : ascii) : ascii :=
  let n := nat_of_ascii c in
  if (65 <=? n) && (n <=? 90) then ascii_of_nat (n + 32) else c.

Fixpoint lowered (s : string) : string :=
  match s with
  | EmptyString => EmptyString
  | String c s' => String (lower_ascii c) (lowered s')
  end.

(** The string is made of ASCII characters. *)
Definition ascii_only (s : string) : bool :=
  forallb (λ c, nat_of_ascii c <? 128) (list_ascii_of_string s).

(** [s.toLowerCase()]: on a string of ASCII characters, the letters [A] to
    [Z] are converted; the conversion of other strings is outside the
    model. *)
Definition toLowerCase (s : string) : result string :=
  if ascii_only s then Ok (lowered s) else Err Unsupported.

(** [arr.map(f)] *)
Fixpoint array_map {A B} (f : A → result B) (l : list A) : result (list B) :=
  match l with
  | [] => Ok []
  | x :: l' => let* y := f x in let* ys := array_map f l' in Ok (y :: ys)
  end.

Definition createKeywordMatcher (arr : list string) (caseInsensitive : bool)
  : result (string → result bool) :=
  let* arr := if caseInsensitive then array_map toLowerCase arr else Ok arr in
  let* hash := arrayToHash arr in
  if caseInsensitive then
    Ok (λ word,
          let* lower := toLowerCase word in
          if hash_defined hash lower
          then hash_hasOwnProperty hash lower
          else Ok false)
  else
    Ok (λ word,
          if hash_defined hash word
          then hash_hasOwnProperty hash word
          else Ok false).

(** The call [createKeywordMatcher(arr, caseInsensitive)(word)]. *)
Definition keyword_match (arr : list string) (caseInsensitive : bool)
    (word : string) : result bool :=
  let* matcher := createKeywordMatcher arr caseInsensitive in matcher word.

(** ** [JSON.stringify] with a replacer function, and [safeStringify] *)

Definition dquote : string := String "034"%char EmptyString.

Definition hex_digit (n : nat) : ascii :=
  if n <? 10 then ascii_of_nat (48 + n) else ascii_of_nat (87 + n).

Definition quote_char (c : ascii) : string :=
  let n := nat_of_ascii c in
  if n =? 34 then String "\"%char dquote
  else if n =? 92 then "\\"
  else if n =? 8 then "\b"
  else if n =? 12 then "\f"
  else if n =? 10 then "\n"
  else if n =? 13 then "\r"
  else if n =? 9 then "\t"
  else if n <? 32
       then "\u00" +:+ String (hex_digit (n / 16)) (String (hex_digit (n mod 16)) "")
       else String c "".

Fixpoint quote_chars (s : string) : string :=
  match s with
  | EmptyString => EmptyString
  | String c s' => quote_char c +:+ quote_chars s'
  end.

Definition QuoteJSONString (s : string) : string :=
  dquote +:+ quote_chars s +:+ dquote.

Definition number_to_json (n : number) : string :=
  match n with
  | NaN => "null"
  | Fin z => NilZero.string_of_int (Z.to_int z)
  end.

Section JSON.
Context {St : Type}.

(** The replacer is called with the key and the value of each property
    before the value is serialized; it may keep a state of its own. *)
Variable replacer : heap → St → string → value → result (St * value).

(** [SerializeJSONProperty], with [SerializeJSONArray] and
    [SerializeJSONObject] inlined; [stack] holds the objects being
    serialized, against which [JSON.stringify] itself checks every object
    it enters. *)
Fixpoint SerializeJSONProperty (fuel : nat) (h : heap) (stack : list addr)
    (st : St) (key : string) (value0 : value) : result (St * option string) :=
  match fuel with
  | O => Err OutOfFuel
  | S fuel' =>
      let* (st, v) := replacer h st key value0 in
      match v with
      | VUndefined => Ok (st, None)
      | VNull => Ok (st, Some "null")
      | VBool b => Ok (st, Some (if b then "true" else "false"))
      | VNumber n => Ok (st, Some (number_to_json n))
      | VString s => Ok (st, Some (QuoteJSONString s))
      | VRef a =>
          let* n := deref h a in
          if existsb (Nat.eqb a) stack then Err (Throw circular_error)
          else
            let stack' := stack ++ [a] in
            match shape n with
            | Array elems =>
                let* (st', partial) :=
                  forEach (seq 0 (length elems))
                    (λ acc i,
                       let* e := get_index h v i in
                       let* (s', strP) :=
                         SerializeJSONProperty fuel' h stack' (fst acc)
                           (key_of_index i) e in
                       Ok (s', snd acc ++ [default "null" strP]))
                    (st, []) in
                Ok (st', Some ("[" +:+ String.concat "," partial +:+ "]"))
            | k =>
                let* (st', partial) :=
                  forEach (own_keys k)
                    (λ acc P,
                       let* e := get h v P in
                       let* (s', strP) :=
                         SerializeJSONProperty fuel' h stack' (fst acc) P e in
                       Ok (s', match strP with
                               | Some str =>
                                   snd acc ++ [QuoteJSONString P +:+ ":" +:+ str]
                               | None => snd acc
                               end))
                    (st, []) in
                Ok (st', Some ("{" +:+ String.concat "," partial +:+ "}"))
            end
      end
  end.

(** [JSON.stringify(value, replacer)]: the string, or [undefined]. *)
Definition JSON_stringify (fuel : nat) (h : heap) (st : St) (v : value)
  : result value :=
  let* (_, r) := SerializeJSONProperty fuel h [] st "" v in
  Ok (match r with Some s => VString s | None => VUndefined end).
End JSON.

(** The replacer of [safeStringify]; its state is the array [seen]. *)
Definition safe_replacer (h : heap) (seen : list value) (_key : string)
    (val : value) : result (list value * value) :=
  let* ol := Is.objectLiteral h val in
  let* container := if ol then Ok true else isArray h val in
  if container then
    if includes seen val then Ok (seen, VString "[Circular]")
    else Ok (seen ++ [val], val)
  else Ok (seen, val).

Definition safeStringify (fuel : nat) (h : heap) (obj : value) : result value :=
  JSON_stringify safe_replacer fuel h [] obj.

(** ** [equals] *)

(** [keys.sort()]: ascending in the order of the code units. *)
Fixpoint insert_sorted (k : string) (l : list string) : list string :=
  match l with
  | [] => [k]
  | x :: l' => if String.leb k x then k :: l else x :: insert_sorted k l'
  end.

Definition sort (l : list string) : list string :=
  fold_right insert_sorted [] l.

(** [equals(oneKeys, otherKeys)] on the two freshly built arrays of strings:
    the arrays are distinct objects, so the call compares the lengths and
    then the strings pairwise with [===] (see [equals_string_arrays]). *)
Fixpoint equals_keys (oneKeys otherKeys : list string) : bool :=
  match oneKeys, otherKeys with
  | [], [] => true
  | x :: l, y :: l' => String.eqb x y && equals_keys l l'
  | _, _ => false
  end.

Fixpoint equals (fuel : nat) (h : heap) (one other : value) : result bool :=
  match fuel with
  | O => Err OutOfFuel
  | S fuel' =>
      if strict_eq one other then Ok true
      else if is_null one || is_undefined one || is_null other || is_undefined other
      then Ok false
      else if negb (String.eqb (typeof one) (typeof other)) then Ok false
      else if negb (String.eqb (typeof one) "object") then Ok false
      else
        let* a1 := isArray h one in
        let* a2 := isArray h other in
        if negb (Bool.eqb a1 a2) then Ok false
        else if a1 then
          let* len1 := array_length h one in
          let* len2 := array_length h other in
          if negb (len1 =? len2) then Ok false
          else
            all_pass (seq 0 len1)
              (λ i,
                 let* x := get_index h one i in
                 let* y := get_index h other i in
                 equals fuel' h x y)
        else
          let* oneKeys := object_keys h one in
          let oneKeys := sort oneKeys in
          let* otherKeys := object_keys h other in
          let otherKeys := sort otherKeys in
          if negb (equals_keys oneKeys otherKeys) then Ok false
          else
            all_pass oneKeys
              (λ key,
                 let* x := get h one key in
                 let* y := get h other key in
                 equals fuel' h x y)
  end.

(** ** [distinct] *)

Definition distinct (fuel : nat) (h : heap) (base target : value)
  : result (heap * value) :=
  let '(h1, result) := alloc h (Plain false []) in
  if negb (truthy base) || negb (truthy target) then Ok (h1, result)
  else
    let* targetKeys := object_keys h1 target in
    let* h' :=
      forEach targetKeys
        (λ hi k,
           let* baseValue := get hi base k in
           let* targetValue := get hi target k in
           let* same := equals fuel hi baseValue targetValue in
           if negb same then set hi result k targetValue else Ok hi)
        h1 in
    Ok (h', result).

(** ** Notions used to state the properties *)

(** [depth_le n h v]: every chain of references that starts at [v] ends
    within [n] steps, at allocated nodes only.  A value is acyclic when this
    holds for some [n]. *)
Fixpoint depth_le (n : nat) (h : heap) (v : value) : bool :=
  match v with
  | VRef a =>
      match n with
      | O => false
      | S n' =>
          match h !! a with
          | None => false
          | Some nd =>
              match shape nd with
              | Array elems => forallb (depth_le n' h) elems
              | Plain _ props => forallb (λ p, depth_le n' h (snd p)) props
              | RegExp _ => true
              end
          end
      end
  | _ => true
  end.

Definition acyclic (h : heap) (v : value) : Prop := ∃ n, depth_le n h v = true.

(** The property values and elements of a node. *)
Definition children (k : kind) : list value :=
  match k with
  | Array elems => elems
  | Plain _ props => map snd props
  | RegExp _ => []
  end.

(** A heap is well formed when no node refers to an address that is not
    allocated, and the own keys of every plain object are pairwise distinct
    and none of the names of [Object.prototype]. *)
Definition value_ok (h : heap) (v : value) : bool :=
  match v with
  | VRef a => a <? length h
  | _ => true
  end.

Fixpoint distinct_keys (ks : list string) : bool :=
  match ks with
  | [] => true
  | k :: ks' => negb (existsb (String.eqb k) ks') && distinct_keys ks'
  end.

Definition node_ok (h : heap) (n : node) : bool :=
  match shape n with
  | Array elems => forallb (value_ok h) elems
  | Plain _ props =>
      forallb (λ p, negb (inherited (fst p)) && value_ok h (snd p)) props
      && distinct_keys (map fst props)
  | RegExp _ => true
  end.

Definition heap_ok (h : heap) : bool := forallb (node_ok h) h.

(** A heap is closed when no node refers to an address that is not
    allocated and the own keys of every plain object are pairwise distinct:
    what holds of every heap of JavaScript objects. *)
Definition node_closed (h : heap) (n : node) : bool :=
  match shape n with
  | Array elems => forallb (value_ok h) elems
  | Plain _ props =>
      forallb (λ p, value_ok h (snd p)) props && distinct_keys (map fst props)
  | RegExp _ => true
  end.

Definition heap_closed (h : heap) : bool := forallb (node_closed h) h.

(** ** Example objects *)

Definition num (z : Z) : value := VNumber (Fin z).
Definition object (props : list (string * value)) : node := Node (Plain true props) false.
Definition array (elems : list value) : node := Node (Array elems) false.

(** [[1,2,3]], [[1,2,3]], [{a:1,b:2}], [{b:2,a:1}], [[1,2]], [[2,1]] *)
Definition equals_heap : heap :=
  [ array [num 1; num 2; num 3]; array [num 1; num 2; num 3];
    object [("a", num 1); ("b", num 2)]; object [("b", num 2); ("a", num 1)];
    array [num 1; num 2]; array [num 2; num 1] ].

(** ** The traversal of [cloneAndChange], as the specification words it

    [revisits] follows the traversal without building the copy and answers
    whether it meets a plain object that is already on the current traversal
    path.  The path is an argument: it grows when the traversal enters the
    values of a plain object and is the same for all siblings. *)

(** The first element on which [test] answers [true], from left to right. *)
Fixpoint any_hit {A} (l : list A) (test : A → result bool) : result bool :=
  match l with
  | [] => Ok false
  | x :: l' =>
      match test x with
      | Ok true => Ok true
      | Ok false => any_hit l' test
      | Err e => Err e
      end
  end.

Fixpoint revisits (fuel : nat) (h : heap) (changer : value → value)
    (path : list value) (obj : value) : result bool :=
  match fuel with
  | O => Err OutOfFuel
  | S fuel' =>
      if loose_null obj then Ok false
      else if negb (String.eqb (typeof (changer obj)) "undefined") then Ok false
      else
        let* k := kind_of h obj in
        match k with
        | Some (Array elems) => any_hit elems (revisits fuel' h changer path)
        | Some (Plain _ props) =>
            if includes path obj then Ok true
            else any_hit (map snd props) (revisits fuel' h changer (path ++ [obj]))
        | _ => Ok false
        end
  end.

(** [{a: x, b: x}] with one shared [x = {n: 1}]; [{a: {n: 1}, b: {n: 1}}]
    with two equal objects; and [o = {self: o}]. *)
Definition shared_heap : heap :=
  [ object [("a", VRef 1); ("b", VRef 1)]; object [("n", num 1)] ].

Definition twins_heap : heap :=
  [ object [("a", VRef 1); ("b", VRef 2)]; object [("n", num 1)];
    object [("n", num 1)] ].

Definition self_heap : heap := [ object [("self", VRef 0)] ].

Definition no_change (v : value) : value := VUndefined.

(** [p] lies strictly above [v]: whatever bounds the depth of [p] bounds the
    depth of [v] by one less. *)
Definition deeper (h : heap) (p v : value) : Prop :=
  ∀ m, depth_le m h p = true → ∃ m', m = S m' ∧ depth_le m' h v = true.

(** [{c: null, d: undefined}], and a changer that answers on [null] and
    [undefined] only. *)
Definition nulls_heap : heap := [ object [("c", VNull); ("d", VUndefined)] ].

Definition only_null (v : value) : value :=
  if loose_null v then num 1 else VUndefined.

(** ** The result of [distinct], as the specification words it

    [differs fuel h base p]: the value of the property [p] of [target] is
    not deep-equal to the value [base] has at the same key. *)
Definition differs (fuel : nat) (h : heap) (base : list (string * value))
    (p : string * value) : bool :=
  match equals fuel h (default VUndefined (assoc (fst p) base)) (snd p) with
  | Ok false => true
  | _ => false
  end.

(** [{a:1,b:2}] and [{a:1,b:3,c:4}] *)
Definition distinct_heap : heap :=
  [ object [("a", num 1); ("b", num 2)];
    object [("a", num 1); ("b", num 3); ("c", num 4)] ].

(** ** Auxiliary definitions of the proofs *)

Definition key_le (x y : string) : Prop := String.leb x y = true.

Definition is_ref (v : value) : bool :=
  match v with VRef _ => true | _ => false end.

Definition only_defined (l : list value) : Prop :=
  Forall (λ v, loose_null v = false) l.

(** The calls made up to state [s] extend [base] by defined values only. *)
Definition extends_calls (base : list value) (s : cstate) : Prop :=
  ∃ new, calls s = base ++ new ∧ only_defined new.

Definition sim_outcome (spec : result bool) (impl : result (cstate * value))
    (st : cstate) : Prop :=
  match spec with
  | Ok true => impl = Err (Throw recursive_error)
  | Ok false =>
      ∃ st' r, impl = Ok (st', r)
               ∧ encounteredObjects st' = encounteredObjects st
               ∧ c_heap st `prefix_of` c_heap st'
  | Err e => impl = Err e
  end.

(** The bodies of the two loops of [_cloneAndChange]. *)
Definition array_body (n : nat) (changer : value → value) (obj r1 : value)
    (s : cstate) (i1 : nat) : result cstate :=
  let* v := get_index (c_heap s) obj i1 in
  let* (s', c) := _cloneAndChange n changer v s in
  let* h' := push (c_heap s') r1 c in
  Ok (with_heap h' s').

Definition plain_body (n : nat) (changer : value → value) (obj r2 : value)
    (s : cstate) (i2 : string) : result cstate :=
  let* own := hasOwnProperty (c_heap s) obj i2 in
  if own then
    let* v := get (c_heap s) obj i2 in
    let* (s', c) := _cloneAndChange n changer v s in
    let* h' := set (c_heap s') r2 i2 c in
    Ok (with_heap h' s')
  else Ok s.

Definition loop_outcome (spec : result bool) (impl : result cstate)
    (enc : list value) (h0 : heap) : Prop :=
  match spec with
  | Ok true => impl = Err (Throw recursive_error)
  | Ok false =>
      ∃ s', impl = Ok s' ∧ encounteredObjects s' = enc ∧ h0 `prefix_of` c_heap s'
  | Err e => impl = Err e
  end.

Definition distinct_body (fuel : nat) (base target res : value) (hi : heap)
    (k : string) : result heap :=
  let* baseValue := get hi base k in
  let* targetValue := get hi target k in
  let* same := equals fuel hi baseValue targetValue in
  if negb same then set hi res k targetValue else Ok hi.

(** ** Notions used for [deepFreeze] *)

(** The node at [a] is marked by [Object.freeze]. *)
Definition is_frozen (h : heap) (a : addr) : bool :=
  match h !! a with
  | Some nd => frozen nd
  | None => false
  end.

(** The property is an object that [Object.isFrozen] does not report
    frozen: what the loop of [deepFreeze] enqueues. *)
Definition needs_freeze (h : heap) (v : value) : bool :=
  match v with
  | VRef a => match h !! a with Some nd => negb (frozen nd) | None => false end
  | _ => false
  end.

(** [a] can be reached from the node [root] through own enumerable keys. *)
Inductive reach (h : heap) (root : addr) : addr → Prop :=
| reach_root : reach h root root
| reach_step a nd c :
    reach h root a → h !! a = Some nd → VRef c ∈ children (shape nd) →
    reach h root c.

(** [a] can be reached from [root] through nodes that are not frozen (the
    root itself may be). *)
Inductive freeze_reach (h : heap) (root : addr) : addr → Prop :=
| freeze_reach_root : freeze_reach h root root
| freeze_reach_step a nd c :
    freeze_reach h root a → h !! a = Some nd → VRef c ∈ children (shape nd) →
    is_frozen h c = false → freeze_reach h root c.

(** [h'] is [h] with more nodes frozen. *)
Definition more_frozen (h h' : heap) : Prop :=
  length h' = length h
  ∧ ∀ a nd, h !! a = Some nd →
      ∃ fz, h' !! a = Some (Node (shape nd) fz) ∧ (frozen nd = true → fz = true).

Definition unfrozen_count (h : heap) : nat :=
  length (List.filter (λ nd, negb (frozen nd)) h).

(** The entries of the queue that are frozen by now. *)
Definition stale_count (h : heap) (q : list value) : nat :=
  length (List.filter (λ v, negb (needs_freeze h v)) q).

(** [{p: f}] where [f = Object.freeze({c: {}})] was frozen by its owner. *)
Definition frozen_parent_heap : heap :=
  [ object [("p", VRef 1)]; Node (Plain true [("c", VRef 2)]) true; object [] ].

(** The invariant of the loop of [deepFreeze] started on the node [r] of the
    heap [h]: the heap [hc] is [h] with more nodes frozen; the queue [q]
    holds the root or nodes that were not frozen; the root is in the queue or
    frozen; and the properties of every node the loop has frozen are frozen
    or in the queue. *)
Definition frz_inv (h : heap) (r : addr) (hc : heap) (q : list value) : Prop :=
  more_frozen h hc
  ∧ (∀ v, v ∈ q → ∃ a, v = VRef a ∧ a < length h)
  ∧ (VRef r ∈ q ∨ is_frozen hc r = true)
  ∧ (∀ b ndb c,
       hc !! b = Some ndb → frozen ndb = true →
       (b = r ∧ VRef r ∉ q) ∨ is_frozen h b = false →
       VRef c ∈ children (shape ndb) →
       is_frozen hc c = true ∨ VRef c ∈ q).

(** ** Notions used for [safeStringify] *)

(** The bodies of the loops of [SerializeJSONProperty] over the elements of
    an array and over the keys of an object; [ser] serializes one property. *)
Definition json_array_body {St} (ser : St → string → value → result (St * option string))
    (h : heap) (v : value) (acc : St * list string) (i : nat)
  : result (St * list string) :=
  let* e := get_index h v i in
  let* (s', strP) := ser (fst acc) (key_of_index i) e in
  Ok (s', snd acc ++ [default "null" strP]).

Definition json_object_body {St} (ser : St → string → value → result (St * option string))
    (h : heap) (v : value) (acc : St * list string) (P : string)
  : result (St * list string) :=
  let* e := get h v P in
  let* (s', strP) := ser (fst acc) P e in
  Ok (s', match strP with
          | Some str => snd acc ++ [QuoteJSONString P +:+ ":" +:+ str]
          | None => snd acc
          end).

(** The node at [a] is an array or a plain object. *)
Definition container (h : heap) (a : addr) : bool :=
  match h !! a with
  | Some nd => match shape nd with RegExp _ => false | _ => true end
  | None => false
  end.

(** The number of allocated addresses that are not in [seen]. *)
Definition unseen (h : heap) (seen : list value) : nat :=
  length (List.filter (λ x, negb (includes seen (VRef x))) (seq 0 (length h))).

Definition substring_of (m s : string) : Prop :=
  ∃ pre post, s = pre +:+ m +:+ post.

(** The objects being serialized have all been seen by the replacer. *)
Definition stack_inv (h : heap) (stack : list addr) (seen : list value) : Prop :=
  ∀ x, x ∈ stack → includes seen (VRef x) = true ∧ container h x = true.

Definition seen_grows (seen seen' : list value) : Prop :=
  ∀ x, includes seen x = true → includes seen' x = true.

Definition identity_replacer (h : heap) (st : unit) (key : string) (v : value)
  : result (unit * value) := Ok (st, v).

(** ** Notions used for [deepClone] *)

(** No [NaN] among the numbers of the value, down to depth [n]. *)
Fixpoint no_nan (n : nat) (h : heap) (v : value) : bool :=
  match v with
  | VNumber NaN => false
  | VRef a =>
      match n with
      | O => true
      | S n' =>
          match h !! a with
          | Some nd => forallb (no_nan n' h) (children (shape nd))
          | None => true
          end
      end
  | _ => true
  end.

(** No object of the value owns a property named [__proto__], down to depth
    [n]. *)
Fixpoint no_proto_key (n : nat) (h : heap) (v : value) : bool :=
  match v with
  | VRef a =>
      match n with
      | O => true
      | S n' =>
          match h !! a with
          | Some nd =>
              negb (has_own (shape nd) "__proto__")
              && forallb (no_proto_key n' h) (children (shape nd))
          | None => true
          end
      end
  | _ => true
  end.

(** The value of the own enumerable property [key] of a node. *)
Definition child_at (k : kind) (key : string) : option value :=
  match k with
  | Array elems => match index_of_key key with Some i => elems !! i | None => None end
  | Plain _ props => assoc key props
  | RegExp _ => None
  end.

(** The value found by following the keys of [path] from [v]. *)
Fixpoint walk (h : heap) (v : value) (path : list string) : option value :=
  match path with
  | [] => Some v
  | key :: path' =>
      match v with
      | VRef a =>
          match h !! a with
          | Some nd =>
              match child_at (shape nd) key with
              | Some v' => walk h v' path'
              | None => None
              end
          | None => None
          end
      | _ => None
      end
  end.

(** [y], in the heap [h'], is a copy of [x], in the heap [h0]: primitives and
    regular expressions are the same value; an array or plain object is
    copied to a node allocated in [lo, hi), element by element and key by
    key. *)
Fixpoint copy_of (n : nat) (h0 h' : heap) (lo hi : nat) (x y : value) : Prop :=
  match x with
  | VRef a =>
      match h0 !! a with
      | Some nd =>
          match shape nd with
          | Array xs =>
              ∃ b ys, y = VRef b ∧ lo ≤ b < hi
                ∧ h' !! b = Some (Node (Array ys) false)
                ∧ match n with
                  | O => False
                  | S n' => Forall2 (copy_of n' h0 h' lo hi) xs ys
                  end
          | Plain _ ps =>
              ∃ b qs, y = VRef b ∧ lo ≤ b < hi
                ∧ h' !! b = Some (Node (Plain true qs) false)
                ∧ match n with
                  | O => False
                  | S n' =>
                      Forall2 (λ p q, fst p = fst q
                                      ∧ copy_of n' h0 h' lo hi (snd p) (snd q)) ps qs
                  end
          | RegExp _ => y = x
          end
      | None => False
      end
  | _ => y = x
  end.

(** [[NaN]] *)
Definition nan_heap : heap := [ array [VNumber NaN] ].

(** [{__proto__: 1, a: 2}] with [__proto__] an own property, as
    [JSON.parse] creates it. *)
Definition proto_key_heap : heap := [ object [("__proto__", num 1); ("a", num 2)] ].

(** The body of the [forEach] of [deepClone]. *)
Definition clone_body (fuel' : nat) (obj res : value) (hi : heap) (key : string)
  : result heap :=
  let* v := get hi obj key in
  if truthy v && String.eqb (typeof v) "object"
  then let* (h2, c) := deepClone fuel' hi v in set h2 res key c
  else set hi res key v.

(** The copy of one property value: [deepClone] of an object, the value
    itself otherwise. *)
Definition clone_value (fuel' : nat) (hi : heap) (v : value) : result (heap * value) :=
  if truthy v && String.eqb (typeof v) "object"
  then deepClone fuel' hi v
  else Ok (hi, v).

(** ** The result of [mixin], as the specification words it *)

(** The value is a plain object of the heap. *)
Definition is_plain (h : heap) (v : value) : bool :=
  match v with
  | VRef a =>
      match h !! a with
      | Some (Node (Plain _ _) _) => true
      | _ => false
      end
  | _ => false
  end.

(** The pairs that one property [kv] of the source contributes: with
    [overwrite], those of the value that the destination has at the same key
    and the value of the source. *)
Definition key_pairs (pairs : value → value → list (addr * addr)) (overwrite : bool)
    (pd : list (string * value)) (kv : string * value) : list (addr * addr) :=
  match assoc (fst kv) pd with
  | Some dv => if overwrite then pairs dv (snd kv) else []
  | None => []
  end.

(** [merged_pairs overwrite n h d s]: the pairs of plain objects that
    [mixin(d, s, overwrite)] merges, the first into the second, down to depth
    [n]: [d] and [s] themselves when both are plain objects, and, with
    [overwrite], the pairs of the values that [d] and [s] have at a key of
    both. *)
Fixpoint merged_pairs (overwrite : bool) (n : nat) (h : heap) (d s : value)
  : list (addr * addr) :=
  match n with
  | O => []
  | S n' =>
      match d, s with
      | VRef a, VRef b =>
          match h !! a, h !! b with
          | Some (Node (Plain _ pd) _), Some (Node (Plain _ ps) _) =>
              (a, b) :: flat_map (key_pairs (merged_pairs overwrite n' h) overwrite pd) ps
          | _, _ => []
          end
      | _, _ => []
      end
  end.

(** The recursion of [mixin(d, s, overwrite)] ends within [n] levels: [d]
    and [s] are not both plain objects, or [n] is not zero and, with
    [overwrite], the recursion on the values that the two have at a key of
    both ends within [n - 1] levels.  [mixin] has no check for cycles. *)
Fixpoint merge_ends (overwrite : bool) (n : nat) (h : heap) (d s : value) : bool :=
  match d, s with
  | VRef a, VRef b =>
      match h !! a, h !! b with
      | Some (Node (Plain _ pd) _), Some (Node (Plain _ ps) _) =>
          match n with
          | O => false
          | S n' =>
              negb overwrite
              || forallb (λ kv, match assoc (fst kv) pd with
                                | Some dv => merge_ends overwrite n' h dv (snd kv)
                                | None => true
                                end) ps
          end
      | _, _ => true
      end
  | _, _ => true
  end.

(** [mixed overwrite h proto pd ps key]: the value that the specification
    gives to the property [key] of a destination with the properties [pd]
    after the merge of a source with the properties [ps].  A key that the
    source lacks keeps its value; a key of the source that is not in the
    destination is added; for a key of both, with [overwrite] the value of
    the destination stays in place when both values are plain objects (the
    two are merged, see [merged_pairs]) and the value of the source replaces
    it otherwise, and without [overwrite] the value of the destination
    stays.  A key is in the destination when the destination owns it or
    inherits it from [Object.prototype]: without [overwrite], a key of the
    source that the destination only inherits is not added.  With
    [overwrite] the code reads the inherited property before it writes; this
    case is outside the model and excluded where [mixed] is used (see
    [own_reads]). *)
Definition mixed (overwrite : bool) (h : heap) (proto : bool)
    (pd ps : list (string * value)) (key : string) : option value :=
  match assoc key ps with
  | None => assoc key pd
  | Some sv =>
      match assoc key pd with
      | Some dv =>
          if overwrite
          then if is_plain h dv && is_plain h sv then Some dv else Some sv
          else Some dv
      | None =>
          if proto && inherited key
          then if overwrite then Some sv else None
          else Some sv
      end
  end.

(** The destination [fst ab] of the pair has, in [h'], the properties that
    [mixed] gives for its properties and those of the source [snd ab] in
    [h]. *)
Definition merged_at (overwrite : bool) (h h' : heap) (ab : addr * addr) : Prop :=
  ∃ pa pd fa pb ps fb pd',
    h !! fst ab = Some (Node (Plain pa pd) fa)
    ∧ h !! snd ab = Some (Node (Plain pb ps) fb)
    ∧ h' !! fst ab = Some (Node (Plain pa pd') false)
    ∧ ∀ key, assoc key pd' = mixed overwrite h pa pd ps key.

(** With [overwrite], [mixin] reads from the destination every key of the
    source that is in the destination; the read of a property that the
    destination only inherits is outside the model.  [own_reads h ab]: every
    key of the source [snd ab] is a key of the destination [fst ab] or none
    of the names that it inherits. *)
Definition own_reads (h : heap) (ab : addr * addr) : bool :=
  match h !! fst ab, h !! snd ab with
  | Some (Node (Plain pa pd) _), Some (Node (Plain _ ps) _) =>
      forallb (λ kv, match assoc (fst kv) pd with
                     | Some _ => true
                     | None => negb (pa && inherited (fst kv))
                     end) ps
  | _, _ => true
  end.

(** The pairs can be merged one after the other and described by the heap
    [h] of the start: no destination of a pair is the destination of another
    pair, the source of a pair or frozen, and with [overwrite] no key of a
    source is only inherited by its destination. *)
Definition mergeable (overwrite : bool) (h : heap) (pairs : list (addr * addr)) : Prop :=
  NoDup (map fst pairs)
  ∧ (∀ x, x ∈ map fst pairs → x ∉ map snd pairs)
  ∧ (∀ x, x ∈ map fst pairs → is_frozen h x = false)
  ∧ (overwrite = true → forallb (own_reads h) pairs = true).

(** The body of the [forEach] of [mixin]. *)
Definition mixin_body (fuel' : nat) (destination source : value) (overwrite : bool)
    (hi : heap) (key : string) : result heap :=
  let* present := has_property hi destination key in
  if present then
    if overwrite then
      let* dv := get hi destination key in
      let* dl := Is.objectLiteral hi dv in
      let* both :=
        if dl
        then let* sv := get hi source key in Is.objectLiteral hi sv
        else Ok false in
      let* sv := get hi source key in
      if both
      then let* (h2, _) := mixin fuel' hi dv sv overwrite in Ok h2
      else set hi destination key sv
    else Ok hi
  else
    let* sv := get hi source key in
    set hi destination key sv.

(** [{a: 1}], [{a: 2}], [{a: {x: 1}}] and [{a: {y: 2}}] *)
Definition mixin_heap : heap :=
  [ object [("a", num 1)]; object [("a", num 2)];
    object [("a", VRef 3)]; object [("x", num 1)];
    object [("a", VRef 5)]; object [("y", num 2)] ].

(** [{}] and [{toString: 1}] *)
Definition inherited_heap : heap := [ object []; object [("toString", num 1)] ].

(** [Object.freeze({})] and [{a: 1}] *)
Definition frozen_heap : heap := [ Node (Plain true []) true; object [("a", num 1)] ].

(** [{a: o, b: o}] with one shared [o = {x: 0}], and [{a: {x: 1}, b: {x: 2}}] *)
Definition twice_heap : heap :=
  [ object [("a", VRef 1); ("b", VRef 1)]; object [("x", num 0)];
    object [("a", VRef 3); ("b", VRef 4)]; object [("x", num 1)];
    object [("x", num 2)] ].

(** [{a: o, b: o}] with one shared [o = {x: 1}], and [{a: {y: 2}}] *)
Definition shared_destination_heap : heap :=
  [ object [("a", VRef 1); ("b", VRef 1)]; object [("x", num 1)];
    object [("a", VRef 3)]; object [("y", num 2)] ].

(** What the state of the loop of [mixin] on the destination [a] is after
    the properties [done] of the source: the heap [hc] differs from the heap
    [hc0] of the start at [a] and at the destinations of [sub] at most; [a]
    has the properties [props], which are those that [mixed] gives at the
    keys of [done] and those it had at the other keys; and every pair of
    [sub] is merged. *)
Definition mixin_inv (overwrite : bool) (h hc0 : heap) (a : addr) (pa : bool)
    (pd ps done : list (string * value)) (sub : list (addr * addr))
    (hc : heap) (props : list (string * value)) : Prop :=
  (∀ v, Is.objectLiteral hc v = Is.objectLiteral h v)
  ∧ (∀ x, x ≠ a → x ∉ map fst sub → hc !! x = hc0 !! x)
  ∧ hc !! a = Some (Node (Plain pa props) false)
  ∧ (∀ key, assoc key props =
            if bool_decide (key ∈ map fst done) then mixed overwrite h pa pd ps key
            else assoc key pd)
  ∧ (∀ ab, ab ∈ sub → merged_at overwrite h hc ab).

(** ** [assign]

    The rest parameter [sources] is the list of the remaining arguments;
    [Object.keys(source)] is taken before the properties of the source are
    copied one by one. *)
Definition assign (h : heap) (destination : value) (sources : list value)
  : result (heap * value) :=
  let* h' :=
    forEach sources
      (λ h1 source,
         let* keys := object_keys h1 source in
         forEach keys
           (λ hi key, let* v := get hi source key in set hi destination key v)
           h1)
      h in
  Ok (h', destination).

(** ** [getOrDefault]

    The selector [fn] reads the heap.  The parameter [defaultValue] has the
    default [null], which is taken when the argument is missing or
    [undefined]. *)
Definition getOrDefault (h : heap) (obj : value)
    (fn : heap → value → result value) (defaultValue : value) : result value :=
  let defaultValue := if is_undefined defaultValue then VNull else defaultValue in
  let* res := fn h obj in
  Ok (if String.eqb (typeof res) "undefined" then defaultValue else res).

(** ** Notions used to state further properties *)

(** [/a/], [/b/] and [{}] *)
Definition regexp_heap : heap :=
  [ Node (RegExp "a") false; Node (RegExp "b") false; object [] ].

(** The two heaps have the same nodes up to the marks of [Object.freeze]. *)
Definition same_shapes (h h' : heap) : Prop :=
  length h' = length h
  ∧ ∀ a nd, h !! a = Some nd → ∃ fz, h' !! a = Some (Node (shape nd) fz).

(** What [equals] compares of two distinct objects: the elements of two
    arrays index by index, the values of two other objects key by key in the
    order of the sorted keys. *)
Definition equals_nodes (n : nat) (h : heap) (kx ky : kind) : result bool :=
  match kx, ky with
  | Array xs, Array ys =>
      if negb (length xs =? length ys) then Ok false
      else all_pass (seq 0 (length xs))
             (λ i, equals n h (default VUndefined (xs !! i))
                              (default VUndefined (ys !! i)))
  | Array _, _ | _, Array _ => Ok false
  | _, _ =>
      if negb (equals_keys (sort (own_keys kx)) (sort (own_keys ky))) then Ok false
      else all_pass (sort (own_keys kx))
             (λ key, let* vx := get_kind kx key in
                     let* vy := get_kind ky key in
                     equals n h vx vy)
  end.

(** [[1,2]], [[1,2]], [[1,2]] *)
Definition three_arrays : heap :=
  [ array [num 1; num 2]; array [num 1; num 2]; array [num 1; num 2] ].

(** The value is the number [NaN]. *)
Definition is_nan (v : value) : bool :=
  match v with VNumber NaN => true | _ => false end.

(** [{a: NaN, b: 1}] *)
Definition nan_object_heap : heap := [ object [("a", VNumber NaN); ("b", num 1)] ].

(** [a = [1, a]]: an array that contains itself. *)
Definition self_array_heap : heap := [ array [num 1; VRef 0] ].

(** The value that [assign] leaves at [key]: the value of the last source
    that has the key, and the old value when no source has it. *)
Definition assigned (h : heap) (sources : list value) (key : string)
    (old : option value) : option value :=
  fold_left
    (λ acc s,
       match s with
       | VRef b =>
           match h !! b with
           | Some nd =>
               match child_at (shape nd) key with
               | Some v => Some v
               | None => acc
               end
           | None => acc
           end
       | _ => acc
       end)
    sources old.

(** The body of the inner [forEach] of [assign]. *)
Definition assign_body (destination source : value) (hi : heap) (key : string)
  : result heap :=
  let* v := get hi source key in set hi destination key v.

(** [{a: 1, b: 2}], [{b: 3}] and [[7]] *)
Definition assign_heap : heap :=
  [ object [("a", num 1); ("b", num 2)]; object [("b", num 3)]; array [num 7] ].

(** A selector that reads the property [key]. *)
Definition select (key : string) (h : heap) (obj : value) : result value :=
  get h obj key.

(** The arrays and plain objects that a traversal of depth [n] enters from
    [v], in the order of the traversal and as often as it enters them. *)
Fixpoint containers (n : nat) (h : heap) (v : value) : list addr :=
  match v with
  | VRef a =>
      match n with
      | O => []
      | S n' =>
          match h !! a with
          | Some nd =>
              match shape nd with
              | RegExp _ => []
              | k => a :: flat_map (containers n' h) (children k)
              end
          | None => []
          end
      end
  | _ => []
  end.

(** What [safeStringify] returns when [JSON.stringify] returns [res] for the
    same fuel: the same string or error, with the objects it has entered
    added to [seen]. *)
Definition with_seen (seen : list value) (entered : list addr)
    (res : result (unit * option string)) : result (list value * option string) :=
  match res with
  | Ok (_, out) => Ok (seen ++ map VRef entered, out)
  | Err e => Err e
  end.

Definition loop_with_seen (seen : list value) (entered : list addr)
    (res : result (unit * list string)) : result (list value * list string) :=
  match res with
  | Ok (_, partial) => Ok (seen ++ map VRef entered, partial)
  | Err e => Err e
  end.

(** A tree of objects: [{a: {n: 1}, b: [{n: 1}]}]. *)
Definition tree_heap : heap :=
  [ object [("a", VRef 1); ("b", VRef 2)]; object [("n", num 1)];
    array [VRef 3]; object [("n", num 1)] ].

(** The values that [cloneAndChange] passes to [changer], in the order of
    the calls: every value that is neither [null] nor [undefined], before
    the values below it, and nothing below a value that [changer]
    replaces. *)
Fixpoint visits (fuel : nat) (h : heap) (changer : value → value) (v : value)
  : list value :=
  match fuel with
  | O => []
  | S fuel' =>
      if loose_null v then []
      else
        v :: (if negb (String.eqb (typeof (changer v)) "undefined") then []
              else match v with
                   | VRef a =>
                       match h !! a with
                       | Some nd =>
                           match shape nd with
                           | RegExp _ => []
                           | k => flat_map (visits fuel' h changer) (children k)
                           end
                       | None => []
                       end
                   | _ => []
                   end)
  end.

(** A changer that replaces the arrays of [tree_heap]. *)
Definition no_arrays (v : value) : value :=
  match v with VRef 2 => VString "array" | _ => VUndefined end.

(** * Basic facts *)

Lemma bind_Ok {A B} (m : result A) (f : A → result B) b :
  bind m f = Ok b ↔ ∃ a, m = Ok a ∧ f a = Ok b.
Proof.
  destruct m as [a|e]; simpl; split.
  - eauto.
  - intros (a' & [= <-] & Hf); done.
  - done.
  - intros (a' & [=] & _).
Qed.

Ltac inv_bind H :=
  match type of H with
  | bind ?m ?f = Ok _ =>
      let x := fresh "x" in
      let Hm := fresh "Hm" in
      apply bind_Ok in H; destruct H as (x & Hm & H)
  end.

Lemma strict_eq_sym a b : strict_eq a b = strict_eq b a.
Proof.
  destruct a as [| |x|[|x]|x|x], b as [| |y|[|y]|y|y]; simpl; try done.
  - by destruct x, y.
  - apply Z.eqb_sym.
  - apply String.eqb_sym.
  - apply Nat.eqb_sym.
Qed.

Lemma strict_eq_ref a b : strict_eq (VRef a) (VRef b) = bool_decide (a = b).
Proof.
  simpl. destruct (Nat.eqb_spec a b).
  - by rewrite bool_decide_eq_true_2.
  - by rewrite bool_decide_eq_false_2.
Qed.

Lemma strict_eq_true a b : strict_eq a b = true → a = b.
Proof.
  destruct a as [| |x|[|x]|x|x], b as [| |y|[|y]|y|y]; simpl; try done.
  - intros H. apply Bool.eqb_prop in H. by subst.
  - intros H%Z.eqb_eq. by subst.
  - intros H%String.eqb_eq. by subst.
  - intros H%Nat.eqb_eq. by subst.
Qed.

Lemma strict_eq_refl a : a ≠ VNumber NaN → strict_eq a a = true.
Proof.
  destruct a as [| |x|[|x]|x|x]; simpl; try done; intros _.
  - by destruct x.
  - apply Z.eqb_refl.
  - apply String.eqb_refl.
  - apply Nat.eqb_refl.
Qed.

Lemma index_of_key_of_index i : index_of_key (key_of_index i) = Some i.
Proof.
  unfold index_of_key, key_of_index.
  rewrite NilEmpty.usu, Unsigned.of_to, String.eqb_refl. done.
Qed.

Lemma index_of_key_Some key i : index_of_key key = Some i → key = key_of_index i.
Proof.
  unfold index_of_key.
  destruct (NilEmpty.uint_of_string key) as [u|]; [|done].
  destruct (String.eqb_spec (key_of_index (Nat.of_uint u)) key); [|done].
  intros [= <-]. done.
Qed.

Lemma key_of_index_inj i j : key_of_index i = key_of_index j → i = j.
Proof.
  intros H. apply (f_equal index_of_key) in H.
  rewrite !index_of_key_of_index in H. congruence.
Qed.

Lemma deref_Ok h a n : deref h a = Ok n ↔ h !! a = Some n.
Proof. unfold deref. destruct (h !! a); split; congruence. Qed.

Lemma deref_prefix h h' a n :
  h `prefix_of` h' → deref h a = Ok n → deref h' a = Ok n.
Proof.
  rewrite !deref_Ok. intros Hp Hl. by eapply prefix_lookup_Some.
Qed.

(** ** Loops *)

Lemma forEach_app {A St} (l1 l2 : list A) (f : St → A → result St) s :
  forEach (l1 ++ l2) f s = bind (forEach l1 f s) (forEach l2 f).
Proof.
  revert s. induction l1 as [|x l1 IH]; intros s; simpl; [done|].
  destruct (f s x); simpl; [apply IH|done].
Qed.

Lemma forEach_ext {A St} (l : list A) (f g : St → A → result St) s :
  (∀ s x, x ∈ l → f s x = g s x) → forEach l f s = forEach l g s.
Proof.
  revert s. induction l as [|x l IH]; intros s Hfg; simpl; [done|].
  rewrite Hfg by left. destruct (g s x); simpl; [|done].
  apply IH. intros s' y Hy. apply Hfg. by right.
Qed.

(** An invariant of the state that every iteration of the body preserves
    holds after the loop. *)
Lemma forEach_invariant {A St} (P : St → Prop) (l : list A)
    (f : St → A → result St) s s' :
  (∀ s x s', x ∈ l → P s → f s x = Ok s' → P s') →
  P s → forEach l f s = Ok s' → P s'.
Proof.
  revert s. induction l as [|x l IH]; intros s Hf Hs H; simpl in H.
  - by injection H as <-.
  - inv_bind H. eapply IH; [|eapply Hf; [by left|done..]|done].
    intros s1 y s2 Hy. apply Hf. by right.
Qed.

Lemma all_pass_ext {A} (l : list A) (f g : A → result bool) :
  (∀ x, x ∈ l → f x = g x) → all_pass l f = all_pass l g.
Proof.
  induction l as [|x l IH]; intros Hfg; simpl; [done|].
  rewrite Hfg by left. destruct (g x) as [[]|]; try done.
  apply IH. intros y Hy. apply Hfg. by right.
Qed.

Lemma all_pass_total {A} (l : list A) (f : A → result bool) :
  (∀ x, x ∈ l → ∃ r, f x = Ok r) → ∃ r, all_pass l f = Ok r.
Proof.
  induction l as [|x l IH]; intros Hf; simpl; [by eexists|].
  destruct (Hf x) as [[] ->]; [by left| |by eexists].
  apply IH. intros y Hy. apply Hf. by right.
Qed.

Lemma all_pass_true {A} (l : list A) (f : A → result bool) :
  (∀ x, x ∈ l → f x = Ok true) → all_pass l f = Ok true.
Proof.
  induction l as [|x l IH]; intros Hf; simpl; [done|].
  rewrite Hf by left. apply IH. intros y Hy. apply Hf. by right.
Qed.

(** * [equals] *)

Lemma equals_keys_sym l1 l2 : equals_keys l1 l2 = equals_keys l2 l1.
Proof.
  revert l2. induction l1 as [|x l1 IH]; intros [|y l2]; simpl; try done.
  by rewrite String.eqb_sym, IH.
Qed.

Lemma equals_keys_true l1 l2 : equals_keys l1 l2 = true ↔ l1 = l2.
Proof.
  revert l2. induction l1 as [|x l1 IH]; intros [|y l2]; simpl; try done.
  rewrite andb_true_iff, String.eqb_eq, IH. split.
  - by intros [-> ->].
  - by intros [= -> ->].
Qed.

Lemma get_kind_err k key e : get_kind k key = Err e → e = Unsupported.
Proof.
  destruct k as [elems|proto props|src]; simpl.
  - destruct (index_of_key key); [done|]. by destruct (String.eqb key "length"); intros [=].
  - destruct (assoc key props); [done|]. by destruct (proto && inherited key); intros [=].
  - by intros [=].
Qed.

Lemma equals_sym fuel h a b : equals fuel h a b = equals fuel h b a.
Proof.
  revert a b. induction fuel as [|n IH]; intros a b; [done|].
  simpl. rewrite (strict_eq_sym b a).
  destruct (strict_eq a b) eqn:Hse; [done|].
  destruct a as [| |x|x|x|a], b as [| |y|y|y|b]; simpl; try done.
  unfold isArray, kind_of, deref.
  destruct (h !! a) as [[ka fa]|] eqn:Ha, (h !! b) as [[kb fb]|] eqn:Hb; simpl; try done.
  destruct ka as [xs|pa ps|sa], kb as [ys|pb qs|sb]; simpl; try done.
  - rewrite (Nat.eqb_sym (length ys)).
      destruct (Nat.eqb_spec (length xs) (length ys)) as [Hlen|]; simpl; [|done].
      rewrite <- Hlen. apply all_pass_ext. intros i _. apply IH.
  - rewrite (equals_keys_sym (sort (map fst qs))).
      destruct (equals_keys (sort (map fst ps)) (sort (map fst qs))) eqn:Hk; simpl; [|done].
      apply equals_keys_true in Hk. rewrite <- Hk. apply all_pass_ext.
      intros key _.
      fold (get_kind (Plain pa ps) key) (get_kind (Plain pb qs) key).
      destruct (get_kind (Plain pa ps) key) as [x|e1] eqn:H1,
               (get_kind (Plain pb qs) key) as [y|e2] eqn:H2; simpl; try done.
      apply get_kind_err in H1, H2. by subst.
  - by destruct (sort (map fst ps)).
  - by destruct (sort (map fst qs)).
Qed.

Lemma all_pass_mono {A} (l : list A) (f g : A → result bool) r :
  (∀ x r, x ∈ l → f x = Ok r → g x = Ok r) →
  all_pass l f = Ok r → all_pass l g = Ok r.
Proof.
  induction l as [|x l IH]; intros Hfg H; simpl in *; [done|].
  destruct (f x) as [[]|] eqn:Hx; try done.
  - rewrite (Hfg x true) by (done || by left). apply IH; [|done].
    intros y r' Hy. apply Hfg. by right.
  - rewrite (Hfg x false) by (done || by left). done.
Qed.

(** More fuel and a larger heap do not change a result. *)
Lemma equals_mono n m h h' a b r :
  n ≤ m → h `prefix_of` h' → equals n h a b = Ok r → equals m h' a b = Ok r.
Proof.
  intros Hnm Hp. revert m Hnm a b r.
  induction n as [|n IH]; intros [|m] Hnm a b r H; try done; [lia|].
  simpl in *.
  destruct (strict_eq a b) eqn:Hse; [done|].
  destruct a as [| |x|x|x|a], b as [| |y|y|y|b]; simpl in *; try done.
  unfold isArray, kind_of, deref in *.
  destruct (h !! a) as [[ka fa]|] eqn:Ha; [|done].
  rewrite (prefix_lookup_Some _ _ _ _ Ha Hp).
  destruct (h !! b) as [[kb fb]|] eqn:Hb; [|by destruct ka].
  rewrite (prefix_lookup_Some _ _ _ _ Hb Hp).
  simpl in *.
  destruct ka as [xs|pa ps|sa], kb as [ys|pb qs|sb]; simpl in *; try done.
  - destruct (length xs =? length ys); simpl in *; [|done].
    revert H. apply all_pass_mono. intros i r' _. apply IH. lia.
  - destruct (equals_keys (sort (map fst ps)) (sort (map fst qs))); simpl in *; [|done].
    revert H. apply all_pass_mono. intros key r' _.
    fold (get_kind (Plain pa ps) key) (get_kind (Plain pb qs) key).
    destruct (get_kind (Plain pa ps) key); simpl; [|by intros [=]].
    fold (get_kind (Plain pb qs) key).
    destruct (get_kind (Plain pb qs) key); simpl; [|by intros [=]].
    apply IH. lia.
Qed.

Lemma equals_fuel n m h a b r :
  n ≤ m → equals n h a b = Ok r → equals m h a b = Ok r.
Proof. intros. by eapply equals_mono. Qed.

(** ** Sorting the keys *)

Lemma insert_sorted_perm k l : Permutation (insert_sorted k l) (k :: l).
Proof.
  induction l as [|x l IH]; simpl; [done|].
  destruct (String.leb k x); [done|].
  rewrite IH. apply perm_swap.
Qed.

Lemma sort_perm l : Permutation (sort l) l.
Proof.
  induction l as [|x l IH]; simpl; [done|].
  by rewrite insert_sorted_perm, IH.
Qed.

Lemma elem_of_sort k l : k ∈ sort l ↔ k ∈ l.
Proof. by rewrite sort_perm. Qed.


Lemma key_le_trans x y z : key_le x y → key_le y z → key_le x z.
Proof.
  unfold key_le, String.leb. revert y z.
  induction x as [|a x IH]; intros [|b y] [|c z]; simpl; try done.
  unfold Ascii.compare.
  destruct (N.compare_spec (N_of_ascii a) (N_of_ascii b)) as [Hab|Hab|Hab];
    destruct (N.compare_spec (N_of_ascii b) (N_of_ascii c)) as [Hbc|Hbc|Hbc];
    try done.
  - rewrite Hab, Hbc, N.compare_refl. apply IH.
  - intros _ _. rewrite Hab. by apply N.compare_lt_iff in Hbc as ->.
  - intros _ _. rewrite <- Hbc. by apply N.compare_lt_iff in Hab as ->.
  - intros _ _. assert (N_of_ascii a < N_of_ascii c)%N as Hac by lia.
    by apply N.compare_lt_iff in Hac as ->.
Qed.

#[local] Instance key_le_transitive : Transitive key_le := key_le_trans.

#[local] Instance key_le_antisym : AntiSymm (=) key_le.
Proof. intros x y. apply String.leb_antisym. Qed.

Lemma insert_sorted_Sorted k l : Sorted key_le l → Sorted key_le (insert_sorted k l).
Proof.
  induction 1 as [|x l Hl IH Hx]; simpl.
  - by repeat constructor.
  - destruct (String.leb k x) eqn:Hkx.
    + by repeat constructor.
    + constructor; [done|].
      assert (key_le x k) as Hxk.
      { destruct (String.leb_total k x) as [H|H]; [congruence|done]. }
      destruct Hx as [|y l Hxy]; simpl.
      * by constructor.
      * destruct (String.leb k y); by constructor.
Qed.

Lemma sort_Sorted l : Sorted key_le (sort l).
Proof.
  induction l as [|x l IH]; simpl; [constructor|].
  by apply insert_sorted_Sorted.
Qed.

(** Sorting forgets the order in which the keys were inserted. *)
Lemma sort_permutation l l' : Permutation l l' → sort l = sort l'.
Proof.
  intros Hp. apply (Sorted_unique key_le); [apply sort_Sorted..|].
  by rewrite !sort_perm.
Qed.

(** ** Property lists *)

Lemma assoc_None {V} k (ps : list (string * V)) : assoc k ps = None ↔ k ∉ map fst ps.
Proof.
  induction ps as [|[k' v] ps IH]; simpl.
  - split; [intros _; apply not_elem_of_nil|done].
  - rewrite not_elem_of_cons. destruct (String.eqb_spec k k'); [|tauto].
    split; [done|]. intros [? _]. done.
Qed.

Lemma assoc_Some_elem {V} k (v : V) ps : assoc k ps = Some v → (k, v) ∈ ps.
Proof.
  induction ps as [|[k' v'] ps IH]; simpl; [done|].
  destruct (String.eqb_spec k k') as [->|].
  - intros [= ->]. by left.
  - intros H. right. by apply IH.
Qed.

Lemma assoc_Some {V} k (v : V) ps :
  NoDup (map fst ps) → assoc k ps = Some v ↔ (k, v) ∈ ps.
Proof.
  intros Hnd. split; [apply assoc_Some_elem|].
  induction ps as [|[k' v'] ps IH]; simpl in *; [by intros ?%elem_of_nil|].
  apply NoDup_cons in Hnd as [Hk' Hnd].
  intros [[= -> ->]|Hin]%elem_of_cons.
  - by rewrite String.eqb_refl.
  - destruct (String.eqb_spec k k') as [->|]; [|by apply IH].
    destruct Hk'. exact (list_elem_of_fmap_2 fst _ _ Hin).
Qed.

Lemma assoc_permutation {V} k (ps ps' : list (string * V)) :
  NoDup (map fst ps) → Permutation ps ps' → assoc k ps = assoc k ps'.
Proof.
  intros Hnd Hp.
  assert (NoDup (map fst ps')) as Hnd' by (by rewrite <- Hp).
  destruct (assoc k ps) as [v|] eqn:H.
  - symmetry. apply assoc_Some; [done|]. rewrite <- Hp. by apply assoc_Some_elem.
  - symmetry. apply assoc_None. rewrite <- Hp. by apply assoc_None.
Qed.

(** ** What [equals] computes on two distinct nodes *)

Lemma equals_arrays n h a b xs ys fa fb :
  h !! a = Some (Node (Array xs) fa) → h !! b = Some (Node (Array ys) fb) → a ≠ b →
  equals (S n) h (VRef a) (VRef b) =
    if negb (length xs =? length ys) then Ok false
    else all_pass (seq 0 (length xs))
           (λ i, equals n h (default VUndefined (xs !! i)) (default VUndefined (ys !! i))).
Proof.
  intros Ha Hb Hab. simpl.
  destruct (Nat.eqb_spec a b); [done|].
  unfold isArray, kind_of, deref. rewrite Ha, Hb. simpl. done.
Qed.

Lemma equals_plains n h a b pa ps pb qs fa fb :
  h !! a = Some (Node (Plain pa ps) fa) → h !! b = Some (Node (Plain pb qs) fb) → a ≠ b →
  equals (S n) h (VRef a) (VRef b) =
    if negb (equals_keys (sort (map fst ps)) (sort (map fst qs))) then Ok false
    else all_pass (sort (map fst ps))
           (λ key, let* x := get_kind (Plain pa ps) key in
                   let* y := get_kind (Plain pb qs) key in
                   equals n h x y).
Proof.
  intros Ha Hb Hab. simpl.
  destruct (Nat.eqb_spec a b); [done|].
  unfold isArray, kind_of, deref. rewrite Ha, Hb. simpl. done.
Qed.

Lemma equals_array_plain n h a b xs pb qs fa fb :
  h !! a = Some (Node (Array xs) fa) → h !! b = Some (Node (Plain pb qs) fb) →
  equals (S n) h (VRef a) (VRef b) = Ok false.
Proof.
  intros Ha Hb. simpl.
  destruct (Nat.eqb_spec a b) as [->|]; [congruence|].
  unfold isArray, kind_of, deref. rewrite Ha, Hb. simpl. done.
Qed.

(** The call [equals(oneKeys, otherKeys)] inside [equals]: on two distinct
    arrays of strings the function computes [equals_keys]. *)
Lemma equals_string_arrays n h a b ks1 ks2 fa fb :
  h !! a = Some (Node (Array (map VString ks1)) fa) →
  h !! b = Some (Node (Array (map VString ks2)) fb) → a ≠ b →
  equals (S (S n)) h (VRef a) (VRef b) = Ok (equals_keys ks1 ks2).
Proof.
  intros Ha Hb Hab. rewrite (equals_arrays _ _ _ _ _ _ _ _ Ha Hb Hab).
  rewrite !length_map.
  destruct (Nat.eqb_spec (length ks1) (length ks2)) as [Hlen|Hlen]; simpl.
  - clear Ha Hb. revert ks2 Hlen. induction ks1 as [|x ks1 IH]; intros [|y ks2] Hlen; try done.
    simpl in Hlen. injection Hlen as Hlen.
    cbn [length seq all_pass map lookup list_lookup default from_option id].
    simpl. destruct (String.eqb_spec x y) as [->|Hxy]; simpl.
    + rewrite <- (IH ks2 Hlen). rewrite <- seq_shift.
      clear. generalize (seq 0 (length ks1)). intros l.
      induction l as [|i l IHl]; [done|]. simpl.
      by rewrite IHl.
    + done.
  - symmetry. f_equal. apply not_true_is_false. rewrite equals_keys_true.
    intros ->. done.
Qed.

(** ** Termination on acyclic values *)

Lemma assoc_elem {V} k (ps : list (string * V)) :
  k ∈ map fst ps → ∃ v, assoc k ps = Some v ∧ (k, v) ∈ ps.
Proof.
  intros Hk. destruct (assoc k ps) as [v|] eqn:H.
  - exists v. split; [done|]. by apply assoc_Some_elem.
  - by apply assoc_None in H.
Qed.

Lemma depth_le_elem n h (xs : list value) x :
  forallb (depth_le n h) xs = true → x ∈ xs → depth_le n h x = true.
Proof.
  rewrite forallb_forall. intros H Hx. apply H. by apply list_elem_of_In.
Qed.

Lemma depth_le_prop n h (ps : list (string * value)) k v :
  forallb (λ p, depth_le n h (snd p)) ps = true → (k, v) ∈ ps → depth_le n h v = true.
Proof.
  rewrite forallb_forall. intros H Hx. apply (H (k, v)). by apply list_elem_of_In.
Qed.

Lemma depth_le_default n h (xs : list value) i :
  forallb (depth_le n h) xs = true → depth_le n h (default VUndefined (xs !! i)) = true.
Proof.
  intros H. destruct (xs !! i) as [x|] eqn:Hi; simpl; [|by destruct n].
  eapply depth_le_elem; [done|]. by eapply list_elem_of_lookup_2.
Qed.


Lemma equals_prim n h v w :
  is_ref v && is_ref w = false → ∃ r, equals (S n) h v w = Ok r.
Proof.
  intros H. simpl. destruct (strict_eq v w); [by eexists|].
  destruct v, w; simpl in *; try done; by eexists.
Qed.

Lemma equals_total n h v w :
  depth_le n h v = true → depth_le n h w = true → ∃ r, equals (S n) h v w = Ok r.
Proof.
  revert v w. induction n as [|n IH]; intros v w Ha Hb.
  { apply equals_prim. by destruct v. }
  destruct (is_ref v && is_ref w) eqn:Hrefs; [|by apply equals_prim].
  destruct v as [| |x|x|x|a]; try done.
  destruct w as [| |y|y|y|b]; try done.
  simpl in Ha, Hb.
  destruct (h !! a) as [[ka fa]|] eqn:Hha; [|done].
  destruct (h !! b) as [[kb fb]|] eqn:Hhb; [|done].
  simpl in Ha, Hb.
  destruct (decide (a = b)) as [->|Hab].
  { exists true. simpl. by rewrite Nat.eqb_refl. }
  destruct ka as [xs|pa ps|sa], kb as [ys|pb qs|sb].
  - rewrite (equals_arrays _ _ _ _ _ _ _ _ Hha Hhb Hab).
    destruct (negb _); [by eexists|].
    apply all_pass_total. intros i _. apply IH; by apply depth_le_default.
  - rewrite (equals_array_plain _ _ _ _ _ _ _ _ _ Hha Hhb). by eexists.
  - exists false. simpl. destruct (Nat.eqb_spec a b); [done|].
    unfold isArray, kind_of, deref. rewrite Hha, Hhb. done.
  - exists false. simpl. destruct (Nat.eqb_spec a b); [done|].
    unfold isArray, kind_of, deref. rewrite Hha, Hhb. done.
  - rewrite (equals_plains _ _ _ _ _ _ _ _ _ _ Hha Hhb Hab).
    destruct (equals_keys _ _) eqn:Hk; simpl; [|by eexists].
    apply equals_keys_true in Hk.
    apply all_pass_total. intros key Hkey.
    assert (key ∈ sort (map fst qs)) as Hkey' by (by rewrite <- Hk).
    apply elem_of_sort, assoc_elem in Hkey as (x & Hx & Hxin).
    apply elem_of_sort, assoc_elem in Hkey' as (y & Hy & Hyin).
    simpl. rewrite Hx, Hy. simpl.
    apply IH; [exact (depth_le_prop _ _ _ _ _ Ha Hxin)|exact (depth_le_prop _ _ _ _ _ Hb Hyin)].
  - simpl. destruct (Nat.eqb_spec a b); [done|].
    unfold isArray, kind_of, deref. rewrite Hha, Hhb. simpl.
    destruct (sort (map fst ps)); simpl; by eexists.
  - exists false. simpl. destruct (Nat.eqb_spec a b); [done|].
    unfold isArray, kind_of, deref. rewrite Hha, Hhb. done.
  - simpl. destruct (Nat.eqb_spec a b); [done|].
    unfold isArray, kind_of, deref. rewrite Hha, Hhb. simpl.
    destruct (sort (map fst qs)); simpl; by eexists.
  - exists true. simpl. destruct (Nat.eqb_spec a b); [done|].
    unfold isArray, kind_of, deref. rewrite Hha, Hhb. done.
Qed.

(** ** Well-formed heaps *)

Lemma existsb_eqb_elem k (ks : list string) : existsb (String.eqb k) ks = true ↔ k ∈ ks.
Proof.
  rewrite existsb_exists. split.
  - intros (x & Hx & ->%String.eqb_eq). by apply list_elem_of_In.
  - intros Hk. exists k. split; [by apply list_elem_of_In|apply String.eqb_refl].
Qed.

Lemma distinct_keys_NoDup ks : distinct_keys ks = true → NoDup ks.
Proof.
  induction ks as [|k ks IH]; simpl; [constructor|].
  intros [Hk Hks]%andb_true_iff. constructor; [|by apply IH].
  intros Hin%existsb_eqb_elem. by rewrite Hin in Hk.
Qed.

Lemma heap_ok_lookup h a n : heap_ok h = true → h !! a = Some n → node_ok h n = true.
Proof.
  unfold heap_ok. rewrite forallb_forall. intros H Ha. apply H.
  apply list_elem_of_In. by eapply list_elem_of_lookup_2.
Qed.

Lemma all_pass_true_iff {A} (l : list A) (f : A → result bool) :
  all_pass l f = Ok true ↔ ∀ x, x ∈ l → f x = Ok true.
Proof.
  split; [|apply all_pass_true].
  induction l as [|x l IH]; simpl; [by intros _ y ?%elem_of_nil|].
  destruct (f x) as [[]|] eqn:Hx; try done.
  intros Hl y [->|Hy]%elem_of_cons; [done|by apply IH].
Qed.

(** Two lists of distinct keys are sorted to the same list exactly when they
    hold the same keys. *)
Lemma equals_keys_sort l1 l2 :
  NoDup l1 → NoDup l2 →
  equals_keys (sort l1) (sort l2) = true ↔ ∀ k, k ∈ l1 ↔ k ∈ l2.
Proof.
  intros Hnd1 Hnd2. rewrite equals_keys_true. split.
  - intros Heq k. by rewrite <- (elem_of_sort k l1), Heq, elem_of_sort.
  - intros Hsame. apply sort_permutation. by apply NoDup_Permutation.
Qed.

Lemma equals_plain_values n h pa ps pb qs key :
  key ∈ map fst ps → key ∈ map fst qs →
  (let* x := get_kind (Plain pa ps) key in
   let* y := get_kind (Plain pb qs) key in
   equals n h x y)
  = equals n h (default VUndefined (assoc key ps)) (default VUndefined (assoc key qs)).
Proof.
  intros (x & Hx & _)%assoc_elem (y & Hy & _)%assoc_elem.
  cbn [get_kind]. by rewrite Hx, Hy.
Qed.

(** C4: [equals] compares plain objects independently of the order in which
    their keys were inserted, and arrays index by index.  On two distinct
    plain objects it answers true exactly when the two have the same keys
    and [equals] answers true on the two values of every key; it answers
    false when the keys differ, whatever the values; when the keys agree it
    compares the values key by key in the ascending order of the keys; and
    an object with the same properties inserted in another order gets the
    same answer.  On two distinct arrays it answers true exactly when the
    lengths agree and [equals] answers true on the two elements of every
    index; it answers false when the lengths differ, and otherwise compares
    the elements in the order of the indices.  On the examples,
    [equals({a:1,b:2}, {b:2,a:1})] and [equals([1,2,3], [1,2,3])] are true
    and [equals([1,2], [2,1])] is false. *)
Theorem equals_key_order_irrelevant n h a b pa ps fa pb qs fb :
  h !! a = Some (Node (Plain pa ps) fa) →
  h !! b = Some (Node (Plain pb qs) fb) → a ≠ b →
  NoDup (map fst ps) → NoDup (map fst qs) →
  (equals (S n) h (VRef a) (VRef b) = Ok true
   ↔ (∀ k, k ∈ map fst ps ↔ k ∈ map fst qs)
     ∧ ∀ k x y, assoc k ps = Some x → assoc k qs = Some y →
         equals n h x y = Ok true)
  ∧ (¬ (∀ k, k ∈ map fst ps ↔ k ∈ map fst qs) →
     equals (S n) h (VRef a) (VRef b) = Ok false)
  ∧ ((∀ k, k ∈ map fst ps ↔ k ∈ map fst qs) →
     ∃ ks, Sorted key_le ks ∧ Permutation ks (map fst ps)
       ∧ equals (S n) h (VRef a) (VRef b)
         = all_pass ks (λ k, equals n h (default VUndefined (assoc k ps))
                                        (default VUndefined (assoc k qs))))
  ∧ (∀ a' pa' ps' fa',
       h !! a' = Some (Node (Plain pa' ps') fa') → Permutation ps ps' → a' ≠ b →
       equals (S n) h (VRef a') (VRef b) = equals (S n) h (VRef a) (VRef b))
  ∧ (∀ c d xs ys fc fd,
       h !! c = Some (Node (Array xs) fc) → h !! d = Some (Node (Array ys) fd) →
       c ≠ d →
       (equals (S n) h (VRef c) (VRef d) = Ok true
        ↔ length xs = length ys
          ∧ ∀ i x y, xs !! i = Some x → ys !! i = Some y → equals n h x y = Ok true)
       ∧ (length xs ≠ length ys → equals (S n) h (VRef c) (VRef d) = Ok false)
       ∧ (length xs = length ys →
          equals (S n) h (VRef c) (VRef d)
          = all_pass (seq 0 (length xs))
              (λ i, equals n h (default VUndefined (xs !! i))
                               (default VUndefined (ys !! i)))))
  ∧ equals 2 equals_heap (VRef 2) (VRef 3) = Ok true
  ∧ equals 2 equals_heap (VRef 4) (VRef 5) = Ok false
  ∧ equals 2 equals_heap (VRef 0) (VRef 1) = Ok true.
Proof.
  intros Ha Hb Hab Hnda Hndb.
  pose proof (equals_plains n h a b pa ps pb qs fa fb Ha Hb Hab) as Heq.
  pose proof (equals_keys_sort _ _ Hnda Hndb) as Hkeys.
  assert ((∀ k, k ∈ map fst ps ↔ k ∈ map fst qs) →
          equals (S n) h (VRef a) (VRef b)
          = all_pass (sort (map fst ps))
              (λ k, equals n h (default VUndefined (assoc k ps))
                               (default VUndefined (assoc k qs)))) as Hsame.
  { intros Hsame. rewrite Heq, (proj2 Hkeys Hsame). cbn [negb].
    apply all_pass_ext. intros key Hkey. apply (proj1 (elem_of_sort _ _)) in Hkey.
    apply equals_plain_values; [done|by apply Hsame]. }
  split; [|split; [|split; [|split; [|split; [|by vm_compute]]]]].
  - split.
    + intros Htrue. rewrite Heq in Htrue.
      destruct (equals_keys _ _) eqn:Hk; [|done].
      pose proof (proj1 Hkeys eq_refl) as Hk'. clear Hk. rename Hk' into Hk.
      split; [done|]. intros k x y Hx Hy.
      rewrite <- Heq, (Hsame Hk) in Htrue.
      pose proof (proj1 (all_pass_true_iff _ _) Htrue k) as Hone.
      cbv beta in Hone. rewrite Hx, Hy in Hone. apply Hone, elem_of_sort.
      apply assoc_Some_elem in Hx. by apply (list_elem_of_fmap_2 fst) in Hx.
    + intros [Hk Hvals]. rewrite (Hsame Hk). apply all_pass_true.
      intros key Hkey. apply (proj1 (elem_of_sort _ _)) in Hkey.
      destruct (assoc_elem key ps Hkey) as (x & Hx & _).
      destruct (assoc_elem key qs (proj1 (Hk key) Hkey)) as (y & Hy & _).
      rewrite Hx, Hy. by apply (Hvals key).
  - intros Hdiff. rewrite Heq. destruct (equals_keys _ _) eqn:Hk; [|done].
    destruct Hdiff. by apply Hkeys.
  - intros Hk. exists (sort (map fst ps)).
    split; [apply sort_Sorted|]. split; [apply sort_perm|by apply Hsame].
  - intros a' pa' ps' fa' Ha' Hp Hab'.
    rewrite Heq, (equals_plains n h a' b pa' ps' pb qs fa' fb Ha' Hb Hab').
    rewrite <- (sort_permutation (map fst ps) (map fst ps')) by (by apply Permutation_map).
    destruct (equals_keys _ _); simpl; [|done].
    apply all_pass_ext. intros key Hkey.
    apply elem_of_sort, assoc_elem in Hkey as (x & Hx & _).
    rewrite <- (assoc_permutation key ps ps') by done. by rewrite Hx.
  - intros c d xs ys fc fd Hc Hd Hcd.
    rewrite (equals_arrays n h c d xs ys fc fd Hc Hd Hcd).
    destruct (Nat.eqb_spec (length xs) (length ys)) as [Hlen|Hlen]; cbn [negb].
    + split; [|split; [done|done]]. rewrite all_pass_true_iff. split.
      * intros Hall. split; [done|]. intros i x y Hx Hy.
        specialize (Hall i). cbv beta in Hall. rewrite Hx, Hy in Hall. apply Hall.
        apply list_elem_of_In, in_seq. apply lookup_lt_Some in Hx. lia.
      * intros [_ Hall] i Hi. apply list_elem_of_In, in_seq in Hi.
        destruct (lookup_lt_is_Some_2 xs i) as [x Hx]; [lia|].
        destruct (lookup_lt_is_Some_2 ys i) as [y Hy]; [lia|].
        rewrite Hx, Hy. by apply (Hall i).
    + split; [|split; [done|done]]. split; [done|]. by intros [? _].
Qed.

Lemma equals_key_order_irrelevant_witness :
  equals 2 equals_heap (VRef 2) (VRef 3) = Ok true
  ↔ (∀ k, k ∈ ["a"; "b"] ↔ k ∈ ["b"; "a"])
    ∧ ∀ k x y,
        assoc k [("a", num 1); ("b", num 2)] = Some x →
        assoc k [("b", num 2); ("a", num 1)] = Some y →
        equals 1 equals_heap x y = Ok true.
Proof.
  refine (proj1 (equals_key_order_irrelevant 1 equals_heap 2 3 true
    [("a", num 1); ("b", num 2)] false true [("b", num 2); ("a", num 1)] false
    eq_refl eq_refl _ _ _)).
  - lia.
  - by apply distinct_keys_NoDup.
  - by apply distinct_keys_NoDup.
Defined.

(** C9: [equals] is symmetric: on acyclic values [equals(a, b)] and
    [equals(b, a)] both return, and return the same result. *)
Theorem equals_symmetric n h a b fuel :
  depth_le n h a = true → depth_le n h b = true → n < fuel →
  ∃ r, equals fuel h a b = Ok r ∧ equals fuel h b a = Ok r.
Proof.
  intros Ha Hb Hn. destruct (equals_total n h a b Ha Hb) as [r Hr].
  exists r. rewrite <- (equals_sym fuel h a b).
  split; apply (equals_fuel (S n)); done || lia.
Qed.

Lemma equals_symmetric_witness :
  ∃ r, equals 2 equals_heap (VRef 2) (VRef 3) = Ok r
       ∧ equals 2 equals_heap (VRef 3) (VRef 2) = Ok r.
Proof.
  apply (equals_symmetric 1 equals_heap (VRef 2) (VRef 3) 2); [reflexivity|reflexivity|lia].
Defined.

(** * [cloneAndChange] *)

Lemma cloneAndChange_changer_ext fuel changer changer' obj st :
  (∀ v, loose_null v = false → changer v = changer' v) →
  _cloneAndChange fuel changer obj st = _cloneAndChange fuel changer' obj st.
Proof.
  intros Hch. revert obj st. induction fuel as [|n IH]; intros obj st; [done|].
  simpl. destruct (loose_null obj) eqn:Hnull; [done|].
  rewrite <- (Hch obj Hnull).
  destruct (negb _); [done|].
  destruct (Is.array _ obj) as [[]|]; simpl; [| |done].
  - destruct (array_length _ obj) as [len|]; simpl; [|done].
    f_equal. apply forEach_ext. intros s i _.
    destruct (get_index _ obj i); simpl; [|done]. by rewrite IH.
  - destruct (Is.objectLiteral _ obj) as [[]|]; simpl; [|done..].
    destruct (includes _ obj); [done|].
    destruct (object_keys _ obj) as [keys|]; simpl; [|done].
    f_equal. apply forEach_ext. intros s i _.
    destruct (hasOwnProperty _ obj i) as [[]|]; simpl; [|done..].
    destruct (get _ obj i); simpl; [|done]. by rewrite IH.
Qed.



Lemma extends_calls_refl s : extends_calls (calls s) s.
Proof. exists []. rewrite app_nil_r. split; [done|constructor]. Qed.

Lemma extends_calls_same base s : calls s = base → extends_calls base s.
Proof. intros <-. apply extends_calls_refl. Qed.

Lemma extends_calls_trans base s s' :
  extends_calls base s → extends_calls (calls s) s' → extends_calls base s'.
Proof.
  intros (new & Hs & Hnew) (new' & Hs' & Hnew'). exists (new ++ new').
  rewrite Hs', Hs, <- app_assoc. split; [done|]. by apply Forall_app.
Qed.

Lemma cloneAndChange_calls fuel changer obj st st' r :
  _cloneAndChange fuel changer obj st = Ok (st', r) →
  extends_calls (calls st) st'.
Proof.
  revert obj st st' r. induction fuel as [|n IH]; intros obj st st' r H; [done|].
  simpl in H. destruct (loose_null obj) eqn:Hnull.
  { injection H as <- <-. apply extends_calls_refl. }
  assert (∀ s, extends_calls (calls (record_call obj st)) s →
               extends_calls (calls st) s) as Hstep.
  { intros s (new & Hs & Hnew). exists (obj :: new). simpl in Hs.
    rewrite Hs, <- app_assoc. split; [done|]. by constructor. }
  destruct (negb _).
  { injection H as <- <-. apply Hstep, extends_calls_refl. }
  inv_bind H. destruct x.
  - inv_bind H. inv_bind H.
    injection H as <- <-. apply Hstep.
    revert Hm1. apply (forEach_invariant (extends_calls (calls (record_call obj st)))).
    + intros s i s' _ Hs Hbody.
      inv_bind Hbody. inv_bind Hbody. destruct x2 as [s1 c].
      inv_bind Hbody. injection Hbody as <-.
      apply IH in Hm2. by apply (extends_calls_trans _ s).
    + by apply extends_calls_same.
  - inv_bind H. destruct x.
    + destruct (includes _ obj); [done|].
      inv_bind H. inv_bind H.
      injection H as <- <-. apply Hstep.
      revert Hm2. apply (forEach_invariant (extends_calls (calls (record_call obj st)))).
      * intros s i s' _ Hs Hbody.
        inv_bind Hbody. destruct x1; [|by injection Hbody as <-].
        inv_bind Hbody. inv_bind Hbody. destruct x2 as [s1 c].
        inv_bind Hbody. injection Hbody as <-.
        apply IH in Hm4. by apply (extends_calls_trans _ s).
      * by apply extends_calls_same.
    + injection H as <- <-. apply Hstep, extends_calls_refl.
Qed.

(** ** The mutable stack against the traversal path *)

Lemma prefix_insert_ge {A} (l1 l2 : list A) i x :
  l1 `prefix_of` l2 → length l1 ≤ i → l1 `prefix_of` <[i:=x]> l2.
Proof.
  intros [k ->] Hi. exists (<[i - length l1:=x]> k).
  by rewrite insert_app_r_alt.
Qed.

Lemma prefix_snoc {A} (l : list A) x : l `prefix_of` l ++ [x].
Proof. by exists [x]. Qed.

Lemma node_ok_elem h elems fz x :
  node_ok h (Node (Array elems) fz) = true → x ∈ elems → value_ok h x = true.
Proof.
  unfold node_ok. simpl. rewrite forallb_forall. intros H Hx. apply H.
  by apply list_elem_of_In.
Qed.

Lemma node_ok_prop h p props fz k v :
  node_ok h (Node (Plain p props) fz) = true → (k, v) ∈ props →
  inherited k = false ∧ value_ok h v = true ∧ assoc k props = Some v.
Proof.
  unfold node_ok. simpl. intros [Hall Hnd]%andb_true_iff Hin.
  rewrite forallb_forall in Hall. apply list_elem_of_In in Hin as Hin'.
  apply Hall in Hin'. simpl in Hin'. apply andb_true_iff in Hin' as [Hk Hv].
  split; [by apply negb_true_iff|]. split; [done|].
  apply assoc_Some; [|done]. by apply distinct_keys_NoDup.
Qed.

Lemma inherited_proto k : inherited k = false → String.eqb k "__proto__" = false.
Proof.
  intros H. destruct (String.eqb_spec k "__proto__") as [->|]; [|done].
  by vm_compute in H.
Qed.

(** ** Closed heaps *)

Lemma heap_closed_lookup h a n :
  heap_closed h = true → h !! a = Some n → node_closed h n = true.
Proof.
  unfold heap_closed. rewrite forallb_forall. intros H Ha. apply H.
  apply list_elem_of_In. by eapply list_elem_of_lookup_2.
Qed.

Lemma node_closed_elem h elems fz x :
  node_closed h (Node (Array elems) fz) = true → x ∈ elems → value_ok h x = true.
Proof.
  unfold node_closed. simpl. rewrite forallb_forall. intros H Hx. apply H.
  by apply list_elem_of_In.
Qed.

Lemma node_closed_prop h p props fz k v :
  node_closed h (Node (Plain p props) fz) = true → (k, v) ∈ props →
  value_ok h v = true ∧ assoc k props = Some v.
Proof.
  unfold node_closed. simpl. intros [Hall Hnd]%andb_true_iff Hin.
  rewrite forallb_forall in Hall. apply list_elem_of_In in Hin as Hin'.
  apply Hall in Hin'. simpl in Hin'. split; [done|].
  apply assoc_Some; [|done]. by apply distinct_keys_NoDup.
Qed.

Lemma node_closed_keys h p props fz :
  node_closed h (Node (Plain p props) fz) = true → NoDup (map fst props).
Proof.
  unfold node_closed. simpl. intros [_ Hnd]%andb_true_iff. by apply distinct_keys_NoDup.
Qed.

Lemma node_ok_closed h n : node_ok h n = true → node_closed h n = true.
Proof.
  unfold node_ok, node_closed. destruct (shape n) as [elems|p props|src]; try done.
  intros [Hall ->]%andb_true_iff. rewrite andb_true_r.
  rewrite forallb_forall in Hall. apply forallb_forall. intros x Hx.
  apply Hall in Hx. by apply andb_true_iff in Hx as [_ ?].
Qed.

Lemma heap_ok_closed h : heap_ok h = true → heap_closed h = true.
Proof.
  unfold heap_ok, heap_closed. rewrite !forallb_forall. intros H n Hn.
  by apply node_ok_closed, H.
Qed.

(** A key of a node that owns no property [__proto__] is another key. *)
Lemma own_key_other k key :
  has_own k "__proto__" = false → key ∈ own_keys k →
  String.eqb key "__proto__" = false.
Proof.
  intros Hown Hkey. apply String.eqb_neq. intros ->.
  destruct k as [elems|p props|src]; simpl in *.
  - apply list_elem_of_fmap in Hkey as (i & Hi & _).
    pose proof (index_of_key_of_index i) as Hidx. rewrite <- Hi in Hidx.
    by vm_compute in Hidx.
  - apply assoc_elem in Hkey as (v & Hv & _). by rewrite Hv in Hown.
  - by apply elem_of_nil in Hkey.
Qed.

Lemma heap_ok_no_proto_key h n : heap_ok h = true → ∀ v, no_proto_key n h v = true.
Proof.
  intros Hok. induction n as [|n IH]; intros v; destruct v as [| | | | |a]; try done.
  simpl. destruct (h !! a) as [nd|] eqn:Ha; [|done].
  apply andb_true_iff. split; [|apply forallb_forall; intros x _; apply IH].
  apply negb_true_iff. pose proof (heap_ok_lookup _ _ _ Hok Ha) as Hnok.
  destruct nd as [[elems|p props|src] fz]; try done. simpl.
  destruct (assoc "__proto__" props) as [v|] eqn:Hv; [|done].
  apply assoc_Some_elem in Hv.
  destruct (node_ok_prop h p props fz _ v Hnok Hv) as (Hinh & _). by vm_compute in Hinh.
Qed.



Lemma cloneAndChange_unfold n changer obj st :
  _cloneAndChange (S n) changer obj st =
    if loose_null obj then Ok (st, obj)
    else
      let st := record_call obj st in
      if negb (String.eqb (typeof (changer obj)) "undefined")
      then Ok (st, changer obj)
      else
        let* isarr := Is.array (c_heap st) obj in
        if isarr then
          let h1 := fst (alloc (c_heap st) (Array [])) in
          let r1 := snd (alloc (c_heap st) (Array [])) in
          let* len := array_length h1 obj in
          let* st' := forEach (seq 0 len) (array_body n changer obj r1)
                        (with_heap h1 st) in
          Ok (st', r1)
        else
          let* isobj := Is.objectLiteral (c_heap st) obj in
          if isobj then
            if includes (encounteredObjects st) obj
            then Err (Throw recursive_error)
            else
              let st := push_encountered obj st in
              let h2 := fst (alloc (c_heap st) (Plain true [])) in
              let r2 := snd (alloc (c_heap st) (Plain true [])) in
              let* keys := object_keys h2 obj in
              let* st' := forEach keys (plain_body n changer obj r2)
                            (with_heap h2 st) in
              Ok (pop_encountered st', r2)
          else Ok (st, obj).
Proof. reflexivity. Qed.

Section simulation.
Variable h : heap.
Variable changer : value → value.
Hypothesis Hok : heap_ok h = true.

Section step.
Variable n : nat.
Hypothesis IH : ∀ obj st,
  value_ok h obj = true → h `prefix_of` c_heap st →
  sim_outcome (revisits n h changer (encounteredObjects st) obj)
              (_cloneAndChange n changer obj st) st.

(** The loop over the elements of the array at [a], which fills [r1]. *)
Lemma array_loop a elems fz (r1 : nat) enc h0 :
  h !! a = Some (Node (Array elems) fz) → h `prefix_of` h0 → length h0 ≤ r1 →
  ∀ rest i0 s,
    drop i0 elems = rest →
    encounteredObjects s = enc → h0 `prefix_of` c_heap s →
    (∃ partial, c_heap s !! r1 = Some (Node (Array partial) false)) →
    loop_outcome (any_hit rest (revisits n h changer enc))
      (forEach (seq i0 (length rest)) (array_body n changer (VRef a) (VRef r1)) s)
      enc h0.
Proof.
  intros Ha Hh0 Hr1 rest.
  induction rest as [|x rest IHrest]; intros i0 s Hdrop Henc Hpre Hr.
  { simpl. by exists s. }
  unfold loop_outcome, array_body in *.
  assert (elems !! i0 = Some x) as Hx.
  { rewrite <- (Nat.add_0_r i0), <- lookup_drop, Hdrop. done. }
  assert (drop (S i0) elems = rest) as Hdrop'.
  { replace (S i0) with (i0 + 1) by lia. by rewrite <- drop_drop, Hdrop. }
  assert (h `prefix_of` c_heap s) as Hhs by (by etrans).
  cbn [length seq forEach any_hit].
  unfold get_index, deref.
  rewrite (prefix_lookup_Some _ _ _ _ Ha Hhs). simpl. rewrite Hx. simpl.
  assert (value_ok h x = true) as Hvx.
  { eapply node_ok_elem; [by eapply heap_ok_lookup|]. by eapply list_elem_of_lookup_2. }
  pose proof (IH x s Hvx Hhs) as Hsim. rewrite Henc in Hsim.
  destruct (revisits n h changer enc x) as [[]|e]; simpl in Hsim.
  - by rewrite Hsim.
  - destruct Hsim as (s1 & c & -> & Henc1 & Hpre1). simpl.
    destruct Hr as [partial Hr].
    unfold deref. rewrite (prefix_lookup_Some _ _ _ _ Hr Hpre1). simpl.
    apply IHrest; simpl.
    + done.
    + congruence.
    + apply prefix_insert_ge; [by etrans|done].
    + eexists. apply list_lookup_insert_eq.
      apply lookup_lt_Some in Hr. apply prefix_length in Hpre1. lia.
  - by rewrite Hsim.
Qed.

(** The loop over the keys of the plain object at [a], which fills [r2]. *)
Lemma plain_loop a p props fz (r2 : nat) enc h0 :
  h !! a = Some (Node (Plain p props) fz) → h `prefix_of` h0 → length h0 ≤ r2 →
  ∀ rest s,
    (∀ kv, kv ∈ rest → kv ∈ props) →
    encounteredObjects s = enc → h0 `prefix_of` c_heap s →
    (∃ q, c_heap s !! r2 = Some (Node (Plain true q) false)) →
    loop_outcome (any_hit (map snd rest) (revisits n h changer enc))
      (forEach (map fst rest) (plain_body n changer (VRef a) (VRef r2)) s)
      enc h0.
Proof.
  intros Ha Hh0 Hr2 rest.
  induction rest as [|[k v] rest IHrest]; intros s Hsub Henc Hpre Hr.
  { simpl. by exists s. }
  unfold loop_outcome, plain_body in *.
  assert (h `prefix_of` c_heap s) as Hhs by (by etrans).
  destruct (node_ok_prop h p props fz k v) as (Hk & Hvx & Hassoc);
    [by eapply heap_ok_lookup|apply Hsub; by left|].
  cbn [map fst snd forEach any_hit].
  unfold hasOwnProperty, get, deref.
  rewrite (prefix_lookup_Some _ _ _ _ Ha Hhs). simpl. rewrite Hassoc. simpl.
  pose proof (IH v s Hvx Hhs) as Hsim. rewrite Henc in Hsim.
  destruct (revisits n h changer enc v) as [[]|e]; simpl in Hsim.
  - by rewrite Hsim.
  - destruct Hsim as (s1 & c & -> & Henc1 & Hpre1). simpl.
    destruct Hr as [q Hr].
    unfold deref. rewrite (prefix_lookup_Some _ _ _ _ Hr Hpre1). simpl.
    unfold plain_set. rewrite (inherited_proto k Hk). simpl.
    apply IHrest; simpl.
    + intros kv Hkv. apply Hsub. by right.
    + congruence.
    + apply prefix_insert_ge; [by etrans|done].
    + eexists. apply list_lookup_insert_eq.
      apply lookup_lt_Some in Hr. apply prefix_length in Hpre1. lia.
  - by rewrite Hsim.
Qed.
End step.

Lemma includes_app l v w : includes (l ++ [w]) v = includes l v || strict_eq v w.
Proof. unfold includes. rewrite existsb_app. simpl. by rewrite orb_false_r. Qed.

(** The implementation with its shared stack and the traversal with its
    path argument have the same outcome. *)
Lemma cloneAndChange_sim fuel obj st :
  value_ok h obj = true → h `prefix_of` c_heap st →
  sim_outcome (revisits fuel h changer (encounteredObjects st) obj)
              (_cloneAndChange fuel changer obj st) st.
Proof.
  revert obj st. induction fuel as [|n IH]; intros obj st Hobj Hpre; [done|].
  rewrite cloneAndChange_unfold. cbn [revisits].
  destruct (loose_null obj) eqn:Hnull.
  { simpl. by exists st, obj. }
  destruct (negb _).
  { simpl. by eexists _, _. }
  destruct obj as [| |x|x|x|a]; try done; try by (simpl; eexists _, _).
  simpl in Hobj. apply Nat.ltb_lt in Hobj.
  destruct (lookup_lt_is_Some_2 h a Hobj) as [[k fz] Ha].
  pose proof (prefix_lookup_Some _ _ _ _ Ha Hpre) as Ha'.
  unfold Is.array, Is.objectLiteral, isArray, kind_of, deref.
  cbn [c_heap record_call encounteredObjects].
  rewrite Ha, Ha'. cbn [bind shape].
  destruct k as [elems|p props|src]; cbn [bind].
  - unfold array_length, deref. cbn [alloc fst snd].
    rewrite (lookup_app_l_Some _ _ _ _ Ha'). cbn [bind shape].
    pose proof (array_loop n IH a elems fz (length (c_heap st)) (encounteredObjects st)
      (c_heap st) Ha Hpre (Nat.le_refl _) elems 0
      (with_heap (c_heap st ++ [Node (Array []) false]) (record_call (VRef a) st))
      eq_refl eq_refl (prefix_snoc _ _)) as Hloop.
    unfold loop_outcome in Hloop.
    destruct (any_hit elems _) as [[]|e]; simpl.
    + rewrite Hloop; [done|]. eexists. by apply list_lookup_middle.
    + destruct Hloop as (s' & -> & Henc & Hpre').
      { eexists. by apply list_lookup_middle. }
      simpl. by eexists _, _.
    + rewrite Hloop; [done|]. eexists. by apply list_lookup_middle.
  - destruct (includes (encounteredObjects st) (VRef a)) eqn:Hinc; [done|].
    unfold object_keys, deref. cbn [alloc fst snd push_encountered c_heap].
    rewrite (lookup_app_l_Some _ _ _ _ Ha'). cbn [bind shape own_keys].
    pose proof (plain_loop n IH a p props fz (length (c_heap st))
      (encounteredObjects st ++ [VRef a])
      (c_heap st) Ha Hpre (Nat.le_refl _) props
      (with_heap (c_heap st ++ [Node (Plain true []) false])
         (push_encountered (VRef a) (record_call (VRef a) st)))
      (λ _ H, H) eq_refl (prefix_snoc _ _)) as Hloop.
    unfold loop_outcome in Hloop.
    destruct (any_hit (map snd props) _) as [[]|e]; simpl.
    + rewrite Hloop; [done|]. eexists. by apply list_lookup_middle.
    + destruct Hloop as (s' & -> & Henc & Hpre').
      { eexists. by apply list_lookup_middle. }
      simpl. eexists _, _. split; [done|]. split; [|done].
      unfold pop_encountered. cbn [encounteredObjects]. rewrite Henc.
      apply removelast_last.
    + rewrite Hloop; [done|]. eexists. by apply list_lookup_middle.
  - by eexists _, _.
Qed.
End simulation.

(** ** Acyclic values are cloned without error *)

Lemma depth_le_S n h v : depth_le n h v = true → depth_le (S n) h v = true.
Proof.
  revert v. induction n as [|n IH]; intros v; [by destruct v|].
  destruct v as [| |x|x|x|a]; try done.
  cbn [depth_le]. destruct (h !! a) as [[k fz]|]; [|done].
  destruct k as [elems|p props|src]; cbn [shape]; [| |done].
  - rewrite !forallb_forall. intros H x Hx. apply IH, H, Hx.
  - rewrite !forallb_forall. intros H x Hx. apply IH, H, Hx.
Qed.

Lemma depth_le_child n h a nd c :
  depth_le (S n) h (VRef a) = true → h !! a = Some nd → c ∈ children (shape nd) →
  depth_le n h c = true.
Proof.
  simpl. intros H Ha Hc. rewrite Ha in H.
  destruct (shape nd) as [elems|p props|src]; simpl in Hc.
  - by eapply depth_le_elem.
  - apply list_elem_of_fmap in Hc as ([k v] & -> & Hkv). by eapply depth_le_prop.
  - by apply elem_of_nil in Hc.
Qed.

Lemma deeper_child h a nd c :
  h !! a = Some nd → c ∈ children (shape nd) → deeper h (VRef a) c.
Proof.
  intros Ha Hc [|m] Hm; [done|]. exists m. split; [done|].
  by eapply depth_le_child.
Qed.

Lemma deeper_trans h p v c : deeper h p v → deeper h v c → deeper h p c.
Proof.
  intros Hpv Hvc m Hm. destruct (Hpv m Hm) as (m' & -> & Hv).
  exists m'. split; [done|]. destruct (Hvc m' Hv) as (m'' & -> & Hc).
  by apply depth_le_S.
Qed.

Lemma deeper_irrefl n h v : depth_le n h v = true → ¬ deeper h v v.
Proof.
  intros Hn Hd. induction n as [|n IH].
  - by destruct (Hd 0 Hn) as (m' & ? & _).
  - destruct (Hd (S n) Hn) as (m' & [= <-] & Hm'). by apply IH.
Qed.

Lemma any_hit_false {A} (l : list A) (test : A → result bool) :
  (∀ x, x ∈ l → test x = Ok false) → any_hit l test = Ok false.
Proof.
  induction l as [|x l IH]; intros H; simpl; [done|].
  rewrite H by left. apply IH. intros y Hy. apply H. by right.
Qed.

Lemma includes_elem l v : includes l v = true → v ∈ l.
Proof.
  unfold includes. rewrite existsb_exists. intros (x & Hx & ->%strict_eq_true).
  by apply list_elem_of_In.
Qed.

Lemma revisits_acyclic fuel h changer n path obj :
  depth_le n h obj = true → n < fuel →
  (∀ p, p ∈ path → deeper h p obj) →
  revisits fuel h changer path obj = Ok false.
Proof.
  revert n path obj. induction fuel as [|f IH]; intros n path obj Hn Hf Hpath; [lia|].
  cbn [revisits]. destruct (loose_null obj); [done|]. destruct (negb _); [done|].
  destruct obj as [| |x|x|x|a]; try done.
  destruct n as [|n]; [done|].
  unfold kind_of, deref. destruct (h !! a) as [nd|] eqn:Ha; [|by simpl in Hn; rewrite Ha in Hn].
  cbn [bind].
  assert (∀ c, c ∈ children (shape nd) →
     depth_le n h c = true ∧ ∀ p, p ∈ path ++ [VRef a] → deeper h p c) as Hchild.
  { intros c Hc. split; [by eapply depth_le_child|].
    intros p [Hp| ->%list_elem_of_singleton]%elem_of_app.
    - eapply deeper_trans; [by apply Hpath|]. by eapply deeper_child.
    - by eapply deeper_child. }
  destruct (shape nd) as [elems|pr props|src]; [| |done].
  - apply any_hit_false. intros x Hx. destruct (Hchild x Hx) as [Hd Hp].
    apply (IH n); [done|lia|]. intros p Hp'. apply Hp, elem_of_app. by left.
  - destruct (includes path (VRef a)) eqn:Hinc.
    { apply includes_elem, Hpath in Hinc. by apply deeper_irrefl in Hn. }
    apply any_hit_false. intros x Hx. destruct (Hchild x Hx) as [Hd Hp].
    apply (IH n); [done|lia|done].
Qed.

Lemma any_hit_err {A} (l : list A) (test : A → result bool) e :
  any_hit l test = Err e → ∃ x, x ∈ l ∧ test x = Err e.
Proof.
  induction l as [|x l IH]; simpl; [done|].
  destruct (test x) as [[]|e'] eqn:Hx; [done| |].
  - intros (y & Hy & He)%IH. exists y. split; [by right|done].
  - intros [= ->]. exists x. split; [by left|done].
Qed.

(** The traversal itself never throws. *)
Lemma revisits_err fuel h changer path obj e :
  revisits fuel h changer path obj = Err e → e = OutOfFuel ∨ e = Dangling.
Proof.
  revert path obj. induction fuel as [|f IH]; intros path obj; [intros [= <-]; by left|].
  cbn [revisits]. destruct (loose_null obj); [done|]. destruct (negb _); [done|].
  destruct obj as [| |x|x|x|a]; try done.
  unfold kind_of, deref. destruct (h !! a) as [nd|]; [|intros [= <-]; by right].
  cbn [bind]. destruct (shape nd) as [elems|pr props|src]; [| |done].
  - intros (x & _ & Hx)%any_hit_err. by eapply IH.
  - destruct (includes path (VRef a)); [done|].
    intros (x & _ & Hx)%any_hit_err. by eapply IH.
Qed.

(** C2: [cloneAndChange] throws "Cannot clone recursive data-structure"
    exactly when the traversal meets a plain object that is already on the
    current traversal path; the stack is empty again when the call returns;
    an acyclic value, however its nodes are shared, is cloned without the
    error: an object shared by two siblings and two equal objects do not
    raise it, an object that contains itself does. *)
Theorem cloneAndChange_throws_iff_revisit fuel h changer obj :
  heap_ok h = true → value_ok h obj = true →
  (cloneAndChange fuel h obj changer = Err (Throw recursive_error)
     ↔ revisits fuel h changer [] obj = Ok true)
  ∧ ((∃ st r, cloneAndChange fuel h obj changer = Ok (st, r))
     ↔ revisits fuel h changer [] obj = Ok false)
  ∧ (∀ st r, cloneAndChange fuel h obj changer = Ok (st, r) →
             encounteredObjects st = [])
  ∧ (∀ n, depth_le n h obj = true → n < fuel →
          ∃ st r, cloneAndChange fuel h obj changer = Ok (st, r))
  ∧ (∃ st r, cloneAndChange 3 shared_heap (VRef 0) no_change = Ok (st, r))
  ∧ (∃ st r, cloneAndChange 3 twins_heap (VRef 0) no_change = Ok (st, r))
  ∧ cloneAndChange 3 self_heap (VRef 0) no_change = Err (Throw recursive_error).
Proof.
  intros Hok Hobj.
  pose proof (cloneAndChange_sim h changer Hok fuel obj (CState h [] []) Hobj
                (reflexivity _)) as Hsim.
  unfold cloneAndChange. cbn [encounteredObjects] in Hsim.
  assert (∀ n, depth_le n h obj = true → n < fuel →
            revisits fuel h changer [] obj = Ok false) as Hacyclic.
  { intros n Hn Hf. apply (revisits_acyclic fuel h changer n); [done..|].
    by intros p ?%elem_of_nil. }
  destruct (revisits fuel h changer [] obj) as [[]|e] eqn:Hrev; simpl in Hsim.
  - rewrite Hsim. repeat split; try done.
    + by intros (st & r & [=]).
    + intros n Hn Hf. by specialize (Hacyclic n Hn Hf).
    + by vm_compute; eexists _, _.
    + by vm_compute; eexists _, _.
  - destruct Hsim as (st' & r & -> & Henc & _). repeat split; try done.
    + by eexists _, _.
    + by intros st r' [= <- _].
    + intros n _ _. by eexists _, _.
    + by vm_compute; eexists _, _.
    + by vm_compute; eexists _, _.
  - rewrite Hsim. apply revisits_err in Hrev. repeat split; try done.
    + intros [= ->]. by destruct Hrev.
    + by intros (st & r & [=]).
    + intros n Hn Hf. by specialize (Hacyclic n Hn Hf).
    + by vm_compute; eexists _, _.
    + by vm_compute; eexists _, _.
Qed.

Lemma cloneAndChange_throws_iff_revisit_witness :
  cloneAndChange 3 self_heap (VRef 0) no_change = Err (Throw recursive_error)
    ↔ revisits 3 self_heap no_change [] (VRef 0) = Ok true.
Proof.
  exact (proj1 (cloneAndChange_throws_iff_revisit 3 self_heap no_change (VRef 0)
                  eq_refl eq_refl)).
Defined.

(** C10: [cloneAndChange] returns a [null] or [undefined] input unchanged
    and does not apply [changer] to it, at the root or below: the call
    changes neither the heap nor the list of calls, every argument [changer]
    has been applied to is defined, and the result does not depend on what
    [changer] would answer on [null] and [undefined]. *)
Theorem cloneAndChange_skips_null fuel changer changer' obj st :
  (∀ v, loose_null v = false → changer v = changer' v) →
  _cloneAndChange fuel changer obj st = _cloneAndChange fuel changer' obj st
  ∧ (loose_null obj = true → _cloneAndChange (S fuel) changer obj st = Ok (st, obj))
  ∧ (∀ st' r, _cloneAndChange fuel changer obj st = Ok (st', r) →
              ∃ new, calls st' = calls st ++ new
                     ∧ Forall (λ v, loose_null v = false) new).
Proof.
  intros Hch. split; [by apply cloneAndChange_changer_ext|]. split.
  - intros Hnull. simpl. by rewrite Hnull.
  - intros st' r. apply cloneAndChange_calls.
Qed.

Lemma cloneAndChange_skips_null_witness :
  _cloneAndChange 3 no_change (VRef 0) (CState nulls_heap [] [])
  = _cloneAndChange 3 only_null (VRef 0) (CState nulls_heap [] []).
Proof.
  refine (proj1 (cloneAndChange_skips_null 3 no_change only_null (VRef 0)
                   (CState nulls_heap [] []) _)).
  intros v Hv. unfold only_null. by rewrite Hv.
Defined.

(** * [createKeywordMatcher] *)

Lemma assoc_assoc_set {V} w k (v : V) ps :
  assoc w (assoc_set k v ps) = if String.eqb w k then Some v else assoc w ps.
Proof.
  induction ps as [|[k' v'] ps IH]; simpl.
  - done.
  - destruct (String.eqb_spec k k') as [->|Hkk']; simpl.
    + by destruct (String.eqb w k').
    + destruct (String.eqb_spec w k') as [->|]; [|done].
      by destruct (String.eqb_spec k' k) as [->|].
Qed.

Lemma elem_of_cons_ne (w k : string) l : w ≠ k → w ∈ k :: l ↔ w ∈ l.
Proof. intros Hw. rewrite elem_of_cons. tauto. Qed.

(** The hash owns exactly the words of the array, [__proto__] excepted: the
    assignment [result["__proto__"] = true] reaches the inherited setter,
    which ignores it. *)
Lemma arrayToHash_assoc array :
  ∃ hash, arrayToHash array = Ok hash
    ∧ ∀ w, assoc w hash =
           if bool_decide (w ∈ array) && negb (String.eqb w "__proto__")
           then Some (VBool true) else None.
Proof.
  unfold arrayToHash.
  assert (∀ acc, assoc "__proto__" acc = None → ∃ hash,
    forEach array (λ result key, plain_set true result key (VBool true)) acc = Ok hash
    ∧ ∀ w, assoc w hash =
           if bool_decide (w ∈ array) && negb (String.eqb w "__proto__")
           then Some (VBool true) else assoc w acc) as H.
  { induction array as [|k array IH]; intros acc Hacc.
    - exists acc. split; [done|]. intros w.
      by rewrite bool_decide_eq_false_2 by apply not_elem_of_nil.
    - simpl. unfold plain_set at 1. cbn [andb has_own].
      destruct (String.eqb_spec k "__proto__") as [->|Hk].
      + rewrite Hacc. cbn [negb andb bind].
        destruct (IH acc Hacc) as (hash & -> & Hhash).
        exists hash. split; [done|]. intros w. rewrite Hhash.
        destruct (String.eqb_spec w "__proto__") as [->|Hw].
        * by rewrite !andb_false_r.
        * rewrite !andb_true_r.
          rewrite (bool_decide_ext (w ∈ "__proto__" :: array) (w ∈ array)); [done|].
          by apply elem_of_cons_ne.
      + cbn [andb bind].
        destruct (IH (assoc_set k (VBool true) acc)) as (hash & -> & Hhash).
        { rewrite assoc_assoc_set. destruct (String.eqb_spec "__proto__" k); [|done].
          by subst. }
        exists hash. split; [done|]. intros w. rewrite Hhash, assoc_assoc_set.
        destruct (String.eqb_spec w k) as [->|Hw].
        * rewrite (bool_decide_eq_true_2 (k ∈ k :: array)) by left.
          apply String.eqb_neq in Hk. rewrite Hk. simpl.
          by destruct (bool_decide (k ∈ array)).
        * rewrite (bool_decide_ext (w ∈ k :: array) (w ∈ array)); [done|].
          by apply elem_of_cons_ne. }
  specialize (H [] eq_refl). destruct H as (hash & Hhash & Hw). exists hash. split; [done|].
  intros w. rewrite Hw. simpl. by destruct (_ && _).
Qed.

Lemma array_map_toLowerCase arr :
  forallb ascii_only arr = true → array_map toLowerCase arr = Ok (map lowered arr).
Proof.
  induction arr as [|x arr IH]; [done|]. simpl. intros [Hx Harr]%andb_true_iff.
  unfold toLowerCase at 1. rewrite Hx. cbn [bind]. by rewrite IH.
Qed.

(** On a word list that contains neither [hasOwnProperty] nor [__proto__]
    (after the conversion to lower case, when it applies), the predicate
    that [createKeywordMatcher] returns is the membership test, on the word
    as it is or converted to lower case. *)
Lemma keyword_match_member (arr : list string) (caseInsensitive : bool) word :
  let arr' := if caseInsensitive then map lowered arr else arr in
  let word' := if caseInsensitive then lowered word else word in
  (caseInsensitive = true → ascii_only word = true ∧ forallb ascii_only arr = true) →
  "hasOwnProperty" ∉ arr' → "__proto__" ∉ arr' →
  keyword_match arr caseInsensitive word = Ok (bool_decide (word' ∈ arr')).
Proof.
  intros arr' word' Hascii Hhas Hproto. unfold keyword_match, createKeywordMatcher.
  assert ((if caseInsensitive then array_map toLowerCase arr else Ok arr) = Ok arr')
    as ->.
  { unfold arr'. destruct caseInsensitive; [|done].
    apply array_map_toLowerCase. by apply Hascii. }
  cbn [bind]. destruct (arrayToHash_assoc arr') as (hash & -> & Hhash). cbn [bind].
  assert ((if hash_defined hash word' then hash_hasOwnProperty hash word' else Ok false)
          = Ok (bool_decide (word' ∈ arr'))) as Hres.
  { unfold hash_defined, hash_hasOwnProperty. rewrite !Hhash.
    rewrite (bool_decide_eq_false_2 _ Hhas). cbn [andb has_own]. rewrite Hhash.
    destruct (String.eqb_spec word' "__proto__") as [Hw|Hw].
    - rewrite andb_false_r. rewrite Hw, (bool_decide_eq_false_2 _ Hproto). done.
    - rewrite andb_true_r. destruct (bool_decide (word' ∈ arr')); simpl; [done|].
      by destruct (inherited word'). }
  unfold word' in Hres. destruct caseInsensitive; cbn [bind]; [|done].
  unfold toLowerCase. destruct (Hascii eq_refl) as [-> _]. by cbn [bind].
Qed.

(** C8: the predicate returned by [createKeywordMatcher] answers
    [createKeywordMatcher(['if','else'], true)("IF")] with true and
    [createKeywordMatcher(['if','else'], false)("IF")] with false, but it is
    not the membership test on every word list: on [['hasOwnProperty']] the
    call [hash.hasOwnProperty(word)] finds the entry of the hash instead of
    the inherited method and throws, and on [['__proto__']] the hash has no
    entry for the word and the answer is false. *)
Theorem createKeywordMatcher_own_names :
  keyword_match ["if"; "else"] true "IF" = Ok true
  ∧ keyword_match ["if"; "else"] false "IF" = Ok false
  ∧ keyword_match ["hasOwnProperty"] false "hasOwnProperty"
    = Err (Throw not_a_function_error)
  ∧ keyword_match ["__proto__"] false "__proto__" = Ok false.
Proof. by vm_compute. Qed.

(** * [distinct] *)

Lemma assoc_set_fresh {V} k (v : V) ps :
  assoc k ps = None → assoc_set k v ps = ps ++ [(k, v)].
Proof.
  induction ps as [|[k' v'] ps IH]; simpl; [done|].
  destruct (String.eqb k k'); [done|]. intros H. by rewrite IH.
Qed.

Lemma assoc_filter_None {V} k (f : string * V → bool) ps :
  assoc k ps = None → assoc k (List.filter f ps) = None.
Proof.
  induction ps as [|[k' v'] ps IH]; simpl; [done|].
  destruct (String.eqb k k') eqn:Hk; [done|]. intros H.
  destruct (f (k', v')); simpl; [rewrite Hk|]; by apply IH.
Qed.

Lemma assoc_filter {V} k (f : string * V → bool) ps :
  NoDup (map fst ps) →
  assoc k (List.filter f ps) =
    match assoc k ps with
    | Some v => if f (k, v) then Some v else None
    | None => None
    end.
Proof.
  induction ps as [|[k' v'] ps IH]; simpl; [done|].
  intros [Hk' Hnd]%NoDup_cons.
  destruct (String.eqb_spec k k') as [->|Hk].
  - destruct (f (k', v')); simpl; [by rewrite String.eqb_refl|].
    apply assoc_filter_None. by apply assoc_None.
  - destruct (f (k', v')); simpl; [|by apply IH].
    apply String.eqb_neq in Hk. rewrite Hk. by apply IH.
Qed.


Section distinct_loop.
Variables (n : nat) (h : heap) (b t : nat).
Variables (pb pt fb ft : bool) (bps tps : list (string * value)).
Hypothesis Hok : heap_ok h = true.
Hypothesis Hb : h !! b = Some (Node (Plain pb bps) fb).
Hypothesis Ht : h !! t = Some (Node (Plain pt tps) ft).
Hypothesis Hdb : depth_le (S n) h (VRef b) = true.
Hypothesis Hdt : depth_le (S n) h (VRef t) = true.

Lemma distinct_loop r :
  length h ≤ r →
  ∀ rest done hi,
    tps = done ++ rest → h `prefix_of` hi →
    hi !! r = Some (Node (Plain false (List.filter (differs (S n) h bps) done)) false) →
    ∃ h', forEach (map fst rest) (distinct_body (S n) (VRef b) (VRef t) (VRef r)) hi = Ok h'
          ∧ h `prefix_of` h'
          ∧ h' !! r = Some (Node (Plain false (List.filter (differs (S n) h bps) tps)) false).
Proof.
  intros Hr rest. induction rest as [|[k tv] rest IH]; intros done hi Htps Hpre Hres.
  { exists hi. rewrite app_nil_r in Htps. by subst. }
  cbn [map fst forEach]. unfold distinct_body at 1.
  destruct (node_ok_prop h pt tps ft k tv) as (Hk & Hvx & Hassoc).
  { by eapply heap_ok_lookup. }
  { rewrite Htps. apply elem_of_app. right. by left. }
  unfold get, deref.
  rewrite (prefix_lookup_Some _ _ _ _ Hb Hpre), (prefix_lookup_Some _ _ _ _ Ht Hpre).
  cbn [bind shape get_kind]. rewrite Hassoc.
  assert ((match assoc k bps with
           | Some v => Ok v
           | None => if pb && inherited k then Err Unsupported else Ok VUndefined
           end) = Ok (default VUndefined (assoc k bps))) as ->.
  { destruct (assoc k bps); [done|]. by rewrite Hk, andb_false_r. }
  cbn [bind].
  assert (depth_le n h tv = true) as Hdtv.
  { eapply depth_le_child; [exact Hdt|exact Ht|].
    simpl. apply list_elem_of_fmap. exists (k, tv). split; [done|].
    by apply assoc_Some_elem. }
  assert (depth_le n h (default VUndefined (assoc k bps)) = true) as Hdbv.
  { destruct (assoc k bps) as [bv|] eqn:Hbv; simpl; [|by destruct n].
    eapply depth_le_child; [exact Hdb|exact Hb|].
    simpl. apply list_elem_of_fmap. exists (k, bv). split; [done|].
    by apply assoc_Some_elem. }
  destruct (equals_total n h _ _ Hdbv Hdtv) as [same Hsame].
  rewrite (equals_mono _ _ _ _ _ _ _ (Nat.le_refl _) Hpre Hsame). cbn [bind].
  assert (List.filter (differs (S n) h bps) (done ++ [(k, tv)])
          = List.filter (differs (S n) h bps) done ++ (if negb same then [(k, tv)] else []))
    as Hfilter.
  { rewrite List.filter_app. cbn [List.filter]. unfold differs at 2.
    cbn [fst snd]. rewrite Hsame. by destruct same. }
  assert (tps = (done ++ [(k, tv)]) ++ rest) as Htps'.
  { by rewrite <- app_assoc. }
  destruct same; cbn [negb].
  - apply (IH (done ++ [(k, tv)])); [done..|].
    by rewrite Hfilter, app_nil_r.
  - unfold set, deref. rewrite Hres. cbn [bind frozen shape set_kind plain_set andb].
    rewrite assoc_set_fresh.
    + apply (IH (done ++ [(k, tv)])); [done| |].
      * by apply prefix_insert_ge.
      * rewrite Hfilter. apply list_lookup_insert_eq. by apply lookup_lt_Some in Hres.
    + apply assoc_filter_None, assoc_None.
      assert (NoDup (map fst tps)) as Hnd.
      { apply distinct_keys_NoDup. pose proof (heap_ok_lookup _ _ _ Hok Ht) as Hn.
        unfold node_ok in Hn. simpl in Hn. by apply andb_true_iff in Hn as [_ ?]. }
      rewrite Htps, map_app in Hnd. apply NoDup_app in Hnd as (_ & Hnd & _).
      intros Hin. apply (Hnd k Hin). by left.
Qed.
End distinct_loop.

(** C6: [distinct(base, target)] returns a new mapping that has a key
    exactly when the key is a key of [target] whose value is not deep-equal
    to the value of [base] at the key, and has the whole value of [target]
    there; when either input is absent the new mapping is empty; and
    [distinct({a:1,b:2}, {a:1,b:3,c:4})] is [{b:3, c:4}]. *)
Theorem distinct_keys_differ n h b t pb bps fb pt tps ft :
  heap_ok h = true →
  h !! b = Some (Node (Plain pb bps) fb) →
  h !! t = Some (Node (Plain pt tps) ft) →
  depth_le (S n) h (VRef b) = true → depth_le (S n) h (VRef t) = true →
  (∃ h' res,
      distinct (S n) h (VRef b) (VRef t) = Ok (h', VRef (length h))
      ∧ h `prefix_of` h'
      ∧ h' !! length h = Some (Node (Plain false res) false)
      ∧ ∀ k, assoc k res =
              match assoc k tps with
              | Some tv =>
                  match equals (S n) h (default VUndefined (assoc k bps)) tv with
                  | Ok false => Some tv
                  | _ => None
                  end
              | None => None
              end)
  ∧ (∀ fuel base target,
       loose_null base || loose_null target = true →
       distinct fuel h base target
       = Ok (h ++ [Node (Plain false []) false], VRef (length h)))
  ∧ distinct 1 distinct_heap (VRef 0) (VRef 1)
    = Ok (distinct_heap ++ [Node (Plain false [("b", num 3); ("c", num 4)]) false],
          VRef 2).
Proof.
  intros Hok Hb Ht Hdb Hdt. split; [|split; [|by vm_compute]].
  - destruct (distinct_loop n h b t pb pt fb ft bps tps Hok Hb Ht Hdb Hdt (length h)
                (Nat.le_refl _) tps [] (h ++ [Node (Plain false []) false]) eq_refl
                (prefix_snoc _ _)) as (h' & Hloop & Hpre & Hres).
    { by apply list_lookup_middle. }
    exists h', (List.filter (differs (S n) h bps) tps).
    unfold distinct. cbn [alloc truthy negb orb].
    unfold object_keys, deref. rewrite (lookup_app_l_Some _ _ _ _ Ht). cbn [bind shape own_keys].
    fold (distinct_body (S n) (VRef b) (VRef t) (VRef (length h))).
    rewrite Hloop. cbn [bind]. repeat split; try done.
    intros k. rewrite assoc_filter.
    + destruct (assoc k tps) as [tv|]; [|done]. unfold differs. cbn [fst snd].
      by destruct (equals (S n) h (default VUndefined (assoc k bps)) tv) as [[]|].
    + apply distinct_keys_NoDup. pose proof (heap_ok_lookup _ _ _ Hok Ht) as Hn.
      unfold node_ok in Hn. simpl in Hn. by apply andb_true_iff in Hn as [_ ?].
  - intros fuel base target Hnull. unfold distinct. cbn [alloc].
    assert (negb (truthy base) || negb (truthy target) = true) as ->; [|done].
    destruct base, target; simpl in *; rewrite ?orb_true_r; done.
Qed.

Lemma distinct_keys_differ_witness :
  ∃ h' res,
    distinct 1 distinct_heap (VRef 0) (VRef 1) = Ok (h', VRef 2)
    ∧ h' !! 2 = Some (Node (Plain false res) false)
    ∧ assoc "b" res = Some (num 3) ∧ assoc "a" res = None.
Proof.
  destruct (proj1 (distinct_keys_differ 0 distinct_heap 0 1 true
    [("a", num 1); ("b", num 2)] false true
    [("a", num 1); ("b", num 3); ("c", num 4)] false
    eq_refl eq_refl eq_refl eq_refl eq_refl)) as (h' & res & H & _ & Hres & Hk).
  exists h', res. split; [exact H|]. split; [exact Hres|].
  split; [exact (Hk "b")|exact (Hk "a")].
Defined.

(** * [deepFreeze] *)

(** What one visit of the [for ... in] loop does with a property value. *)
Lemma visit_value h a nd key c stack :
  h !! a = Some nd → has_own (shape nd) key = true → get_kind (shape nd) key = Ok c →
  value_ok h c = true →
  deepFreeze_visit h (VRef a) stack key
  = Ok (if needs_freeze h c then stack ++ [c] else stack).
Proof.
  intros Ha Hown Hget Hc. unfold deepFreeze_visit, hasOwnProperty, get, deref.
  rewrite Ha. cbn [bind]. rewrite Hown, Hget. cbn [bind].
  destruct c as [| |x|x|x|b]; try done.
  simpl in Hc. apply Nat.ltb_lt in Hc.
  destruct (lookup_lt_is_Some_2 h b Hc) as [ndb Hb].
  simpl. unfold deref. rewrite Hb. simpl. by destruct (frozen ndb).
Qed.

Lemma filter_snoc {A} (f : A → bool) l x :
  List.filter f (l ++ [x]) = List.filter f l ++ (if f x then [x] else []).
Proof. by rewrite List.filter_app. Qed.

Lemma visit_array h a elems fz :
  h !! a = Some (Node (Array elems) fz) → forallb (value_ok h) elems = true →
  ∀ rest i0 stack,
    drop i0 elems = rest →
    forEach (map key_of_index (seq i0 (length rest))) (deepFreeze_visit h (VRef a)) stack
    = Ok (stack ++ List.filter (needs_freeze h) rest).
Proof.
  intros Ha Hok rest. induction rest as [|x rest IH]; intros i0 stack Hdrop.
  { simpl. by rewrite app_nil_r. }
  assert (elems !! i0 = Some x) as Hx.
  { rewrite <- (Nat.add_0_r i0), <- lookup_drop, Hdrop. done. }
  assert (drop (S i0) elems = rest) as Hdrop'.
  { replace (S i0) with (i0 + 1) by lia. by rewrite <- drop_drop, Hdrop. }
  cbn [length seq map forEach].
  rewrite (visit_value h a _ _ x stack Ha).
  - cbn [bind]. rewrite (IH (S i0) _ Hdrop'). f_equal. simpl.
    destruct (needs_freeze h x); [|done]. by rewrite <- app_assoc.
  - simpl. rewrite index_of_key_of_index. apply Nat.ltb_lt.
    by apply lookup_lt_Some in Hx.
  - simpl. by rewrite index_of_key_of_index, Hx.
  - eapply (node_ok_elem h elems fz); [done|]. by eapply list_elem_of_lookup_2.
Qed.

Lemma visit_plain h a p props fz :
  h !! a = Some (Node (Plain p props) fz) →
  node_ok h (Node (Plain p props) fz) = true →
  ∀ rest stack,
    (∀ kv, kv ∈ rest → kv ∈ props) →
    forEach (map fst rest) (deepFreeze_visit h (VRef a)) stack
    = Ok (stack ++ List.filter (needs_freeze h) (map snd rest)).
Proof.
  intros Ha Hok rest. induction rest as [|[k v] rest IH]; intros stack Hsub.
  { simpl. by rewrite app_nil_r. }
  destruct (node_ok_prop h p props fz k v Hok) as (Hk & Hv & Hassoc).
  { apply Hsub. by left. }
  cbn [map fst snd forEach].
  rewrite (visit_value h a _ _ v stack Ha).
  - cbn [bind]. rewrite IH by (intros kv Hkv; apply Hsub; by right). f_equal. simpl.
    destruct (needs_freeze h v); [|done]. by rewrite <- app_assoc.
  - simpl. by rewrite Hassoc.
  - simpl. by rewrite Hassoc.
  - done.
Qed.

(** The queue after the visit of all the properties of a node. *)
Lemma visit_node h a nd stack :
  h !! a = Some nd → node_ok h nd = true →
  forEach (own_keys (shape nd)) (deepFreeze_visit h (VRef a)) stack
  = Ok (stack ++ List.filter (needs_freeze h) (children (shape nd))).
Proof.
  intros Ha Hok. destruct nd as [[elems|p props|src] fz]; cbn [shape own_keys children].
  - by apply (visit_array h a elems fz Ha Hok elems 0).
  - by apply (visit_plain h a p props fz Ha Hok props).
  - simpl. by rewrite app_nil_r.
Qed.

Lemma forallb_pointwise {A} (f g : A → bool) l :
  (∀ x, f x = g x) → forallb f l = forallb g l.
Proof. intros Hfg. induction l as [|x l IH]; simpl; [done|]. by rewrite Hfg, IH. Qed.

Lemma value_ok_length h h' v : length h' = length h → value_ok h' v = value_ok h v.
Proof. intros Hlen. destruct v; simpl; by rewrite ?Hlen. Qed.

Lemma node_ok_same h h' k fz fz' :
  length h' = length h → node_ok h' (Node k fz') = node_ok h (Node k fz).
Proof.
  intros Hlen. unfold node_ok. cbn [shape]. destruct k as [elems|p props|src]; [| |done].
  - apply forallb_pointwise. intros v. by apply value_ok_length.
  - f_equal. apply forallb_pointwise. intros [k v]. simpl. f_equal. by apply value_ok_length.
Qed.

(** One iteration of the loop: the node is frozen, and those of its
    properties that are objects not yet frozen are enqueued. *)
Lemma deepFreeze_loop_step fuel h a nd q :
  h !! a = Some nd → node_ok h nd = true →
  deepFreeze_loop (S fuel) h (VRef a :: q)
  = deepFreeze_loop fuel (<[a:=Node (shape nd) true]> h)
      (q ++ List.filter (needs_freeze (<[a:=Node (shape nd) true]> h))
                        (children (shape nd))).
Proof.
  intros Ha Hok. cbn [deepFreeze_loop]. unfold freeze, deref. rewrite Ha. cbn [bind].
  assert (<[a:=Node (shape nd) true]> h !! a = Some (Node (shape nd) true)) as Ha'.
  { apply list_lookup_insert_eq. by apply lookup_lt_Some in Ha. }
  unfold object_keys, deref. rewrite Ha'. cbn [bind].
  rewrite (visit_node _ a (Node (shape nd) true) q Ha'); [done|].
  destruct nd as [k fz]. rewrite <- Hok. apply node_ok_same. apply length_insert.
Qed.

Lemma unfrozen_count_freeze h a nd :
  h !! a = Some nd → frozen nd = false →
  unfrozen_count (<[a:=Node (shape nd) true]> h) < unfrozen_count h.
Proof.
  intros Ha Hfz. unfold unfrozen_count.
  rewrite <- (take_drop_middle h a nd Ha) at 2.
  rewrite insert_take_drop by (by apply lookup_lt_Some in Ha).
  rewrite !List.filter_app, !length_app. simpl. rewrite Hfz. simpl. lia.
Qed.

Lemma stale_count_app h q q' :
  stale_count h (q ++ q') = stale_count h q + stale_count h q'.
Proof. unfold stale_count. by rewrite List.filter_app, length_app. Qed.

Lemma stale_count_fresh h l : stale_count h (List.filter (needs_freeze h) l) = 0.
Proof.
  unfold stale_count. induction l as [|x l IH]; simpl; [done|].
  destruct (needs_freeze h x) eqn:Hx; simpl; [|done]. by rewrite Hx.
Qed.

Lemma is_frozen_insert h a k b :
  a < length h → is_frozen (<[a:=Node k true]> h) b = is_frozen h b || (b =? a).
Proof.
  intros Ha. unfold is_frozen. destruct (Nat.eqb_spec b a) as [->|Hne].
  - rewrite list_lookup_insert_eq by done. by rewrite orb_true_r.
  - rewrite list_lookup_insert_ne by done. by rewrite orb_false_r.
Qed.

Lemma needs_freeze_ref h c : needs_freeze h c = true → ∃ x, c = VRef x ∧ x < length h
  ∧ is_frozen h x = false.
Proof.
  destruct c as [| |y|y|y|x]; try done. simpl. unfold is_frozen.
  destruct (h !! x) as [nd|] eqn:Hx; [|done]. intros Hfz%negb_true_iff.
  exists x. split; [done|]. split; [by apply lookup_lt_Some in Hx|by rewrite Hx].
Qed.

Lemma elem_of_filter_bool {A} (f : A → bool) l x :
  x ∈ List.filter f l ↔ x ∈ l ∧ f x = true.
Proof. rewrite !list_elem_of_In. apply filter_In. Qed.

Section freeze_invariant.
Variable h : heap.
Variable r : addr.
Hypothesis Hok : heap_ok h = true.

Lemma more_frozen_is_frozen hc a :
  more_frozen h hc → is_frozen h a = true → is_frozen hc a = true.
Proof.
  intros [_ Hmf]. unfold is_frozen. destruct (h !! a) as [nd|] eqn:Ha; [|done].
  intros Hfz. destruct (Hmf a nd Ha) as (fz & -> & Himp). by apply Himp.
Qed.

Lemma more_frozen_node hc a nd :
  more_frozen h hc → hc !! a = Some nd →
  ∃ nd0, h !! a = Some nd0 ∧ shape nd = shape nd0 ∧ node_ok hc nd = true.
Proof.
  intros [Hlen Hmf] Ha.
  assert (a < length h) as Hlt by (rewrite <- Hlen; by apply lookup_lt_Some in Ha).
  destruct (lookup_lt_is_Some_2 h a Hlt) as [nd0 Ha0].
  destruct (Hmf a nd0 Ha0) as (fz & Ha' & _). rewrite Ha in Ha'. injection Ha' as ->.
  exists nd0. split; [done|]. split; [done|].
  destruct nd0 as [k fz0]. cbn [shape]. rewrite (node_ok_same h hc k fz0 fz Hlen).
  by eapply heap_ok_lookup.
Qed.

Lemma frz_inv_initial : r < length h → frz_inv h r h [VRef r].
Proof.
  intros Hr. split; [|split; [|split]].
  - split; [done|]. intros a [k fz] Ha. by exists fz.
  - intros v ->%list_elem_of_singleton. by exists r.
  - left. by left.
  - intros b ndb c Hb Hfz [[_ Hnot]|Hun] _.
    + destruct Hnot. by left.
    + unfold is_frozen in Hun. rewrite Hb in Hun. congruence.
Qed.

Lemma frz_inv_step hc a nd q :
  frz_inv h r hc (VRef a :: q) → hc !! a = Some nd →
  frz_inv h r (<[a:=Node (shape nd) true]> hc)
    (q ++ List.filter (needs_freeze (<[a:=Node (shape nd) true]> hc))
                      (children (shape nd))).
Proof.
  intros (Hmf & Hq & Hroot & Hclosed) Ha.
  assert (a < length hc) as Hlt by (by apply lookup_lt_Some in Ha).
  destruct (more_frozen_node hc a nd Hmf Ha) as (nd0 & Ha0 & Hshape & Hnok).
  destruct Hmf as [Hlen Hmf].
  assert (more_frozen h (<[a:=Node (shape nd) true]> hc)) as Hmf'.
  { split; [by rewrite length_insert|]. intros b ndb Hb.
    destruct (decide (b = a)) as [->|Hne].
    - rewrite list_lookup_insert_eq by done. exists true. split; [|done].
      rewrite Hb in Ha0. injection Ha0 as ->. by rewrite Hshape.
    - rewrite list_lookup_insert_ne by done. by apply Hmf. }
  split; [done|]. split; [|split].
  - intros v [Hv|Hv]%elem_of_app.
    + apply Hq. by right.
    + apply elem_of_filter_bool in Hv as [_ Hv]. apply needs_freeze_ref in Hv as (x & -> & Hx & _).
      exists x. split; [done|]. rewrite length_insert in Hx. lia.
  - rewrite is_frozen_insert by done.
    destruct Hroot as [[[= ->]|Hr]%elem_of_cons|Hr].
    + right. by rewrite Nat.eqb_refl, orb_true_r.
    + left. apply elem_of_app. by left.
    + right. by rewrite Hr.
  - intros b ndb c Hb Hfz Hexp Hc. rewrite is_frozen_insert by done.
    destruct (decide (b = a)) as [->|Hne].
    + rewrite list_lookup_insert_eq in Hb by done. injection Hb as <-. cbn [shape] in Hc.
      destruct (is_frozen hc c || (c =? a)) eqn:Hfc; [by left|right].
      apply elem_of_app. right. apply elem_of_filter_bool. split; [done|].
      assert (value_ok hc (VRef c) = true) as Hvc.
      { destruct nd as [[elems|p props|src] fz]; cbn [shape children] in Hc.
        - by eapply node_ok_elem.
        - apply list_elem_of_fmap in Hc as ([k v] & Hv & Hkv). simpl in Hv. subst v.
          by destruct (node_ok_prop hc p props fz k (VRef c) Hnok Hkv) as (_ & ? & _).
        - by apply elem_of_nil in Hc. }
      simpl in Hvc. apply Nat.ltb_lt in Hvc.
      apply orb_false_iff in Hfc as [Hfc Hca]. apply Nat.eqb_neq in Hca.
      simpl. rewrite list_lookup_insert_ne by done.
      unfold is_frozen in Hfc. destruct (lookup_lt_is_Some_2 hc c Hvc) as [ndc Hndc].
      rewrite Hndc in Hfc |- *. by rewrite Hfc.
    + rewrite list_lookup_insert_ne in Hb by done.
      destruct (Hclosed b ndb c Hb Hfz) as [Hfc|[[= ->]|Hcq]%elem_of_cons]; [|done|..].
      * destruct Hexp as [[-> Hnot]|Hun]; [left|by right]. split; [done|].
        intros [[= ->]|Hr]%elem_of_cons; [done|]. apply Hnot, elem_of_app. by left.
      * left. by rewrite Hfc.
      * left. by rewrite Nat.eqb_refl, orb_true_r.
      * right. apply elem_of_app. by left.
Qed.

(** The loop terminates: an iteration on a node that is not frozen reduces
    the number of nodes that are not frozen, and an iteration on a frozen
    node reduces the number of frozen entries of the queue, because the
    entries it adds are not frozen. *)
Lemma deepFreeze_loop_terminates U :
  ∀ S hc q,
    frz_inv h r hc q → unfrozen_count hc ≤ U → stale_count hc q ≤ S →
    ∃ fuel h', (∀ fuel', fuel ≤ fuel' → deepFreeze_loop fuel' hc q = Ok h')
               ∧ frz_inv h r h' [].
Proof.
  induction U as [U IHU] using lt_wf_ind.
  induction S as [S IHS] using lt_wf_ind.
  intros hc [|v q] Hinv HU HS.
  { exists 1, hc. split; [|done]. intros [|fuel'] Hf; [lia|done]. }
  destruct Hinv as (Hmf & Hq & Hrest).
  destruct (Hq v) as (a & -> & Ha); [by left|].
  assert (a < length hc) as Hlt by (by rewrite (proj1 Hmf)).
  destruct (lookup_lt_is_Some_2 hc a Hlt) as [nd Hnd].
  destruct (more_frozen_node hc a nd Hmf Hnd) as (nd0 & Ha0 & Hshape & Hnok).
  pose proof (frz_inv_step hc a nd q (conj Hmf (conj Hq Hrest)) Hnd) as Hinv'.
  assert (∃ fuel h', (∀ fuel', fuel ≤ fuel' →
      deepFreeze_loop fuel' (<[a:=Node (shape nd) true]> hc)
        (q ++ List.filter (needs_freeze (<[a:=Node (shape nd) true]> hc))
                          (children (shape nd))) = Ok h')
      ∧ frz_inv h r h' []) as (fuel & h' & Hrun & Hfinal).
  { destruct (frozen nd) eqn:Hfz.
    - assert (<[a:=Node (shape nd) true]> hc = hc) as Hsame.
      { apply list_insert_id. rewrite Hnd. f_equal. destruct nd. simpl in *. by subst. }
      rewrite Hsame in *.
      apply (IHS (stale_count hc q)); [|done|done|].
      + unfold stale_count in HS. simpl in HS. rewrite Hnd, Hfz in HS. simpl in HS.
        unfold stale_count. lia.
      + rewrite stale_count_app, stale_count_fresh. lia.
    - apply (IHU (unfrozen_count (<[a:=Node (shape nd) true]> hc))) with
        (S := stale_count (<[a:=Node (shape nd) true]> hc)
          (q ++ List.filter (needs_freeze (<[a:=Node (shape nd) true]> hc))
                            (children (shape nd)))); [|done..].
      pose proof (unfrozen_count_freeze hc a nd Hnd Hfz). lia. }
  exists (Datatypes.S fuel), h'. split; [|done].
  intros [|fuel'] Hf; [lia|].
  rewrite (deepFreeze_loop_step fuel' hc a nd q Hnd Hnok). apply Hrun. lia.
Qed.
End freeze_invariant.

Lemma filter_none {A} (f : A → bool) l :
  (∀ x, x ∈ l → f x = false) → List.filter f l = [].
Proof.
  induction l as [|x l IH]; intros H; simpl; [done|].
  rewrite H by left. apply IH. intros y Hy. apply H. by right.
Qed.

Lemma deepFreeze_ref fuel h a :
  deepFreeze fuel h (VRef a)
  = let* h' := deepFreeze_loop fuel h [VRef a] in Ok (h', VRef a).
Proof. reflexivity. Qed.

Lemma deepFreeze_prim fuel h v : is_ref v = false → deepFreeze fuel h v = Ok (h, v).
Proof.
  intros Hv. unfold deepFreeze.
  destruct v as [| |b|n|s|a]; simpl in *; rewrite ?orb_true_r; done.
Qed.

Lemma freeze_reach_origin h r a :
  freeze_reach h r a → a = r ∨ is_frozen h a = false.
Proof. destruct 1; auto. Qed.

(** C3, as the code has it: on every well-formed heap, cyclic or not,
    [deepFreeze] terminates and returns the reference it was given; it
    changes nothing but the frozen marks, which it only adds; every node that
    can be reached from the root through nodes that were not frozen before
    the call is frozen afterwards; and a second call on the result returns
    without changing the heap.  A value that is not an object is returned as
    it is. *)
Theorem deepFreeze_freezes_unfrozen_paths h r :
  heap_ok h = true → r < length h →
  ∃ fuel h',
    (∀ fuel', fuel ≤ fuel' → deepFreeze fuel' h (VRef r) = Ok (h', VRef r))
    ∧ more_frozen h h'
    ∧ (∀ a, freeze_reach h r a → is_frozen h' a = true)
    ∧ (∀ fuel', 2 ≤ fuel' → deepFreeze fuel' h' (VRef r) = Ok (h', VRef r))
    ∧ (∀ fuel' v, is_ref v = false → deepFreeze fuel' h v = Ok (h, v)).
Proof.
  intros Hok Hr.
  destruct (deepFreeze_loop_terminates h r Hok (unfrozen_count h)
              (stale_count h [VRef r]) h [VRef r] (frz_inv_initial h r Hr)
              (Nat.le_refl _) (Nat.le_refl _))
    as (fuel & h' & Hrun & Hmf & _ & Hroot & Hclosed).
  destruct Hroot as [Hroot|Hroot]; [by apply elem_of_nil in Hroot|].
  exists fuel, h'. split; [|split; [done|split; [|split]]].
  - intros fuel' Hf. rewrite deepFreeze_ref. by rewrite (Hrun fuel' Hf).
  - intros a Hreach.
    assert (is_frozen h' a = true ∧ (a = r ∨ is_frozen h a = false)) as [? _]; [|done].
    induction Hreach as [|a nd c Hreach [IHf IHo] Ha Hc Hun].
    { split; [done|by left]. }
    split; [|by right].
    destruct (proj2 Hmf a nd Ha) as (fz & Ha' & _).
    unfold is_frozen in IHf. rewrite Ha' in IHf. simpl in IHf. subst fz.
    destruct (Hclosed a _ c Ha' eq_refl) as [?|Hnil]; [|done|done|by apply elem_of_nil in Hnil].
    destruct IHo as [->|?]; [left|by right]. split; [done|apply not_elem_of_nil].
  - intros [|[|fuel']] Hf; [lia..|]. rewrite deepFreeze_ref.
    unfold is_frozen in Hroot. destruct (h' !! r) as [nd|] eqn:Hnd; [|done].
    destruct (more_frozen_node h Hok h' r nd Hmf Hnd) as (nd0 & _ & _ & Hnok).
    rewrite (deepFreeze_loop_step (S fuel') h' r nd [] Hnd Hnok).
    assert (<[r:=Node (shape nd) true]> h' = h') as ->.
    { apply list_insert_id. rewrite Hnd. f_equal. destruct nd. simpl in *. by subst. }
    rewrite filter_none; [done|].
    intros c Hc. destruct (needs_freeze h' c) eqn:Hneeds; [|done].
    apply needs_freeze_ref in Hneeds as (x & -> & _ & Hx).
    destruct (Hclosed r nd x Hnd Hroot) as [Hfx|Hnil]; [|done| |by apply elem_of_nil in Hnil].
    + left. split; [done|apply not_elem_of_nil].
    + congruence.
  - intros fuel' v Hv. by apply deepFreeze_prim.
Qed.

Lemma deepFreeze_freezes_unfrozen_paths_witness :
  ∃ fuel h',
    (∀ fuel', fuel ≤ fuel' → deepFreeze fuel' self_heap (VRef 0) = Ok (h', VRef 0))
    ∧ is_frozen h' 0 = true.
Proof.
  destruct (deepFreeze_freezes_unfrozen_paths self_heap 0 eq_refl (Nat.lt_0_succ 0))
    as (fuel & h' & Hrun & _ & Hreach & _).
  exists fuel, h'. split; [exact Hrun|]. apply Hreach. constructor.
Defined.

(** The claim C3 as the specification states it fails on [{p: f}] when [f]
    was frozen beforehand: [f.c] can be reached from the root and is not
    frozen by the call. *)
Lemma deepFreeze_stops_at_frozen_node :
  ∃ h', deepFreeze 3 frozen_parent_heap (VRef 0) = Ok (h', VRef 0)
        ∧ reach frozen_parent_heap 0 2
        ∧ is_frozen h' 2 = false.
Proof.
  eexists. split; [by vm_compute|]. split; [|done].
  apply (reach_step _ _ 1 (Node (Plain true [("c", VRef 2)]) true)); [|done|by left].
  apply (reach_step _ _ 0 (object [("p", VRef 1)])); [constructor|done|by left].
Qed.

(** * [safeStringify] *)

Lemma SerializeJSONProperty_unfold {St} (replacer : heap → St → string → value → result (St * value))
    n h stack st key value0 :
  SerializeJSONProperty replacer (S n) h stack st key value0 =
    let* (st, v) := replacer h st key value0 in
    match v with
    | VUndefined => Ok (st, None)
    | VNull => Ok (st, Some "null")
    | VBool b => Ok (st, Some (if b then "true" else "false"))
    | VNumber n => Ok (st, Some (number_to_json n))
    | VString s => Ok (st, Some (QuoteJSONString s))
    | VRef a =>
        let* nd := deref h a in
        if existsb (Nat.eqb a) stack then Err (Throw circular_error)
        else
          match shape nd with
          | Array elems =>
              let* (st', partial) :=
                forEach (seq 0 (length elems))
                  (json_array_body (SerializeJSONProperty replacer n h (stack ++ [a])) h v)
                  (st, []) in
              Ok (st', Some ("[" +:+ String.concat "," partial +:+ "]"))
          | k =>
              let* (st', partial) :=
                forEach (own_keys k)
                  (json_object_body (SerializeJSONProperty replacer n h (stack ++ [a])) h v)
                  (st, []) in
              Ok (st', Some ("{" +:+ String.concat "," partial +:+ "}"))
          end
    end.
Proof. reflexivity. Qed.

(** ** The replacer *)

Lemma safe_replacer_prim h seen key v :
  is_ref v = false → safe_replacer h seen key v = Ok (seen, v).
Proof. by destruct v. Qed.

Lemma safe_replacer_ref h seen key a :
  a < length h →
  safe_replacer h seen key (VRef a) =
    Ok (if container h a
        then if includes seen (VRef a) then (seen, VString "[Circular]")
             else (seen ++ [VRef a], VRef a)
        else (seen, VRef a)).
Proof.
  intros Ha. destruct (lookup_lt_is_Some_2 h a Ha) as [[k fz] Hnd].
  unfold safe_replacer, Is.objectLiteral, isArray, kind_of, deref, container.
  rewrite Hnd. simpl. destruct k; simpl; by destruct (includes seen (VRef a)).
Qed.

(** ** Counting the nodes not seen yet *)

Lemma filter_length_le {A} (f g : A → bool) l :
  (∀ x, x ∈ l → f x = true → g x = true) →
  length (List.filter f l) ≤ length (List.filter g l).
Proof.
  induction l as [|x l IH]; intros H; simpl; [done|].
  assert (length (List.filter f l) ≤ length (List.filter g l)) as Hle.
  { apply IH. intros y Hy. apply H. by right. }
  destruct (f x) eqn:Hf.
  - rewrite (H x) by (done || by left). simpl. lia.
  - destruct (g x); simpl; lia.
Qed.

Lemma filter_length_lt {A} (f g : A → bool) l x :
  (∀ y, y ∈ l → f y = true → g y = true) →
  x ∈ l → f x = false → g x = true →
  length (List.filter f l) < length (List.filter g l).
Proof.
  induction l as [|y l IH]; intros H Hx Hfx Hgx; [by apply elem_of_nil in Hx|].
  simpl. apply elem_of_cons in Hx as [<-|Hx].
  - rewrite Hfx, Hgx. simpl.
    assert (length (List.filter f l) ≤ length (List.filter g l)); [|lia].
    apply filter_length_le. intros z Hz. apply H. by right.
  - assert (length (List.filter f l) < length (List.filter g l)) as Hlt.
    { apply IH; [|done..]. intros z Hz. apply H. by right. }
    destruct (f y) eqn:Hf.
    + rewrite (H y) by (done || by left). simpl. lia.
    + destruct (g y); simpl; lia.
Qed.

Lemma includes_snoc seen v w : includes (seen ++ [w]) v = includes seen v || strict_eq v w.
Proof. unfold includes. rewrite existsb_app. simpl. by rewrite orb_false_r. Qed.

Lemma seen_grows_refl seen : seen_grows seen seen.
Proof. by intros x. Qed.

Lemma seen_grows_trans s1 s2 s3 : seen_grows s1 s2 → seen_grows s2 s3 → seen_grows s1 s3.
Proof. intros H12 H23 x Hx. by apply H23, H12. Qed.

Lemma seen_grows_snoc seen v : seen_grows seen (seen ++ [v]).
Proof. intros x Hx. by rewrite includes_snoc, Hx. Qed.

Lemma unseen_grows h seen seen' : seen_grows seen seen' → unseen h seen' ≤ unseen h seen.
Proof.
  intros Hg. apply filter_length_le. intros x _ Hx.
  apply negb_true_iff in Hx. apply negb_true_iff.
  destruct (includes seen (VRef x)) eqn:Hs; [|done]. by rewrite (Hg _ Hs) in Hx.
Qed.

Lemma unseen_snoc h seen a :
  a < length h → includes seen (VRef a) = false →
  unseen h (seen ++ [VRef a]) < unseen h seen.
Proof.
  intros Ha Hs. apply (filter_length_lt _ _ _ a).
  - intros x _ Hx. apply negb_true_iff in Hx. apply negb_true_iff.
    rewrite includes_snoc in Hx. by apply orb_false_iff in Hx as [? _].
  - apply list_elem_of_In, in_seq. lia.
  - rewrite includes_snoc. simpl. by rewrite Nat.eqb_refl, orb_true_r.
  - by rewrite Hs.
Qed.

Lemma stack_inv_grows h stack seen seen' :
  stack_inv h stack seen → seen_grows seen seen' → stack_inv h stack seen'.
Proof. intros Hinv Hg x Hx. destruct (Hinv x Hx). split; [by apply Hg|done]. Qed.

Lemma stack_inv_not_in h stack seen a :
  stack_inv h stack seen → includes seen (VRef a) = false ∨ container h a = false →
  existsb (Nat.eqb a) stack = false.
Proof.
  intros Hinv Ha. apply not_true_is_false. intros Hin.
  apply existsb_exists in Hin as (x & Hx & ->%Nat.eqb_eq).
  apply list_elem_of_In, Hinv in Hx as [Hs Hc]. destruct Ha; congruence.
Qed.

(** A container the replacer has seen is serialized as the marker. *)
Lemma serialize_seen n h stack seen key a :
  a < length h → container h a = true → includes seen (VRef a) = true →
  SerializeJSONProperty safe_replacer (S n) h stack seen key (VRef a)
  = Ok (seen, Some (QuoteJSONString "[Circular]")).
Proof.
  intros Ha Hc Hs. rewrite SerializeJSONProperty_unfold, safe_replacer_ref by done.
  by rewrite Hc, Hs.
Qed.

Section safe_total.
Variable h : heap.
Hypothesis Hok : heap_ok h = true.

Section step.
Variable n : nat.
Hypothesis IH : ∀ stack seen key v,
  value_ok h v = true → stack_inv h stack seen → unseen h seen < n →
  ∃ seen' out,
    SerializeJSONProperty safe_replacer n h stack seen key v = Ok (seen', out)
    ∧ seen_grows seen seen'.

Lemma json_array_loop a elems fz stack :
  h !! a = Some (Node (Array elems) fz) →
  ∀ rest i0 seen partial,
    drop i0 elems = rest → stack_inv h stack seen → unseen h seen < n →
    ∃ seen' partial',
      forEach (seq i0 (length rest))
        (json_array_body (SerializeJSONProperty safe_replacer n h stack) h (VRef a))
        (seen, partial) = Ok (seen', partial')
      ∧ seen_grows seen seen'.
Proof.
  intros Ha rest. induction rest as [|x rest IHrest]; intros i0 seen partial Hdrop Hinv Hn.
  { exists seen, partial. split; [done|apply seen_grows_refl]. }
  assert (elems !! i0 = Some x) as Hx.
  { rewrite <- (Nat.add_0_r i0), <- lookup_drop, Hdrop. done. }
  assert (drop (S i0) elems = rest) as Hdrop'.
  { replace (S i0) with (i0 + 1) by lia. by rewrite <- drop_drop, Hdrop. }
  assert (value_ok h x = true) as Hvx.
  { eapply node_ok_elem; [by eapply heap_ok_lookup|]. by eapply list_elem_of_lookup_2. }
  cbn [length seq forEach]. unfold json_array_body at 1, get_index, deref.
  rewrite Ha. cbn [bind shape fst snd]. rewrite Hx. cbn [default from_option id bind].
  destruct (IH stack seen (key_of_index i0) x Hvx Hinv Hn) as (s1 & out & -> & Hg).
  cbn [bind].
  destruct (IHrest (S i0) s1 (partial ++ [default "null" out]) Hdrop')
    as (seen' & partial' & Hloop & Hg').
  - by eapply stack_inv_grows.
  - pose proof (unseen_grows h seen s1 Hg). lia.
  - exists seen', partial'. split; [done|]. by eapply seen_grows_trans.
Qed.

Lemma json_object_loop a p props fz stack :
  h !! a = Some (Node (Plain p props) fz) →
  ∀ rest seen partial,
    (∀ kv, kv ∈ rest → kv ∈ props) → stack_inv h stack seen → unseen h seen < n →
    ∃ seen' partial',
      forEach (map fst rest)
        (json_object_body (SerializeJSONProperty safe_replacer n h stack) h (VRef a))
        (seen, partial) = Ok (seen', partial')
      ∧ seen_grows seen seen'
      ∧ (∀ m, m ∈ partial → m ∈ partial')
      ∧ (∀ k b, (k, VRef b) ∈ rest → includes seen (VRef b) = true →
                container h b = true →
                QuoteJSONString k +:+ ":" +:+ QuoteJSONString "[Circular]" ∈ partial').
Proof.
  intros Ha rest. induction rest as [|[k v] rest IHrest]; intros seen partial Hsub Hinv Hn.
  { exists seen, partial. split; [done|]. split; [apply seen_grows_refl|].
    split; [done|]. by intros k b ?%elem_of_nil. }
  destruct (node_ok_prop h p props fz k v) as (Hk & Hvx & Hassoc).
  { by eapply heap_ok_lookup. }
  { apply Hsub. by left. }
  cbn [map fst forEach]. unfold json_object_body at 1, get, deref.
  rewrite Ha. cbn [bind shape get_kind fst snd]. rewrite Hassoc. cbn [bind].
  destruct (IH stack seen k v Hvx Hinv Hn) as (s1 & out & Hser & Hg).
  rewrite Hser. cbn [bind].
  destruct (IHrest s1 (match out with
                       | Some str => partial ++ [QuoteJSONString k +:+ ":" +:+ str]
                       | None => partial
                       end))
    as (seen' & partial' & Hloop & Hg' & Hkeep & Hmark).
  - intros kv Hkv. apply Hsub. by right.
  - by eapply stack_inv_grows.
  - pose proof (unseen_grows h seen s1 Hg). lia.
  - exists seen', partial'. split; [done|]. split; [by eapply seen_grows_trans|].
    split.
    + intros m Hm. apply Hkeep. destruct out; [|done]. apply elem_of_app. by left.
    + intros k' b [[= <- <-]|Hin]%elem_of_cons Hs Hc.
      * replace n with (S (pred n)) in Hser by lia.
        rewrite serialize_seen in Hser; [|by apply Nat.ltb_lt|done..].
        injection Hser as <- <-. apply Hkeep, elem_of_app. right. by left.
      * by apply (Hmark k' b Hin); [apply Hg|].
Qed.
End step.

(** [safeStringify] returns a result on every well-formed heap. *)
Lemma serialize_total n :
  ∀ stack seen key v,
    value_ok h v = true → stack_inv h stack seen → unseen h seen < n →
    ∃ seen' out,
      SerializeJSONProperty safe_replacer n h stack seen key v = Ok (seen', out)
      ∧ seen_grows seen seen'.
Proof.
  induction n as [|n IH]; intros stack seen key v Hv Hinv Hn; [lia|].
  rewrite SerializeJSONProperty_unfold.
  destruct (is_ref v) eqn:Hrefv.
  2: { rewrite safe_replacer_prim by done. cbn [bind].
       destruct v as [| |b|x|s|a]; try done; eexists _, _; (split; [done|apply seen_grows_refl]). }
  destruct v as [| |b|x|s|a]; try done.
  simpl in Hv. apply Nat.ltb_lt in Hv. rewrite safe_replacer_ref by done.
  destruct (lookup_lt_is_Some_2 h a Hv) as [[k fz] Hnd].
  destruct (container h a) eqn:Hc.
  - destruct (includes seen (VRef a)) eqn:Hs.
    { cbn [bind]. eexists _, _. split; [done|apply seen_grows_refl]. }
    cbn [bind]. unfold deref. rewrite Hnd. cbn [bind shape].
    rewrite (stack_inv_not_in h stack seen a Hinv) by (by left).
    assert (stack_inv h (stack ++ [a]) (seen ++ [VRef a])) as Hinv'.
    { intros x [Hx| ->%list_elem_of_singleton]%elem_of_app.
      - destruct (Hinv x Hx). split; [by apply seen_grows_snoc|done].
      - split; [|done]. rewrite includes_snoc. simpl. by rewrite Nat.eqb_refl, orb_true_r. }
    assert (unseen h (seen ++ [VRef a]) < n) as Hn'.
    { pose proof (unseen_snoc h seen a Hv Hs). lia. }
    destruct k as [elems|p props|src].
    + destruct (json_array_loop n IH a elems fz (stack ++ [a]) Hnd elems 0
                  (seen ++ [VRef a]) [] eq_refl Hinv' Hn') as (seen' & partial' & -> & Hg).
      cbn [bind]. eexists _, _. split; [done|].
      eapply seen_grows_trans; [apply seen_grows_snoc|done].
    + destruct (json_object_loop n IH a p props fz (stack ++ [a]) Hnd props
                  (seen ++ [VRef a]) [] (λ _ H, H) Hinv' Hn')
        as (seen' & partial' & Hloop & Hg & _).
      cbn [own_keys]. rewrite Hloop.
      cbn [bind]. eexists _, _. split; [done|].
      eapply seen_grows_trans; [apply seen_grows_snoc|done].
    + unfold container in Hc. by rewrite Hnd in Hc.
  - cbn [bind]. unfold deref. rewrite Hnd. cbn [bind shape].
    rewrite (stack_inv_not_in h stack seen a Hinv) by (by right).
    destruct k as [elems|p props|src]; try (unfold container in Hc; by rewrite Hnd in Hc).
    cbn [own_keys forEach bind]. eexists _, _. split; [done|apply seen_grows_refl].
Qed.
End safe_total.

(** ** The marker in the output *)

Lemma append_cons x (a b : string) : String x a +:+ b = String x (a +:+ b).
Proof. reflexivity. Qed.

Lemma append_nil_l (a : string) : "" +:+ a = a.
Proof. reflexivity. Qed.

Lemma append_assoc (a b c : string) : (a +:+ b) +:+ c = a +:+ (b +:+ c).
Proof. induction a as [|x a IH]; [done|]. by rewrite !append_cons, IH. Qed.

Lemma append_nil_r (a : string) : a +:+ "" = a.
Proof. induction a as [|x a IH]; [done|]. by rewrite append_cons, IH. Qed.

Lemma substring_of_refl m : substring_of m m.
Proof. exists "", "". by rewrite append_nil_l, append_nil_r. Qed.

Lemma substring_of_app_l m s pre : substring_of m s → substring_of m (pre +:+ s).
Proof. intros (p & q & ->). exists (pre +:+ p), q. by rewrite append_assoc. Qed.

Lemma substring_of_app_r m s post : substring_of m s → substring_of m (s +:+ post).
Proof. intros (p & q & ->). exists p, (q +:+ post). by rewrite !append_assoc. Qed.

Lemma substring_of_trans m s t : substring_of m s → substring_of s t → substring_of m t.
Proof.
  intros (p & q & ->) (p' & q' & ->). exists (p' +:+ p), (q +:+ q').
  by rewrite !append_assoc.
Qed.

Lemma substring_of_concat m sep l : m ∈ l → substring_of m (String.concat sep l).
Proof.
  induction l as [|x l IH]; [by intros ?%elem_of_nil|].
  intros [<-|Hm]%elem_of_cons.
  - destruct l as [|y l]; [apply substring_of_refl|].
    cbn [String.concat]. apply substring_of_app_r, substring_of_refl.
  - destruct l as [|y l]; [by apply elem_of_nil in Hm|].
    cbn [String.concat]. apply (substring_of_app_l _ _ x), (substring_of_app_l _ _ sep).
    by apply IH.
Qed.

Lemma unseen_bound h seen : unseen h seen ≤ length h.
Proof.
  unfold unseen. generalize (λ x, negb (includes seen (VRef x))). intros f.
  assert (∀ l : list nat, length (List.filter f l) ≤ length l) as Hle.
  { induction l as [|x l IH]; simpl; [done|]. destruct (f x); simpl; lia. }
  specialize (Hle (seq 0 (length h))). by rewrite length_seq in Hle.
Qed.

(** C7: [safeStringify] returns on every value, circular or not, where
    [JSON.stringify] alone throws; an array or plain object that the replacer
    has seen earlier in the call is serialized as the string [[Circular]];
    and the result for a plain object that has itself as a property value
    contains [[Circular]]. *)
Theorem safeStringify_marks_circular h obj :
  heap_ok h = true → value_ok h obj = true →
  (∀ fuel, length h < fuel → ∃ r, safeStringify fuel h obj = Ok r)
  ∧ (∀ n stack seen key a,
       a < length h → container h a = true → includes seen (VRef a) = true →
       SerializeJSONProperty safe_replacer (S n) h stack seen key (VRef a)
       = Ok (seen, Some (QuoteJSONString "[Circular]")))
  ∧ (∀ a p props fz k,
       obj = VRef a → h !! a = Some (Node (Plain p props) fz) → (k, VRef a) ∈ props →
       ∃ s, safeStringify (S (length h)) h obj = Ok (VString s)
            ∧ substring_of "[Circular]" s)
  ∧ safeStringify 2 self_heap (VRef 0)
    = Ok (VString ("{" +:+ QuoteJSONString "self" +:+ ":"
                       +:+ QuoteJSONString "[Circular]" +:+ "}"))
  ∧ JSON_stringify identity_replacer 2 self_heap tt (VRef 0)
    = Err (Throw circular_error).
Proof.
  intros Hok Hobj. split; [|split; [|split; [|by vm_compute]]].
  - intros fuel Hf. unfold safeStringify, JSON_stringify.
    destruct (serialize_total h Hok fuel [] [] "" obj Hobj) as (seen' & out & -> & _).
    + by intros x ?%elem_of_nil.
    + pose proof (unseen_bound h []). lia.
    + by eexists.
  - intros n stack seen key a. apply serialize_seen.
  - intros a p props fz k -> Ha Hk.
    simpl in Hobj. apply Nat.ltb_lt in Hobj.
    assert (container h a = true) as Hc by (unfold container; by rewrite Ha).
    unfold safeStringify, JSON_stringify.
    rewrite SerializeJSONProperty_unfold, safe_replacer_ref by done.
    rewrite Hc. cbn [includes existsb bind]. unfold deref. rewrite Ha.
    cbn [bind shape existsb own_keys app].
    destruct (json_object_loop h Hok (length h) (serialize_total h Hok (length h))
                a p props fz [a] Ha props [VRef a] [] (λ _ H, H))
      as (seen' & partial' & -> & _ & _ & Hmark).
    + intros x ->%list_elem_of_singleton. split; [|done]. simpl. by rewrite Nat.eqb_refl.
    + pose proof (unseen_snoc h [] a Hobj eq_refl). pose proof (unseen_bound h []).
      simpl in *. lia.
    + cbn [bind]. eexists. split; [done|].
      apply substring_of_app_l, substring_of_app_r.
      assert (includes [VRef a] (VRef a) = true) as Hin.
      { simpl. by rewrite Nat.eqb_refl. }
      eapply substring_of_trans; [|apply substring_of_concat, (Hmark k a Hk Hin Hc)].
      apply substring_of_app_l, substring_of_app_l.
      apply (substring_of_app_l _ _ dquote), (substring_of_app_r _ "[Circular]" dquote).
      apply substring_of_refl.
Qed.

Lemma safeStringify_marks_circular_witness :
  ∃ s, safeStringify 2 self_heap (VRef 0) = Ok (VString s)
       ∧ substring_of "[Circular]" s.
Proof.
  destruct (safeStringify_marks_circular self_heap (VRef 0) eq_refl eq_refl)
    as (_ & _ & H & _).
  apply (H 0 true [("self", VRef 0)] false "self" eq_refl eq_refl).
  by left.
Defined.

(** * [deepClone] *)

Lemma deepClone_unfold n h obj :
  deepClone (S n) h obj =
    if negb (truthy obj) || negb (String.eqb (typeof obj) "object")
    then Ok (h, obj)
    else
      let* re := instanceofRegExp h obj in
      if re then Ok (h, obj)
      else
        let* arr := isArray h obj in
        let h1 := fst (alloc h (if arr then Array [] else Plain true [])) in
        let res := snd (alloc h (if arr then Array [] else Plain true [])) in
        let* keys := object_keys h1 obj in
        let* h' := forEach keys (clone_body n obj res) h1 in
        Ok (h', res).
Proof. reflexivity. Qed.

Lemma clone_body_value fuel' obj res hi key :
  clone_body fuel' obj res hi key =
    let* v := get hi obj key in
    let* (h2, c) := clone_value fuel' hi v in
    set h2 res key c.
Proof.
  unfold clone_body, clone_value. destruct (get hi obj key) as [v|]; [|done].
  cbn [bind]. by destruct (truthy v && String.eqb (typeof v) "object").
Qed.

Lemma deepClone_prim n h v : is_ref v = false → deepClone (S n) h v = Ok (h, v).
Proof.
  intros Hv. rewrite deepClone_unfold.
  destruct v as [| |b|x|s|a]; simpl in *; rewrite ?orb_true_r; done.
Qed.

(** ** The copy relation *)

Lemma copy_of_prim n h0 h' lo hi v : is_ref v = false → copy_of n h0 h' lo hi v v.
Proof. by destruct n, v. Qed.

(** A copy stays a copy when the heap changes outside the addresses of the
    copy, and when the range of addresses grows. *)
Lemma copy_of_weaken n h0 h1 h2 lo hi lo' hi' x y :
  copy_of n h0 h1 lo hi x y → lo' ≤ lo → hi ≤ hi' →
  (∀ b, lo ≤ b < hi → h2 !! b = h1 !! b) →
  copy_of n h0 h2 lo' hi' x y.
Proof.
  intros H Hlo Hhi Hframe. revert x y H.
  induction n as [|n IH]; intros x y H.
  - destruct x as [| |b|z|s|a]; try done. simpl in *.
    destruct (h0 !! a) as [[k fz]|]; [|done].
    destruct k as [xs|p ps|src]; simpl in *; [| |done].
    + by destruct H as (b & ys & _ & _ & _ & ?).
    + by destruct H as (b & qs & _ & _ & _ & ?).
  - destruct x as [| |b|z|s|a]; try done. simpl in *.
    destruct (h0 !! a) as [[k fz]|]; [|done].
    destruct k as [xs|p ps|src]; simpl in *; [| |done].
    + destruct H as (b & ys & -> & Hb & Hnode & Hall).
      exists b, ys. split; [done|]. split; [lia|]. split; [by rewrite Hframe|].
      eapply Forall2_impl; [exact Hall|]. intros x' y'. apply IH.
    + destruct H as (b & qs & -> & Hb & Hnode & Hall).
      exists b, qs. split; [done|]. split; [lia|]. split; [by rewrite Hframe|].
      eapply Forall2_impl; [exact Hall|]. intros x' y' [? ?]. split; [done|]. by apply IH.
Qed.

Lemma copy_of_prefix n h0 h1 h2 lo hi hi' x y :
  copy_of n h0 h1 lo hi x y → h1 `prefix_of` h2 → hi ≤ length h1 → hi ≤ hi' →
  copy_of n h0 h2 lo hi' x y.
Proof.
  intros H Hpre Hlen Hhi. apply (copy_of_weaken n h0 h1 h2 lo hi lo hi'); [done|lia|done|].
  intros b Hb. symmetry. apply prefix_lookup_lt; [lia|done].
Qed.

Lemma no_proto_key_child n h (xs : list value) x :
  forallb (no_proto_key n h) xs = true → x ∈ xs → no_proto_key n h x = true.
Proof.
  rewrite forallb_forall. intros H Hx. apply H. by apply list_elem_of_In.
Qed.

Section clone.
Variable h0 : heap.
Hypothesis Hok : heap_closed h0 = true.

Section step.
Variable n : nat.
Hypothesis IH : ∀ h x,
  h0 `prefix_of` h → depth_le n h0 x = true → no_proto_key n h0 x = true →
  ∃ h' y, deepClone (S n) h x = Ok (h', y)
          ∧ h `prefix_of` h'
          ∧ copy_of n h0 h' (length h) (length h') x y.

(** The copy of one property value. *)
Lemma clone_value_copy hi v :
  h0 `prefix_of` hi → depth_le n h0 v = true → no_proto_key n h0 v = true →
  ∃ h2 c, clone_value (S n) hi v = Ok (h2, c)
          ∧ hi `prefix_of` h2
          ∧ copy_of n h0 h2 (length hi) (length h2) v c.
Proof.
  intros Hpre Hd Hnp. unfold clone_value.
  destruct (truthy v && String.eqb (typeof v) "object") eqn:Hobj.
  - by apply IH.
  - exists hi, v. split; [done|]. split; [done|].
    apply copy_of_prim. by destruct v.
Qed.

Lemma clone_array_loop h a xs fz (r : nat) :
  h0 !! a = Some (Node (Array xs) fz) → forallb (depth_le n h0) xs = true →
  forallb (no_proto_key n h0) xs = true →
  h0 `prefix_of` h → length h ≤ r →
  ∀ rest i0 hi ys,
    drop i0 xs = rest → length ys = i0 → h `prefix_of` hi → r < length hi →
    hi !! r = Some (Node (Array ys) false) →
    Forall2 (copy_of n h0 hi (S r) (length hi)) (take i0 xs) ys →
    ∃ h' ys',
      forEach (map key_of_index (seq i0 (length rest)))
        (clone_body (S n) (VRef a) (VRef r)) hi = Ok h'
      ∧ h `prefix_of` h' ∧ r < length h'
      ∧ h' !! r = Some (Node (Array ys') false)
      ∧ Forall2 (copy_of n h0 h' (S r) (length h')) xs ys'.
Proof.
  intros Ha Hd Hnp Hh Hr rest.
  induction rest as [|x rest IHrest]; intros i0 hi ys Hdrop Hlen Hpre Hrlt Hres Hcopies.
  { exists hi, ys. split; [done|]. split; [done|]. split; [done|]. split; [done|].
    rewrite take_ge in Hcopies; [done|].
    apply (f_equal length) in Hdrop. rewrite length_drop in Hdrop. simpl in Hdrop. lia. }
  assert (xs !! i0 = Some x) as Hx.
  { rewrite <- (Nat.add_0_r i0), <- lookup_drop, Hdrop. done. }
  assert (drop (S i0) xs = rest) as Hdrop'.
  { replace (S i0) with (i0 + 1) by lia. by rewrite <- drop_drop, Hdrop. }
  assert (h0 `prefix_of` hi) as Hh0 by (by etrans).
  cbn [length seq map forEach]. rewrite clone_body_value.
  unfold get, deref. rewrite (prefix_lookup_Some _ _ _ _ Ha Hh0).
  cbn [bind shape get_kind]. rewrite index_of_key_of_index, Hx. cbn [default from_option id bind].
  destruct (clone_value_copy hi x Hh0) as (h2 & c & -> & Hpre2 & Hc).
  { eapply depth_le_elem; [done|]. by eapply list_elem_of_lookup_2. }
  { eapply no_proto_key_child; [done|]. by eapply list_elem_of_lookup_2. }
  cbn [bind]. unfold set, deref. rewrite (prefix_lookup_Some _ _ _ _ Hres Hpre2).
  cbn [bind frozen shape set_kind]. rewrite index_of_key_of_index.
  rewrite Hlen, Nat.ltb_irrefl, Nat.eqb_refl. cbn [bind].
  pose proof (prefix_length _ _ Hpre2) as Hlen2.
  apply (IHrest (S i0) _ (ys ++ [c])); [done| | | | |].
  - rewrite length_app. simpl. lia.
  - apply prefix_insert_ge; [by etrans; [|exact Hpre2]|done].
  - rewrite length_insert. lia.
  - apply list_lookup_insert_eq. lia.
  - rewrite (take_S_r xs i0 x Hx), length_insert. apply Forall2_app.
    + eapply Forall2_impl; [exact Hcopies|]. intros x' y' Hxy.
      apply (copy_of_weaken n h0 hi _ (S r) (length hi)); [done|lia|lia|].
      intros b Hb. rewrite list_lookup_insert_ne by lia.
      symmetry. apply prefix_lookup_lt; [lia|done].
    + constructor; [|constructor].
      apply (copy_of_weaken n h0 h2 _ (length hi) (length h2)); [done|lia|lia|].
      intros b Hb. rewrite list_lookup_insert_ne by lia. done.
Qed.

Lemma clone_plain_loop h a p props fz (r : nat) :
  h0 !! a = Some (Node (Plain p props) fz) →
  forallb (λ q, depth_le n h0 (snd q)) props = true →
  assoc "__proto__" props = None →
  forallb (no_proto_key n h0) (map snd props) = true →
  h0 `prefix_of` h → length h ≤ r →
  ∀ rest done hi qs,
    props = done ++ rest → h `prefix_of` hi → r < length hi →
    hi !! r = Some (Node (Plain true qs) false) →
    Forall2 (λ p q, fst p = fst q ∧ copy_of n h0 hi (S r) (length hi) (snd p) (snd q))
      done qs →
    ∃ h' qs',
      forEach (map fst rest) (clone_body (S n) (VRef a) (VRef r)) hi = Ok h'
      ∧ h `prefix_of` h' ∧ r < length h'
      ∧ h' !! r = Some (Node (Plain true qs') false)
      ∧ Forall2 (λ p q, fst p = fst q
                        ∧ copy_of n h0 h' (S r) (length h') (snd p) (snd q)) props qs'.
Proof.
  intros Ha Hd Hown Hnp Hh Hr rest.
  induction rest as [|[k v] rest IHrest]; intros done hi qs Hprops Hpre Hrlt Hres Hcopies.
  { exists hi, qs. rewrite app_nil_r in Hprops. by subst. }
  assert (h0 `prefix_of` hi) as Hh0 by (by etrans).
  pose proof (heap_closed_lookup _ _ _ Hok Ha) as Hnok.
  assert ((k, v) ∈ props) as Hkv.
  { rewrite Hprops. apply elem_of_app. right. by left. }
  destruct (node_closed_prop h0 p props fz k v Hnok Hkv) as (_ & Hassoc).
  assert (String.eqb k "__proto__" = false) as Hk.
  { apply (own_key_other (Plain p props)); [simpl; by rewrite Hown|].
    simpl. apply list_elem_of_fmap. by exists (k, v). }
  cbn [map fst forEach]. rewrite clone_body_value.
  unfold get, deref. rewrite (prefix_lookup_Some _ _ _ _ Ha Hh0).
  cbn [bind shape get_kind]. rewrite Hassoc. cbn [bind].
  destruct (clone_value_copy hi v Hh0) as (h2 & c & -> & Hpre2 & Hc).
  { eapply depth_le_prop; [done|]. by apply assoc_Some_elem. }
  { eapply no_proto_key_child; [done|]. apply list_elem_of_fmap. by exists (k, v). }
  cbn [bind]. unfold set, deref. rewrite (prefix_lookup_Some _ _ _ _ Hres Hpre2).
  cbn [bind frozen shape set_kind]. unfold plain_set.
  rewrite Hk. cbn [andb bind].
  assert (assoc k qs = None) as Hfresh.
  { apply assoc_None. intros Hin.
    assert (map fst qs = map fst done) as Hkeys.
    { clear -Hcopies. induction Hcopies as [|? ? ? ? [Hf _] _ IHc]; simpl; [done|].
      by rewrite Hf, IHc. }
    assert (NoDup (map fst props)) as Hnd by (by eapply node_closed_keys).
    rewrite Hprops, map_app in Hnd. apply NoDup_app in Hnd as (_ & Hnd & _).
    rewrite Hkeys in Hin. apply (Hnd k Hin). by left. }
  rewrite (assoc_set_fresh _ _ _ Hfresh).
  pose proof (prefix_length _ _ Hpre2) as Hlen2.
  apply (IHrest (done ++ [(k, v)]) _ (qs ++ [(k, c)])); [| | | |].
  - by rewrite <- app_assoc.
  - apply prefix_insert_ge; [by etrans; [|exact Hpre2]|done].
  - rewrite length_insert. lia.
  - apply list_lookup_insert_eq. lia.
  - rewrite length_insert. apply Forall2_app.
    + eapply Forall2_impl; [exact Hcopies|]. intros x' y' [Hf Hxy]. split; [done|].
      apply (copy_of_weaken n h0 hi _ (S r) (length hi)); [done|lia|lia|].
      intros b Hb. rewrite list_lookup_insert_ne by lia.
      symmetry. apply prefix_lookup_lt; [lia|done].
    + constructor; [|constructor]. split; [done|]. simpl.
      apply (copy_of_weaken n h0 h2 _ (length hi) (length h2)); [done|lia|lia|].
      intros b Hb. rewrite list_lookup_insert_ne by lia. done.
Qed.
End step.

(** [deepClone] returns a copy of every acyclic value. *)
Lemma deepClone_copy n :
  ∀ h x,
    h0 `prefix_of` h → depth_le n h0 x = true → no_proto_key n h0 x = true →
    ∃ h' y, deepClone (S n) h x = Ok (h', y)
            ∧ h `prefix_of` h'
            ∧ copy_of n h0 h' (length h) (length h') x y.
Proof.
  induction n as [|n IH]; intros h x Hpre Hd Hnp.
  { exists h, x. destruct x as [| |b|z|s|a]; try done;
      (split; [by apply deepClone_prim|]); split; try done. }
  destruct (is_ref x) eqn:Hrefx.
  2: { exists h, x. split; [by apply deepClone_prim|]. split; [done|].
       by apply copy_of_prim. }
  destruct x as [| |b|z|s|a]; try done.
  simpl in Hd, Hnp. destruct (h0 !! a) as [[k fz]|] eqn:Ha; [|done].
  cbn [shape] in Hd, Hnp. apply andb_true_iff in Hnp as [Hown%negb_true_iff Hnp].
  pose proof (prefix_lookup_Some _ _ _ _ Ha Hpre) as Ha'.
  rewrite deepClone_unfold. cbn [truthy typeof negb orb].
  replace (String.eqb "object" "object") with true by done. cbn [negb].
  unfold instanceofRegExp, isArray, kind_of, deref. rewrite Ha'. cbn [bind shape].
  destruct k as [xs|p props|src]; cbn [bind alloc fst snd].
  - unfold object_keys, deref. rewrite (lookup_app_l_Some _ _ _ _ Ha').
    cbn [bind shape own_keys].
    destruct (clone_array_loop n IH h a xs fz (length h) Ha Hd Hnp Hpre (Nat.le_refl _)
                xs 0 (h ++ [Node (Array []) false]) [] eq_refl eq_refl (prefix_snoc _ _))
      as (h' & ys' & -> & Hpre' & Hlt & Hres & Hcopies).
    { rewrite length_app. simpl. lia. }
    { by apply list_lookup_middle. }
    { constructor. }
    cbn [bind]. exists h', (VRef (length h)). split; [done|]. split; [done|].
    simpl. rewrite Ha. cbn [shape]. exists (length h), ys'.
    split; [done|]. split; [lia|]. split; [done|].
    eapply Forall2_impl; [exact Hcopies|]. intros x' y' Hxy.
    apply (copy_of_weaken n h0 h' _ (S (length h)) (length h')); [done|lia|lia|done].
  - unfold object_keys, deref. rewrite (lookup_app_l_Some _ _ _ _ Ha').
    cbn [bind shape own_keys].
    assert (assoc "__proto__" props = None) as Hnone.
    { simpl in Hown. by destruct (assoc "__proto__" props). }
    destruct (clone_plain_loop n IH h a p props fz (length h) Ha Hd Hnone Hnp Hpre
                (Nat.le_refl _)
                props [] (h ++ [Node (Plain true []) false]) [] eq_refl (prefix_snoc _ _))
      as (h' & qs' & -> & Hpre' & Hlt & Hres & Hcopies).
    { rewrite length_app. simpl. lia. }
    { by apply list_lookup_middle. }
    { constructor. }
    cbn [bind]. exists h', (VRef (length h)). split; [done|]. split; [done|].
    simpl. rewrite Ha. cbn [shape]. exists (length h), qs'.
    split; [done|]. split; [lia|]. split; [done|].
    eapply Forall2_impl; [exact Hcopies|]. intros x' y' [Hf Hxy]. split; [done|].
    apply (copy_of_weaken n h0 h' _ (S (length h)) (length h')); [done|lia|lia|done].
  - exists h, (VRef a). split; [done|]. split; [done|]. simpl. by rewrite Ha.
Qed.
End clone.

(** ** A copy is equal to the original, and made of new nodes *)

Lemma Forall2_assoc_l {V W} (R : V → W → Prop) ps qs k x :
  Forall2 (λ p q, fst p = fst q ∧ R (snd p) (snd q)) ps qs →
  assoc k ps = Some x → ∃ y, assoc k qs = Some y ∧ R x y.
Proof.
  induction 1 as [|[k1 x1] [k2 y1] ps qs [Hk HR] _ IH]; simpl in *; [done|]. subst k2.
  destruct (String.eqb k k1); [|done]. intros [= <-]. by exists y1.
Qed.

Lemma Forall2_assoc_r {V W} (R : V → W → Prop) ps qs k y :
  Forall2 (λ p q, fst p = fst q ∧ R (snd p) (snd q)) ps qs →
  assoc k qs = Some y → ∃ x, assoc k ps = Some x ∧ R x y.
Proof.
  induction 1 as [|[k1 x1] [k2 y1] ps qs [Hk HR] _ IH]; simpl in *; [done|]. subst k2.
  destruct (String.eqb k k1); [|done]. intros [= <-]. by exists x1.
Qed.

Lemma Forall2_keys {V W} (R : V → W → Prop) (ps : list (string * V)) (qs : list (string * W)) :
  Forall2 (λ p q, fst p = fst q ∧ R (snd p) (snd q)) ps qs → map fst ps = map fst qs.
Proof. induction 1 as [|? ? ? ? [Hf _] _ IH]; simpl; [done|]. by rewrite Hf, IH. Qed.

Lemma no_nan_elem n h (xs : list value) x :
  forallb (no_nan n h) xs = true → x ∈ xs → no_nan n h x = true.
Proof.
  rewrite forallb_forall. intros H Hx. apply H. by apply list_elem_of_In.
Qed.

Lemma equals_copy n h0 h' lo hi x y :
  h0 `prefix_of` h' → length h0 ≤ lo →
  copy_of n h0 h' lo hi x y → no_nan n h0 x = true →
  equals (S n) h' x y = Ok true.
Proof.
  intros Hpre Hlo. revert x y. induction n as [|n IH]; intros x y Hcopy Hnan.
  - destruct x as [| |b|z|s|a]; simpl in Hcopy; subst;
      try (simpl; by rewrite ?Bool.eqb_reflx, ?String.eqb_refl).
    { destruct z as [|z]; [done|]. simpl. by rewrite Z.eqb_refl. }
    destruct (h0 !! a) as [[k fz]|]; [|done].
    destruct k as [xs|p ps|src]; simpl in Hcopy.
    + by destruct Hcopy as (b & ys & _ & _ & _ & ?).
    + by destruct Hcopy as (b & qs & _ & _ & _ & ?).
    + subst. simpl. by rewrite Nat.eqb_refl.
  - destruct x as [| |b|z|s|a]; simpl in Hcopy; subst;
      try (simpl; by rewrite ?Bool.eqb_reflx, ?String.eqb_refl).
    { destruct z as [|z]; [done|]. simpl. by rewrite Z.eqb_refl. }
    destruct (h0 !! a) as [[k fz]|] eqn:Ha; [|done].
    pose proof (prefix_lookup_Some _ _ _ _ Ha Hpre) as Ha'.
    assert (a < length h0) as Halt by (by apply lookup_lt_Some in Ha).
    cbn [no_nan] in Hnan. rewrite Ha in Hnan. cbn [shape] in Hcopy, Hnan.
    destruct k as [xs|p ps|src].
    + destruct Hcopy as (b & ys & -> & Hb & Hnode & Hall).
      rewrite (equals_arrays _ _ a b xs ys fz false Ha' Hnode) by lia.
      rewrite (Forall2_length _ _ _ Hall), Nat.eqb_refl. cbn [negb].
      apply all_pass_true. intros i Hi.
      apply list_elem_of_In, in_seq in Hi.
      destruct (lookup_lt_is_Some_2 ys i) as [y Hy]; [lia|].
      destruct (Forall2_lookup_r _ _ _ _ _ Hall Hy) as (x & Hx & Hxy).
      rewrite Hx, Hy. simpl. apply IH; [done|].
      eapply no_nan_elem; [exact Hnan|]. by eapply list_elem_of_lookup_2.
    + destruct Hcopy as (b & qs & -> & Hb & Hnode & Hall).
      rewrite (equals_plains _ _ a b p ps true qs fz false Ha' Hnode) by lia.
      rewrite <- (Forall2_keys _ _ _ Hall).
      rewrite (proj2 (equals_keys_true _ _) eq_refl). cbn [negb].
      apply all_pass_true. intros key Hkey.
      apply elem_of_sort, assoc_elem in Hkey as (x & Hx & Hxin).
      destruct (Forall2_assoc_l _ _ _ _ _ Hall Hx) as (y & Hy & Hxy).
      cbn [get_kind]. rewrite Hx, Hy. cbn [bind]. apply IH; [done|].
      eapply no_nan_elem; [exact Hnan|]. simpl.
      apply list_elem_of_fmap. by exists (key, x).
    + subst. simpl. by rewrite Nat.eqb_refl.
Qed.

Lemma copy_of_walk n h0 h' lo hi x y :
  h0 `prefix_of` h' → length h0 ≤ lo →
  copy_of n h0 h' lo hi x y →
  ∀ path b, walk h' y path = Some (VRef b) →
    ∃ a, walk h0 x path = Some (VRef a)
         ∧ if container h' b then a ≠ b ∧ lo ≤ b else a = b.
Proof.
  intros Hpre Hlo Hcopy path. revert n x y Hcopy.
  induction path as [|key path IH]; intros n x y Hcopy b Hwalk.
  - simpl in Hwalk. injection Hwalk as ->.
    destruct x as [| |c|z|s|a]; try by (destruct n; simpl in Hcopy).
    assert (match h0 !! a with
            | Some nd =>
                match shape nd with
                | RegExp _ => VRef b = VRef a
                | _ => lo ≤ b ∧ container h' b = true
                end
            | None => False
            end) as Hcase.
    { destruct n; simpl in Hcopy; destruct (h0 !! a) as [[k fz]|]; try done;
        destruct k; simpl in *; try done;
        destruct Hcopy as (b' & l & [= ->] & Hb & Hnode & _);
        (split; [lia|]); unfold container; by rewrite Hnode. }
    exists a. split; [done|].
    destruct (h0 !! a) as [[k fz]|] eqn:Ha; [|done].
    pose proof (prefix_lookup_Some _ _ _ _ Ha Hpre) as Ha'.
    apply lookup_lt_Some in Ha.
    destruct k as [xs|p ps|src]; cbn [shape] in Hcase.
    + destruct Hcase as [? ->]. lia.
    + destruct Hcase as [? ->]. lia.
    + injection Hcase as ->. unfold container. by rewrite Ha'.
  - destruct x as [| |c|z|s|a]; try by (destruct n; simpl in Hcopy; subst).
    destruct n as [|n]; simpl in Hcopy.
    { destruct (h0 !! a) as [[k fz]|] eqn:Ha; [|done].
      destruct k as [xs|p ps|src]; simpl in Hcopy.
      - by destruct Hcopy as (? & ? & _ & _ & _ & ?).
      - by destruct Hcopy as (? & ? & _ & _ & _ & ?).
      - subst. simpl in Hwalk. rewrite (prefix_lookup_Some _ _ _ _ Ha Hpre) in Hwalk.
        done. }
    cbn [walk]. destruct (h0 !! a) as [[k fz]|] eqn:Ha; [|done].
    destruct k as [xs|p ps|src]; cbn [shape] in Hcopy.
    + destruct Hcopy as (b1 & ys & -> & Hb & Hnode & Hall).
      cbn [walk] in Hwalk. rewrite Hnode in Hwalk. cbn [shape child_at] in Hwalk |- *.
      destruct (index_of_key key) as [i|]; [|done].
      destruct (ys !! i) as [y1|] eqn:Hy; [|done].
      destruct (Forall2_lookup_r _ _ _ _ _ Hall Hy) as (x1 & -> & Hxy).
      by apply (IH n x1 y1).
    + destruct Hcopy as (b1 & qs & -> & Hb & Hnode & Hall).
      cbn [walk] in Hwalk. rewrite Hnode in Hwalk. cbn [shape child_at] in Hwalk |- *.
      destruct (assoc key qs) as [y1|] eqn:Hy; [|done].
      destruct (Forall2_assoc_r _ _ _ _ _ Hall Hy) as (x1 & -> & Hxy).
      by apply (IH n x1 y1).
    + subst. simpl in Hwalk. rewrite (prefix_lookup_Some _ _ _ _ Ha Hpre) in Hwalk.
      done.
Qed.




(** * [mixin] *)

Lemma mixin_unfold n h destination source overwrite :
  mixin (S n) h destination source overwrite =
    let* dobj := Is.objectLiteral h destination in
    if negb dobj then Ok (h, source)
    else
      let* sobj := Is.objectLiteral h source in
      if sobj then
        let* keys := object_keys h source in
        let* h' := forEach keys (mixin_body n destination source overwrite) h in
        Ok (h', destination)
      else Ok (h, destination).
Proof. reflexivity. Qed.

Lemma objectLiteral_insert h a p props p' props' fz fz' w :
  h !! a = Some (Node (Plain p props) fz) →
  Is.objectLiteral (<[a:=Node (Plain p' props') fz']> h) w = Is.objectLiteral h w.
Proof.
  intros Ha. destruct w as [| | | | |x]; try done.
  unfold Is.objectLiteral, kind_of, deref.
  destruct (decide (x = a)) as [->|Hne].
  - rewrite list_lookup_insert_eq by (by eapply lookup_lt_Some). by rewrite Ha.
  - by rewrite list_lookup_insert_ne.
Qed.

Lemma depth_le_value_ok n h v : depth_le n h v = true → value_ok h v = true.
Proof.
  destruct v as [| | | | |a]; try done. destruct n as [|n]; [done|]. simpl.
  destruct (h !! a) eqn:Ha; [|done]. intros _. apply Nat.ltb_lt.
  by eapply lookup_lt_Some.
Qed.

(** ** Plain objects and the pairs that are merged *)

Lemma objectLiteral_is_plain h v :
  value_ok h v = true → Is.objectLiteral h v = Ok (is_plain h v).
Proof.
  destruct v as [| | | | |x]; try done. intros Hx%Nat.ltb_lt.
  destruct (lookup_lt_is_Some_2 h x Hx) as [[k fz] Hnd].
  unfold Is.objectLiteral, kind_of, deref, is_plain. rewrite Hnd. by destruct k.
Qed.

Lemma is_plain_ref h v :
  is_plain h v = true →
  ∃ a p props fz, v = VRef a ∧ h !! a = Some (Node (Plain p props) fz).
Proof.
  destruct v as [| | | | |a]; try done. unfold is_plain.
  destruct (h !! a) as [[[xs|p props|src] fz]|] eqn:Ha; try done.
  intros _. by exists a, p, props, fz.
Qed.

Lemma merged_pairs_not_plain overwrite n h d s :
  is_plain h d && is_plain h s = false → merged_pairs overwrite n h d s = [].
Proof.
  destruct n as [|n]; [done|]. simpl.
  destruct d as [| | | | |a]; try done. destruct s as [| | | | |b]; try done.
  unfold is_plain.
  destruct (h !! a) as [[[xs|p props|src] fz]|]; try done.
  by destruct (h !! b) as [[[xs'|p' props'|src'] fz']|].
Qed.

Lemma merged_pairs_plain overwrite n h a b pa pd fa pb ps fb :
  h !! a = Some (Node (Plain pa pd) fa) → h !! b = Some (Node (Plain pb ps) fb) →
  merged_pairs overwrite (S n) h (VRef a) (VRef b)
  = (a, b) :: flat_map (key_pairs (merged_pairs overwrite n h) overwrite pd) ps.
Proof. intros Ha Hb. simpl. by rewrite Ha, Hb. Qed.

(** The pairs are closed under the recursion of [mixin]: with [overwrite],
    the values that the two objects of a pair have at a key of both form a
    pair when both are plain objects. *)
Lemma merge_ends_plain overwrite n h a b pa pd fa pb ps fb :
  h !! a = Some (Node (Plain pa pd) fa) → h !! b = Some (Node (Plain pb ps) fb) →
  merge_ends overwrite n h (VRef a) (VRef b) = true →
  ∃ n', n = S n'
    ∧ (overwrite = true → ∀ key dv sv,
         assoc key pd = Some dv → (key, sv) ∈ ps →
         merge_ends overwrite n' h dv sv = true).
Proof.
  intros Ha Hb. destruct n as [|n']; simpl; rewrite Ha, Hb; [done|].
  intros Hends. exists n'. split; [done|]. intros -> key dv sv Hdv Hkv.
  cbn [negb orb] in Hends. rewrite forallb_forall in Hends.
  apply list_elem_of_In, Hends in Hkv. cbn [fst snd] in Hkv. by rewrite Hdv in Hkv.
Qed.

Lemma merged_pairs_closed n h : ∀ d s,
  merge_ends true n h d s = true →
  ∀ a b pa pd fa pb ps fb key dv sv,
    (a, b) ∈ merged_pairs true n h d s →
    h !! a = Some (Node (Plain pa pd) fa) → h !! b = Some (Node (Plain pb ps) fb) →
    assoc key pd = Some dv → assoc key ps = Some sv →
    is_plain h dv && is_plain h sv = true →
    ∃ x y, dv = VRef x ∧ sv = VRef y ∧ (x, y) ∈ merged_pairs true n h d s.
Proof.
  induction n as [|n IH]; intros d s Hd a b pa pd fa pb ps fb key dv sv Hin;
    [by apply elem_of_nil in Hin|].
  intros Ha Hb Hdv Hsv Hboth.
  destruct (is_plain h d && is_plain h s) eqn:Hds;
    [|by rewrite merged_pairs_not_plain in Hin by done; apply elem_of_nil in Hin].
  apply andb_true_iff in Hds as [Hpd Hps].
  apply is_plain_ref in Hpd as (a0 & pa0 & pd0 & fa0 & -> & Ha0).
  apply is_plain_ref in Hps as (b0 & pb0 & ps0 & fb0 & -> & Hb0).
  rewrite (merged_pairs_plain _ _ _ _ _ _ _ _ _ _ _ Ha0 Hb0) in Hin |- *.
  destruct (merge_ends_plain _ _ _ _ _ _ _ _ _ _ _ Ha0 Hb0 Hd) as (n0 & [= <-] & Hsub).
  specialize (Hsub eq_refl).
  apply elem_of_cons in Hin as [[= -> ->]|Hin].
  - rewrite Ha0 in Ha. injection Ha as <- <- <-.
    rewrite Hb0 in Hb. injection Hb as <- <- <-.
    apply andb_true_iff in Hboth as [Hx Hy].
    pose proof Hx as (x & px & propsx & fx & -> & Hnx)%is_plain_ref.
    pose proof Hy as (y & py & propsy & fy & -> & Hny)%is_plain_ref.
    exists x, y. split; [done|]. split; [done|]. right.
    apply list_elem_of_In, in_flat_map. exists (key, VRef y).
    split; [by apply list_elem_of_In, assoc_Some_elem|].
    unfold key_pairs. cbn [fst snd]. rewrite Hdv.
    assert (merge_ends true n h (VRef x) (VRef y) = true) as Hdx.
    { apply (Hsub key); [done|]. by apply assoc_Some_elem. }
    destruct (merge_ends_plain _ _ _ _ _ _ _ _ _ _ _ Hnx Hny Hdx) as (n1 & -> & _).
    rewrite (merged_pairs_plain _ _ _ _ _ _ _ _ _ _ _ Hnx Hny). by left.
  - apply list_elem_of_In, in_flat_map in Hin as ([k0 sv0] & Hkv & Hin).
    unfold key_pairs in Hin. cbn [fst snd] in Hin.
    destruct (assoc k0 pd0) as [dv0|] eqn:Hdv0; [|done].
    apply list_elem_of_In in Hin.
    destruct (IH dv0 sv0) with (a := a) (b := b) (key := key) (dv := dv) (sv := sv)
      (pa := pa) (pd := pd) (fa := fa) (pb := pb) (ps := ps) (fb := fb)
      as (x & y & -> & -> & Hxy); try done.
    { apply (Hsub k0); [done|]. by apply list_elem_of_In. }
    exists x, y. split; [done|]. split; [done|]. right.
    apply list_elem_of_In, in_flat_map. exists (k0, sv0). split; [done|].
    unfold key_pairs. cbn [fst snd]. rewrite Hdv0. by apply list_elem_of_In.
Qed.

(** ** Pairs that can be merged one after the other *)

Lemma mergeable_infix overwrite h l1 l2 l3 :
  mergeable overwrite h (l1 ++ l2 ++ l3) →
  mergeable overwrite h l2
  ∧ (∀ x, x ∈ map fst l1 → x ∉ map fst l2).
Proof.
  intros (Hnd & Hdis & Hunf & Hreads).
  rewrite !map_app in Hnd, Hdis, Hunf.
  apply NoDup_app in Hnd as (Hnd1 & Hd12 & Hnd23).
  apply NoDup_app in Hnd23 as (Hnd2 & Hd23 & Hnd3).
  split; [split; [done|split; [|split]]|].
  - intros x Hx Hx'. apply (Hdis x).
    + apply elem_of_app. right. apply elem_of_app. by left.
    + rewrite !map_app. apply elem_of_app. right. apply elem_of_app. by left.
  - intros x Hx. apply Hunf. apply elem_of_app. right. apply elem_of_app. by left.
  - intros Hov. specialize (Hreads Hov). rewrite !forallb_app in Hreads.
    by apply andb_true_iff in Hreads as [_ [? _]%andb_true_iff].
  - intros x Hx Hx'. apply (Hd12 x Hx). apply elem_of_app. by left.
Qed.

Lemma flat_map_middle {A B} (f : A → list B) l1 x l2 :
  flat_map f (l1 ++ x :: l2) = flat_map f l1 ++ f x ++ flat_map f l2.
Proof. by rewrite flat_map_app. Qed.

Lemma flat_map_snoc {A B} (f : A → list B) l x :
  flat_map f (l ++ [x]) = flat_map f l ++ f x.
Proof. rewrite flat_map_app. simpl. by rewrite app_nil_r. Qed.

Lemma bool_decide_snoc (key k : string) (l : list string) :
  key ≠ k → bool_decide (key ∈ l ++ [k]) = bool_decide (key ∈ l).
Proof.
  intros Hne. apply bool_decide_ext. rewrite elem_of_app, list_elem_of_singleton. tauto.
Qed.

Lemma bool_decide_snoc_eq (k : string) (l : list string) :
  bool_decide (k ∈ l ++ [k]) = true.
Proof. apply bool_decide_eq_true_2, elem_of_app. right. by left. Qed.

Lemma merged_at_frame overwrite h h1 h2 ab :
  merged_at overwrite h h1 ab → h2 !! fst ab = h1 !! fst ab →
  merged_at overwrite h h2 ab.
Proof.
  intros (pa & pd & fa & pb & ps & fb & pd' & Ha & Hb & Ha' & Hmixed) Hsame.
  exists pa, pd, fa, pb, ps, fb, pd'. by rewrite Hsame.
Qed.

(** ** The loop of [mixin] *)

Section mixin_loop.
Variables (overwrite : bool) (h : heap) (n' : nat).
Hypothesis Hclosed : heap_closed h = true.

Hypothesis IH : ∀ hc d s,
  merge_ends overwrite n' h d s = true →
  value_ok h d = true → value_ok h s = true →
  mergeable overwrite h (merged_pairs overwrite n' h d s) →
  (∀ v, Is.objectLiteral hc v = Is.objectLiteral h v) →
  (∀ x, x ∈ map fst (merged_pairs overwrite n' h d s)
        ∨ x ∈ map snd (merged_pairs overwrite n' h d s) → hc !! x = h !! x) →
  ∃ h', mixin (S n') hc d s overwrite = Ok (h', if is_plain h d then d else s)
        ∧ (∀ v, Is.objectLiteral h' v = Is.objectLiteral h v)
        ∧ (∀ x, x ∉ map fst (merged_pairs overwrite n' h d s) → h' !! x = hc !! x)
        ∧ (∀ ab, ab ∈ merged_pairs overwrite n' h d s → merged_at overwrite h h' ab).

Variables (a b : addr) (pa pb fb : bool) (pd ps : list (string * value)).
Variable hc0 : heap.

Hypothesis Ha : h !! a = Some (Node (Plain pa pd) false).
Hypothesis Hb : h !! b = Some (Node (Plain pb ps) fb).
Hypothesis Hends : overwrite = true → ∀ key dv sv,
  assoc key pd = Some dv → (key, sv) ∈ ps → merge_ends overwrite n' h dv sv = true.
Hypothesis Hm :
  mergeable overwrite h
    ((a, b) :: flat_map (key_pairs (merged_pairs overwrite n' h) overwrite pd) ps).
Hypothesis Hagree0 : ∀ x,
  x ∈ map fst ((a, b) :: flat_map (key_pairs (merged_pairs overwrite n' h) overwrite pd) ps)
  ∨ x ∈ map snd ((a, b) :: flat_map (key_pairs (merged_pairs overwrite n' h) overwrite pd) ps)
  → hc0 !! x = h !! x.

Lemma source_not_target x :
  x ∈ map snd ((a, b) :: flat_map (key_pairs (merged_pairs overwrite n' h) overwrite pd) ps) →
  x ∉ map fst ((a, b) :: flat_map (key_pairs (merged_pairs overwrite n' h) overwrite pd) ps).
Proof. intros Hx Hx'. destruct Hm as (_ & Hdis & _). by apply (Hdis x). Qed.

(** The assignment [destination[key] = sv] of the loop. *)
Lemma mixin_set dn rest hc props k sv :
  ps = dn ++ (k, sv) :: rest →
  mixin_inv overwrite h hc0 a pa pd ps dn
    (flat_map (key_pairs (merged_pairs overwrite n' h) overwrite pd) dn) hc props →
  key_pairs (merged_pairs overwrite n' h) overwrite pd (k, sv) = [] →
  (pa && String.eqb k "__proto__" && negb (has_own (Plain pa props) k)) = false →
  mixed overwrite h pa pd ps k = Some sv →
  ∃ h2, set hc (VRef a) k sv = Ok h2
        ∧ mixin_inv overwrite h hc0 a pa pd ps (dn ++ [(k, sv)])
            (flat_map (key_pairs (merged_pairs overwrite n' h) overwrite pd)
               (dn ++ [(k, sv)]))
            h2 (assoc_set k sv props).
Proof.
  intros Hps (Hclass & Hframe & Hnode & Hprops & Hsub) Hnil Hsetter Hmixed.
  exists (<[a:=Node (Plain pa (assoc_set k sv props)) false]> hc). split.
  { unfold set, deref. rewrite Hnode. cbn [bind frozen shape set_kind].
    unfold plain_set. by rewrite Hsetter. }
  assert (a < length hc) as Hlt by (by eapply lookup_lt_Some).
  rewrite flat_map_snoc, Hnil, app_nil_r.
  split; [|split; [|split; [|split]]].
  - intros v. rewrite <- Hclass. by eapply objectLiteral_insert.
  - intros x Hxa Hx. rewrite list_lookup_insert_ne by done. by apply Hframe.
  - by rewrite list_lookup_insert_eq.
  - intros key. rewrite assoc_assoc_set, map_app. cbn [map fst].
    destruct (String.eqb_spec key k) as [->|Hne].
    + by rewrite bool_decide_snoc_eq, Hmixed.
    + by rewrite Hprops, bool_decide_snoc.
  - intros ab Hab. eapply merged_at_frame; [by apply Hsub|].
    rewrite list_lookup_insert_ne; [done|]. intros Heq.
    destruct Hm as (Hnd & _). simpl in Hnd. apply NoDup_cons in Hnd as [Hnot _].
    apply Hnot. rewrite Heq, Hps, flat_map_app, map_app. apply elem_of_app. left.
    by apply (list_elem_of_fmap_2 fst) in Hab.
Qed.

(** An iteration that leaves the heap as it is. *)
Lemma mixin_skip dn rest hc props k sv :
  ps = dn ++ (k, sv) :: rest →
  mixin_inv overwrite h hc0 a pa pd ps dn
    (flat_map (key_pairs (merged_pairs overwrite n' h) overwrite pd) dn) hc props →
  key_pairs (merged_pairs overwrite n' h) overwrite pd (k, sv) = [] →
  mixed overwrite h pa pd ps k = assoc k props →
  mixin_inv overwrite h hc0 a pa pd ps (dn ++ [(k, sv)])
    (flat_map (key_pairs (merged_pairs overwrite n' h) overwrite pd) (dn ++ [(k, sv)]))
    hc props.
Proof.
  intros Hps (Hclass & Hframe & Hnode & Hprops & Hsub) Hnil Hmixed.
  rewrite flat_map_snoc, Hnil, app_nil_r.
  split; [done|]. split; [done|]. split; [done|]. split; [|done].
  intros key. rewrite map_app. cbn [map fst].
  destruct (String.eqb_spec key k) as [->|Hne].
  - by rewrite bool_decide_snoc_eq, Hmixed.
  - by rewrite Hprops, bool_decide_snoc.
Qed.

Lemma mixin_step dn rest hc props k sv :
  ps = dn ++ (k, sv) :: rest →
  mixin_inv overwrite h hc0 a pa pd ps dn
    (flat_map (key_pairs (merged_pairs overwrite n' h) overwrite pd) dn) hc props →
  ∃ h2 props2,
    mixin_body (S n') (VRef a) (VRef b) overwrite hc k = Ok h2
    ∧ mixin_inv overwrite h hc0 a pa pd ps (dn ++ [(k, sv)])
        (flat_map (key_pairs (merged_pairs overwrite n' h) overwrite pd)
           (dn ++ [(k, sv)]))
        h2 props2.
Proof.
  intros Hps Hinv. pose proof Hinv as (Hclass & Hframe & Hnode & Hprops & Hsub).
  pose proof (heap_closed_lookup _ _ _ Hclosed Ha) as Hcla.
  pose proof (heap_closed_lookup _ _ _ Hclosed Hb) as Hclb.
  pose proof (node_closed_keys _ _ _ _ Hclb) as Hkeys.
  assert ((k, sv) ∈ ps) as Hkv.
  { rewrite Hps. apply elem_of_app. right. by left. }
  destruct (node_closed_prop _ _ _ _ _ _ Hclb Hkv) as (Hsvok & Hsv).
  assert (k ∉ map fst dn) as Hfresh.
  { rewrite Hps, map_app in Hkeys. apply NoDup_app in Hkeys as (_ & Hdis & _).
    intros Hin. apply (Hdis k Hin). by left. }
  assert (assoc k props = assoc k pd) as Hkprops.
  { by rewrite Hprops, bool_decide_eq_false_2. }
  pose proof Hm as Hm'. rewrite Hps, flat_map_middle in Hm'.
  change ((a, b) :: ?l1 ++ ?l2 ++ ?l3) with (((a, b) :: l1) ++ l2 ++ l3) in Hm'.
  apply mergeable_infix in Hm' as [Hmk Hdisk].
  assert (∀ x,
    x ∈ map fst (key_pairs (merged_pairs overwrite n' h) overwrite pd (k, sv))
    ∨ x ∈ map snd (key_pairs (merged_pairs overwrite n' h) overwrite pd (k, sv)) →
    hc !! x = h !! x) as Hagree.
  { intros x Hx.
    assert (x ∈ map fst ((a, b) :: flat_map (key_pairs (merged_pairs overwrite n' h)
                                    overwrite pd) ps)
            ∨ x ∈ map snd ((a, b) :: flat_map (key_pairs (merged_pairs overwrite n' h)
                                      overwrite pd) ps)) as Hx0.
    { rewrite Hps, flat_map_middle. cbn [map]. rewrite !map_app.
      destruct Hx as [Hx|Hx]; [left|right]; right; apply elem_of_app; right;
        apply elem_of_app; by left. }
    rewrite <- (Hagree0 x Hx0).
    assert (x ∉ map fst ((a, b) :: flat_map (key_pairs (merged_pairs overwrite n' h)
                                    overwrite pd) dn)) as Hnot.
    { destruct Hx as [Hx|Hx].
      - intros Hx'. by apply (Hdisk x Hx').
      - intros Hx'. apply (source_not_target x).
        + rewrite Hps, flat_map_middle. cbn [map]. rewrite !map_app. right.
          apply elem_of_app. right. apply elem_of_app. by left.
        + rewrite Hps, flat_map_middle. cbn [map] in Hx' |- *. rewrite !map_app.
          apply elem_of_cons in Hx' as [->|Hx']; [by left|right].
          apply elem_of_app. by left. }
    cbn [map fst] in Hnot. apply not_elem_of_cons in Hnot as [Hxa Hxdn].
    by apply Hframe. }
  assert (hc !! b = Some (Node (Plain pb ps) fb)) as Hbc.
  { rewrite <- Hb, <- (Hagree0 b) by (right; by left). apply Hframe.
    - intros Heq. apply (source_not_target b); [by left|]. rewrite Heq. by left.
    - intros Hx. apply (source_not_target b); [by left|]. cbn [map]. right.
      rewrite Hps, flat_map_app, map_app. apply elem_of_app. by left. }
  assert (get hc (VRef b) k = Ok sv) as Hget.
  { unfold get, deref. rewrite Hbc. cbn [bind shape get_kind]. by rewrite Hsv. }
  assert (has_property hc (VRef a) k
          = Ok (match assoc k pd with Some _ => true | None => false end
                || pa && inherited k)) as Hhas.
  { unfold has_property, deref. rewrite Hnode. cbn [bind shape has_own].
    by rewrite Hkprops. }
  unfold mixin_body. rewrite Hhas. cbn [bind].
  destruct (assoc k pd) as [dv|] eqn:Hdv; cbn [orb].
  - (* a key of the destination *)
    assert (overwrite = true ∨ overwrite = false) as [Hov|Hov]
      by (destruct overwrite; auto).
    2:{ exists hc, props. rewrite Hov. split; [done|]. rewrite <- Hov.
        apply (mixin_skip dn rest); [done..| |].
        - unfold key_pairs. cbn [fst]. by rewrite Hdv, Hov.
        - unfold mixed. by rewrite Hsv, Hdv, Hov, Hkprops. }
    destruct (node_closed_prop _ _ _ _ _ _ Hcla (assoc_Some_elem _ _ _ Hdv))
      as (Hdvok & _).
    assert (get hc (VRef a) k = Ok dv) as Hgetd.
    { unfold get, deref. rewrite Hnode. cbn [bind shape get_kind].
      by rewrite Hkprops. }
    replace (if overwrite then _ else Ok hc) with
      (let* dv := get hc (VRef a) k in
       let* dl := Is.objectLiteral hc dv in
       let* both :=
         if dl then let* sv := get hc (VRef b) k in Is.objectLiteral hc sv
         else Ok false in
       let* sv := get hc (VRef b) k in
       if both
       then let* (h2, _) := mixin (S n') hc dv sv overwrite in Ok h2
       else set hc (VRef a) k sv) by (by rewrite Hov).
    rewrite Hgetd. cbn [bind]. rewrite Hclass, (objectLiteral_is_plain _ _ Hdvok).
    cbn [bind]. rewrite Hget. cbn [bind].
    rewrite Hclass, (objectLiteral_is_plain _ _ Hsvok).
    assert ((if is_plain h dv then Ok (is_plain h sv) else Ok false)
            = Ok (is_plain h dv && is_plain h sv)) as -> by (by destruct (is_plain h dv)).
    cbn [bind].
    destruct (is_plain h dv && is_plain h sv) eqn:Hboth.
    + (* both values are plain objects: the recursive call *)
      assert (key_pairs (merged_pairs overwrite n' h) overwrite pd (k, sv)
              = merged_pairs overwrite n' h dv sv) as Hkp.
      { unfold key_pairs. cbn [fst snd]. by rewrite Hdv, Hov. }
      rewrite Hkp in Hmk, Hagree, Hdisk.
      destruct (IH hc dv sv) as (h2 & Hrun & Hclass2 & Hframe2 & Hmerged); try done.
      { by apply (Hends Hov k). }
      rewrite Hrun. cbn [bind]. exists h2, props. split; [done|].
      rewrite flat_map_snoc, Hkp.
      assert (a ∉ map fst (merged_pairs overwrite n' h dv sv)) as Hna.
      { apply Hdisk. by left. }
      split; [done|]. split; [|split; [|split]].
      * intros x Hxa Hx. rewrite map_app in Hx. apply not_elem_of_app in Hx as [Hx1 Hx2].
        rewrite Hframe2 by done. by apply Hframe.
      * by rewrite Hframe2.
      * intros key. rewrite map_app. cbn [map fst].
        destruct (String.eqb_spec key k) as [->|Hne].
        -- rewrite bool_decide_snoc_eq.
           unfold mixed. by rewrite Hsv, Hdv, Hov, Hboth, Hkprops.
        -- by rewrite Hprops, bool_decide_snoc.
      * intros ab [Hab|Hab]%elem_of_app; [|by apply Hmerged].
        eapply merged_at_frame; [by apply Hsub|]. apply Hframe2, Hdisk. right.
        by apply (list_elem_of_fmap_2 fst) in Hab.
    + (* the value of the source replaces the value of the destination *)
      destruct (mixin_set dn rest hc props k sv) as (h2 & Hset & Hinv2); try done.
      * unfold key_pairs. cbn [fst snd]. rewrite Hdv, Hov.
        by apply merged_pairs_not_plain.
      * cbn [has_own]. rewrite Hkprops. cbn [negb]. by rewrite andb_false_r.
      * unfold mixed. by rewrite Hsv, Hdv, Hov, Hboth.
      * by exists h2, (assoc_set k sv props).
  - (* not a key of the destination *)
    destruct (pa && inherited k) eqn:Hinh.
    + (* a name that the destination inherits *)
      assert (overwrite = false) as Hov.
      { destruct overwrite eqn:Hov; [|done]. exfalso.
        destruct Hm as (_ & _ & _ & Hreads). specialize (Hreads eq_refl).
        cbn [forallb] in Hreads. apply andb_true_iff in Hreads as [Hreads _].
        unfold own_reads in Hreads. cbn [fst snd] in Hreads. rewrite Ha, Hb in Hreads.
        rewrite forallb_forall in Hreads. apply list_elem_of_In, Hreads in Hkv.
        cbn [fst] in Hkv. by rewrite Hdv, Hinh in Hkv. }
      exists hc, props. rewrite Hov. split; [done|]. rewrite <- Hov.
      apply (mixin_skip dn rest); [done..| |].
      * unfold key_pairs. cbn [fst]. by rewrite Hdv.
      * unfold mixed. by rewrite Hsv, Hdv, Hinh, Hov, Hkprops.
    + (* a key that the destination lacks *)
      rewrite Hget. cbn [bind].
      destruct (mixin_set dn rest hc props k sv) as (h2 & Hset & Hinv2); try done.
      * unfold key_pairs. cbn [fst]. by rewrite Hdv.
      * destruct pa; [|done]. cbn [andb] in Hinh |- *.
        destruct (String.eqb_spec k "__proto__") as [->|]; [|done].
        by vm_compute in Hinh.
      * unfold mixed. by rewrite Hsv, Hdv, Hinh.
      * by exists h2, (assoc_set k sv props).
Qed.

Lemma mixin_loop_run rest : ∀ dn hc props,
  ps = dn ++ rest →
  mixin_inv overwrite h hc0 a pa pd ps dn
    (flat_map (key_pairs (merged_pairs overwrite n' h) overwrite pd) dn) hc props →
  ∃ h' props',
    forEach (map fst rest) (mixin_body (S n') (VRef a) (VRef b) overwrite) hc = Ok h'
    ∧ mixin_inv overwrite h hc0 a pa pd ps ps
        (flat_map (key_pairs (merged_pairs overwrite n' h) overwrite pd) ps) h' props'.
Proof.
  induction rest as [|[k sv] rest IHrest]; intros dn hc props Hps Hinv.
  { rewrite app_nil_r in Hps. subst dn. by exists hc, props. }
  destruct (mixin_step dn rest hc props k sv Hps Hinv) as (h2 & props2 & Hrun & Hinv2).
  cbn [map fst forEach]. rewrite Hrun. cbn [bind].
  apply (IHrest (dn ++ [(k, sv)]) h2 props2); [|done].
  by rewrite <- app_assoc.
Qed.

End mixin_loop.

(** ** The call *)

Lemma mixin_pairs overwrite h :
  heap_closed h = true →
  ∀ n hc d s,
    merge_ends overwrite n h d s = true →
    value_ok h d = true → value_ok h s = true →
    mergeable overwrite h (merged_pairs overwrite n h d s) →
    (∀ v, Is.objectLiteral hc v = Is.objectLiteral h v) →
    (∀ x, x ∈ map fst (merged_pairs overwrite n h d s)
          ∨ x ∈ map snd (merged_pairs overwrite n h d s) → hc !! x = h !! x) →
    ∃ h', mixin (S n) hc d s overwrite = Ok (h', if is_plain h d then d else s)
          ∧ (∀ v, Is.objectLiteral h' v = Is.objectLiteral h v)
          ∧ (∀ x, x ∉ map fst (merged_pairs overwrite n h d s) → h' !! x = hc !! x)
          ∧ (∀ ab, ab ∈ merged_pairs overwrite n h d s → merged_at overwrite h h' ab).
Proof.
  intros Hclosed. induction n as [|n' IH]; intros hc d s Hends Hd Hs Hm Hclass Hagree;
    rewrite mixin_unfold, Hclass, (objectLiteral_is_plain _ _ Hd); cbn [bind].
  { destruct (is_plain h d) eqn:Hpd; cbn [negb].
    2:{ exists hc. split; [done|]. split; [done|]. split; [done|].
        by intros ab ?%elem_of_nil. }
    rewrite Hclass, (objectLiteral_is_plain _ _ Hs). cbn [bind].
    destruct (is_plain h s) eqn:Hps.
    2:{ exists hc. split; [done|]. split; [done|]. split; [done|].
        by intros ab ?%elem_of_nil. }
    apply is_plain_ref in Hpd as (a & pa & pd & fa & -> & Ha).
    apply is_plain_ref in Hps as (b & pb & ps & fb & -> & Hb).
    by destruct (merge_ends_plain _ _ _ _ _ _ _ _ _ _ _ Ha Hb Hends) as (n0 & ? & _). }
  destruct (is_plain h d) eqn:Hpd; cbn [negb].
  2:{ exists hc. rewrite merged_pairs_not_plain by (by rewrite Hpd).
      split; [done|]. split; [done|]. split; [done|]. by intros ab ?%elem_of_nil. }
  rewrite Hclass, (objectLiteral_is_plain _ _ Hs). cbn [bind].
  destruct (is_plain h s) eqn:Hps.
  2:{ exists hc. rewrite merged_pairs_not_plain by (by rewrite Hps, andb_false_r).
      split; [done|]. split; [done|]. split; [done|]. by intros ab ?%elem_of_nil. }
  apply is_plain_ref in Hpd as (a & pa & pd & fa & -> & Ha).
  apply is_plain_ref in Hps as (b & pb & ps & fb & -> & Hb).
  rewrite (merged_pairs_plain _ _ _ _ _ _ _ _ _ _ _ Ha Hb) in Hm, Hagree |- *.
  assert (fa = false) as ->.
  { destruct Hm as (_ & _ & Hunf & _). specialize (Hunf a). unfold is_frozen in Hunf.
    rewrite Ha in Hunf. apply Hunf. by left. }
  destruct (merge_ends_plain _ _ _ _ _ _ _ _ _ _ _ Ha Hb Hends) as (n0 & [= <-] & Hsub).
  unfold object_keys, deref. rewrite (Hagree b) by (right; by left).
  rewrite Hb. cbn [bind shape own_keys].
  destruct (mixin_loop_run overwrite h n' Hclosed IH a b pa pb fb pd ps hc Ha Hb Hsub Hm
              Hagree ps [] hc pd eq_refl)
    as (h' & props' & Hrun & Hclass' & Hframe' & Hnode' & Hprops' & Hsub').
  { split; [done|]. split; [done|]. split; [|split].
    - rewrite (Hagree a) by (left; by left). done.
    - intros key. by rewrite bool_decide_eq_false_2 by apply not_elem_of_nil.
    - by intros ab ?%elem_of_nil. }
  rewrite Hrun. cbn [bind]. exists h'. split; [done|]. split; [done|]. split.
  - intros x Hx. cbn [map fst] in Hx. apply not_elem_of_cons in Hx as [Hxa Hx].
    by apply Hframe'.
  - intros ab [->|Hab]%elem_of_cons; [|by apply Hsub'].
    exists pa, pd, false, pb, ps, fb, props'. split; [done|]. split; [done|].
    split; [done|]. intros key. rewrite Hprops'. case_bool_decide as Hkey; [done|].
    apply assoc_None in Hkey. unfold mixed. by rewrite Hkey.
Qed.




(** The three calls of the specification; the merge into an object that the
    destination holds at two keys; and the merge, twice, into an object that
    the destination holds at two keys that the source has as well, where the
    second merge overwrites what the first has written. *)
Lemma mixin_examples :
  (let* (h', r) := mixin 2 mixin_heap (VRef 0) (VRef 1) true in Ok (h' !! 0, r))
    = Ok (Some (object [("a", num 2)]), VRef 0)
  ∧ (let* (h', r) := mixin 2 mixin_heap (VRef 0) (VRef 1) false in Ok (h' !! 0, r))
    = Ok (Some (object [("a", num 1)]), VRef 0)
  ∧ (let* (h', r) := mixin 3 mixin_heap (VRef 2) (VRef 4) true in
     Ok (h' !! 2, h' !! 3, r))
    = Ok (Some (object [("a", VRef 3)]),
          Some (object [("x", num 1); ("y", num 2)]), VRef 2)
  ∧ (let* (h', r) := mixin 3 shared_destination_heap (VRef 0) (VRef 2) true in
     Ok (h' !! 0, h' !! 1, r))
    = Ok (Some (object [("a", VRef 1); ("b", VRef 1)]),
          Some (object [("x", num 1); ("y", num 2)]), VRef 0)
  ∧ (let* (h', r) := mixin 3 twice_heap (VRef 0) (VRef 2) true in
     Ok (h' !! 0, h' !! 1, r))
    = Ok (Some (object [("a", VRef 1); ("b", VRef 1)]),
          Some (object [("x", num 2)]), VRef 0).
Proof. repeat split. Qed.

(** * Further properties of [equals] *)

Lemma equals_refs n h x y ndx ndy :
  h !! x = Some ndx → h !! y = Some ndy → x ≠ y →
  equals (S n) h (VRef x) (VRef y) = equals_nodes n h (shape ndx) (shape ndy).
Proof.
  intros Hx Hy Hxy. simpl.
  destruct (Nat.eqb_spec x y); [done|].
  unfold isArray, kind_of, deref. rewrite Hx, Hy. simpl.
  destruct (shape ndx), (shape ndy); simpl; done.
Qed.

Lemma equals_true_refs n h a b :
  equals (S n) h a b = Ok true → strict_eq a b = false →
  ∃ x y ndx ndy, a = VRef x ∧ b = VRef y ∧ x ≠ y
                 ∧ h !! x = Some ndx ∧ h !! y = Some ndy.
Proof.
  intros H Hne. simpl in H. rewrite Hne in H.
  destruct a as [| | | | |x], b as [| | | | |y]; try done.
  rewrite strict_eq_ref in Hne. apply bool_decide_eq_false in Hne.
  simpl in H. unfold isArray, kind_of, deref in H.
  destruct (h !! x) as [ndx|] eqn:Hx; [|done].
  destruct (h !! y) as [ndy|] eqn:Hy; [|by destruct (shape ndx)].
  by exists x, y, ndx, ndy.
Qed.

Lemma all_pass_inv {A} (l : list A) (f : A → result bool) :
  all_pass l f = Ok true → ∀ x, x ∈ l → f x = Ok true.
Proof.
  induction l as [|y l IH]; simpl; intros H x Hx; [by apply elem_of_nil in Hx|].
  destruct (f y) as [[]|] eqn:Hy; try done.
  apply elem_of_cons in Hx as [->|Hx]; [done|by apply IH].
Qed.

Lemma equals_nodes_trans n h kx ky kz :
  (∀ a b c, equals n h a b = Ok true → equals n h b c = Ok true →
            equals n h a c = Ok true) →
  equals_nodes n h kx ky = Ok true → equals_nodes n h ky kz = Ok true →
  equals_nodes n h kx kz = Ok true.
Proof.
  intros IH Hxy Hyz.
  assert (∀ kx ky kz : kind,
    (if negb (equals_keys (sort (own_keys kx)) (sort (own_keys ky))) then Ok false
     else all_pass (sort (own_keys kx))
            (λ key, let* vx := get_kind kx key in
                    let* vy := get_kind ky key in equals n h vx vy)) = Ok true →
    (if negb (equals_keys (sort (own_keys ky)) (sort (own_keys kz))) then Ok false
     else all_pass (sort (own_keys ky))
            (λ key, let* vx := get_kind ky key in
                    let* vy := get_kind kz key in equals n h vx vy)) = Ok true →
    (if negb (equals_keys (sort (own_keys kx)) (sort (own_keys kz))) then Ok false
     else all_pass (sort (own_keys kx))
            (λ key, let* vx := get_kind kx key in
                    let* vy := get_kind kz key in equals n h vx vy)) = Ok true)
    as Hkeys.
  { clear Hxy Hyz kx ky kz. intros kx ky kz H1 H2. revert H1 H2.
    destruct (equals_keys (sort (own_keys kx)) (sort (own_keys ky))) eqn:E1; [|done].
    destruct (equals_keys (sort (own_keys ky)) (sort (own_keys kz))) eqn:E2; [|done].
    apply equals_keys_true in E1, E2. rewrite <- E1 in E2. rewrite <- E2.
    rewrite <- E1. simpl. intros H1 H2.
    assert (equals_keys (sort (own_keys kx)) (sort (own_keys kx)) = true) as ->
      by (by apply equals_keys_true).
    simpl. apply all_pass_true. intros key Hkey.
    pose proof (all_pass_inv _ _ H1 key Hkey) as Hk1.
    pose proof (all_pass_inv _ _ H2 key Hkey) as Hk2.
    apply bind_Ok in Hk1 as (vx & Hvx & Hk1). apply bind_Ok in Hk1 as (vy & Hvy & Hk1).
    apply bind_Ok in Hk2 as (vy' & Hvy' & Hk2). apply bind_Ok in Hk2 as (vz & Hvz & Hk2).
    rewrite Hvx, Hvz. simpl. rewrite Hvy in Hvy'. injection Hvy' as <-.
    exact (IH _ _ _ Hk1 Hk2). }
  destruct kx as [xs|px psx|sx], ky as [ys|py psy|sy], kz as [zs|pz psz|sz];
    try done; try (by apply (Hkeys _ _ _ Hxy Hyz)).
  simpl in *.
  destruct (Nat.eqb_spec (length xs) (length ys)) as [Exy|]; [|done].
  destruct (Nat.eqb_spec (length ys) (length zs)) as [Eyz|]; [|done].
  simpl in *. rewrite <- Exy in Eyz. rewrite <- Eyz, Nat.eqb_refl. simpl.
  apply all_pass_true. intros i Hi.
  pose proof (all_pass_inv _ _ Hxy i Hi) as H1. rewrite <- Exy in Hyz.
  pose proof (all_pass_inv _ _ Hyz i Hi) as H2. exact (IH _ _ _ H1 H2).
Qed.

Lemma equals_trans n : ∀ h a b c,
  equals n h a b = Ok true → equals n h b c = Ok true → equals n h a c = Ok true.
Proof.
  induction n as [|n IH]; intros h a b c Hab Hbc; [done|].
  destruct (strict_eq a b) eqn:Eab; [by apply strict_eq_true in Eab as ->|].
  destruct (strict_eq b c) eqn:Ebc; [by apply strict_eq_true in Ebc as <-|].
  destruct (equals_true_refs _ _ _ _ Hab Eab)
    as (x & y & ndx & ndy & -> & -> & Hxy & Hx & Hy).
  destruct (equals_true_refs _ _ _ _ Hbc Ebc)
    as (y' & z & ndy' & ndz & [= <-] & -> & Hyz & Hy' & Hz).
  rewrite Hy in Hy'. injection Hy' as <-.
  destruct (decide (x = z)) as [->|Hxz].
  { simpl. by rewrite Nat.eqb_refl. }
  rewrite (equals_refs _ _ _ _ _ _ Hx Hy Hxy) in Hab.
  rewrite (equals_refs _ _ _ _ _ _ Hy Hz Hyz) in Hbc.
  rewrite (equals_refs _ _ _ _ _ _ Hx Hz Hxz).
  eapply equals_nodes_trans; [|done..]. intros. by eapply IH.
Qed.

(** X1: [equals] is transitive: when it finds [a] equal to [b] and [b]
    equal to [c], it finds [a] equal to [c]. *)
Theorem equals_transitive fuel h a b c :
  equals fuel h a b = Ok true → equals fuel h b c = Ok true →
  equals fuel h a c = Ok true.
Proof. apply equals_trans. Qed.

Lemma equals_transitive_witness :
  equals 2 three_arrays (VRef 0) (VRef 2) = Ok true.
Proof. by apply (equals_transitive 2 three_arrays (VRef 0) (VRef 1) (VRef 2)). Defined.

(** X2: [equals] does not look into regular expressions: it finds any two
    of them equal, whatever their sources, and finds a regular expression
    equal to a plain object exactly when the object has no properties. *)
Theorem equals_regexp_blind n h a b c sa sb fa fb pc props fc :
  h !! a = Some (Node (RegExp sa) fa) →
  h !! b = Some (Node (RegExp sb) fb) →
  h !! c = Some (Node (Plain pc props) fc) →
  equals (S n) h (VRef a) (VRef b) = Ok true
  ∧ equals (S n) h (VRef a) (VRef c)
    = Ok (match props with [] => true | _ => false end).
Proof.
  intros Ha Hb Hc. split.
  - destruct (decide (a = b)) as [->|Hab].
    + simpl. by rewrite Nat.eqb_refl.
    + by rewrite (equals_refs _ _ _ _ _ _ Ha Hb Hab).
  - assert (a ≠ c) as Hac by congruence.
    rewrite (equals_refs _ _ _ _ _ _ Ha Hc Hac). simpl.
    destruct props as [|[k v] props]; [done|]. simpl.
    unfold sort. simpl. fold (sort (map fst props)).
    destruct (sort (map fst props)) as [|x l]; simpl; [done|].
    by destruct (String.leb k x).
Qed.

Lemma equals_regexp_blind_witness :
  equals 1 regexp_heap (VRef 0) (VRef 1) = Ok true
  ∧ equals 1 regexp_heap (VRef 0) (VRef 2) = Ok true.
Proof.
  exact (equals_regexp_blind 0 regexp_heap 0 1 2 "a" "b" false false true [] false
           eq_refl eq_refl eq_refl).
Defined.

(** ** [equals] and the marks of [Object.freeze] *)

Lemma same_shapes_None h h' a : same_shapes h h' → h !! a = None → h' !! a = None.
Proof.
  intros [Hlen _] Ha. apply lookup_ge_None. rewrite Hlen. by apply lookup_ge_None.
Qed.

Lemma more_frozen_same_shapes h h' : more_frozen h h' → same_shapes h h'.
Proof.
  intros [Hlen Hnodes]. split; [done|]. intros a nd Ha.
  destruct (Hnodes a nd Ha) as (fz & Hfz & _). by exists fz.
Qed.

Ltac same_shape_op h Hs :=
  let a := fresh "a" in let E := fresh "E" in let fz := fresh "fz" in
  let nd := fresh "nd" in
  intros [| | | | |a]; try reflexivity; intros;
  cbv [isArray instanceofRegExp Is.objectLiteral Is.array kind_of array_length
       get_index object_keys get deref];
  destruct (h !! a) as [nd|] eqn:E;
  [destruct (proj2 Hs a nd E) as (fz & ->)|rewrite (same_shapes_None _ _ a Hs E)];
  reflexivity.

Section same_shapes.
Variables (h h' : heap).
Hypothesis Hs : same_shapes h h'.

Lemma isArray_same v : isArray h' v = isArray h v.
Proof. revert v. same_shape_op h Hs. Qed.

Lemma objectLiteral_same v : Is.objectLiteral h' v = Is.objectLiteral h v.
Proof. revert v. same_shape_op h Hs. Qed.

Lemma array_length_same v : array_length h' v = array_length h v.
Proof. revert v. same_shape_op h Hs. Qed.

Lemma get_index_same v i : get_index h' v i = get_index h v i.
Proof. revert v i. same_shape_op h Hs. Qed.

Lemma object_keys_same v : object_keys h' v = object_keys h v.
Proof. revert v. same_shape_op h Hs. Qed.

Lemma get_same v key : get h' v key = get h v key.
Proof. revert v key. same_shape_op h Hs. Qed.

Lemma equals_same_shapes n : ∀ a b, equals n h' a b = equals n h a b.
Proof.
  induction n as [|n IH]; intros a b; [done|]. simpl.
  rewrite !isArray_same, !array_length_same, !object_keys_same.
  destruct (strict_eq a b); [done|].
  destruct (_ || _); [done|]. destruct (negb _); [done|]. destruct (negb _); [done|].
  destruct (isArray h a) as [a1|]; [|done]. cbn [bind].
  destruct (isArray h b) as [a2|]; [|done]. cbn [bind].
  destruct (negb _); [done|]. destruct a1.
  - destruct (array_length h a) as [l1|]; [|done]. cbn [bind].
    destruct (array_length h b) as [l2|]; [|done]. cbn [bind].
    destruct (negb _); [done|]. apply all_pass_ext. intros i _.
    rewrite !get_index_same. destruct (get_index h a i); [|done]. cbn [bind].
    destruct (get_index h b i); [|done]. cbn [bind]. apply IH.
  - destruct (object_keys h a) as [k1|]; [|done]. cbn [bind].
    destruct (object_keys h b) as [k2|]; [|done]. cbn [bind].
    destruct (negb _); [done|]. apply all_pass_ext. intros key _.
    rewrite !get_same. destruct (get h a key); [|done]. cbn [bind].
    destruct (get h b key); [|done]. cbn [bind]. apply IH.
Qed.

End same_shapes.

(** ** [safeStringify] and the marks of [Object.freeze] *)

Section same_shapes_json.
Variables (h h' : heap).
Hypothesis Hs : same_shapes h h'.

Lemma safe_replacer_same seen key v :
  safe_replacer h' seen key v = safe_replacer h seen key v.
Proof.
  unfold safe_replacer.
  by rewrite (objectLiteral_same h h' Hs), (isArray_same h h' Hs).
Qed.

Lemma serialize_same n : ∀ stack seen key v,
  SerializeJSONProperty safe_replacer n h' stack seen key v
  = SerializeJSONProperty safe_replacer n h stack seen key v.
Proof.
  induction n as [|n IH]; intros stack seen key v; [done|].
  rewrite !SerializeJSONProperty_unfold, safe_replacer_same.
  destruct (safe_replacer h seen key v) as [[seen1 v1]|]; [|done]. cbn [bind].
  destruct v1 as [| | | | |a]; try done.
  unfold deref. destruct (h !! a) as [nd|] eqn:Ha.
  - destruct (proj2 Hs a nd Ha) as (fz & ->). cbn [bind shape].
    destruct (existsb _ _); [done|].
    destruct (shape nd) as [elems|p props|src].
    + erewrite forEach_ext; [done|]. intros acc i _. unfold json_array_body.
      rewrite (get_index_same h h' Hs).
      destruct (get_index h (VRef a) i); [|done]. cbn [bind]. by rewrite IH.
    + erewrite forEach_ext; [done|]. intros acc P _. unfold json_object_body.
      rewrite (get_same h h' Hs).
      destruct (get h (VRef a) P); [|done]. cbn [bind]. by rewrite IH.
    + erewrite forEach_ext; [done|]. intros acc P _. unfold json_object_body.
      rewrite (get_same h h' Hs).
      destruct (get h (VRef a) P); [|done]. cbn [bind]. by rewrite IH.
  - by rewrite (same_shapes_None _ _ a Hs Ha).
Qed.

End same_shapes_json.

(** ** [equals] on values that are not objects *)

(** X22: when one of its arguments is not an object, [equals] is [===]: no
    conversion takes place, [null] and [undefined] are equal to themselves
    only, and [NaN] is not equal to itself. *)
Theorem equals_primitives_strict n h a b :
  is_ref a && is_ref b = false →
  equals (S n) h a b = Ok (strict_eq a b).
Proof.
  intros Hab. simpl. destruct (strict_eq a b) eqn:Heq; [done|].
  destruct a as [| | | | |x], b as [| | | | |y]; try done.
Qed.

Lemma equals_primitives_strict_witness :
  equals 1 equals_heap (num 1) (VString "1") = Ok false
  ∧ equals 1 equals_heap VNull VUndefined = Ok false
  ∧ equals 1 equals_heap (VNumber NaN) (VNumber NaN) = Ok false.
Proof.
  split; [|split].
  - exact (equals_primitives_strict 0 equals_heap (num 1) (VString "1") eq_refl).
  - exact (equals_primitives_strict 0 equals_heap VNull VUndefined eq_refl).
  - exact (equals_primitives_strict 0 equals_heap (VNumber NaN) (VNumber NaN) eq_refl).
Defined.

(** * Further properties of [deepFreeze] *)

(** The run of [deepFreeze] on an object: it ends, adds marks only, and
    marks what can be reached through nodes that were not marked. *)
Lemma deepFreeze_run h r :
  heap_ok h = true → r < length h →
  ∃ fuel h',
    (∀ fuel', fuel ≤ fuel' → deepFreeze_loop fuel' h [VRef r] = Ok h')
    ∧ more_frozen h h'
    ∧ (∀ a, freeze_reach h r a → is_frozen h' a = true).
Proof.
  intros Hok Hr.
  destruct (deepFreeze_loop_terminates h r Hok (unfrozen_count h)
              (stale_count h [VRef r]) h [VRef r] (frz_inv_initial h r Hr)
              (Nat.le_refl _) (Nat.le_refl _))
    as (fuel & h' & Hrun & Hmf & _ & Hroot & Hclosed).
  destruct Hroot as [Hroot|Hroot]; [by apply elem_of_nil in Hroot|].
  exists fuel, h'. split; [done|]. split; [done|].
  intros a Hreach.
  assert (is_frozen h' a = true ∧ (a = r ∨ is_frozen h a = false)) as [? _]; [|done].
  induction Hreach as [|a nd c Hreach [IHf IHo] Ha Hc Hun].
  { split; [done|by left]. }
  split; [|by right].
  destruct (proj2 Hmf a nd Ha) as (fz & Ha' & _).
  unfold is_frozen in IHf. rewrite Ha' in IHf. simpl in IHf. subst fz.
  destruct (Hclosed a _ c Ha' eq_refl) as [?|Hnil];
    [|done|done|by apply elem_of_nil in Hnil].
  destruct IHo as [->|?]; [left|by right]. split; [done|apply not_elem_of_nil].
Qed.

(** X3: the marks that [deepFreeze] sets are invisible to [equals] and to
    [safeStringify]: after the call both answer on every argument as they
    did before it. *)
Theorem deepFreeze_keeps_answers h r :
  heap_ok h = true → r < length h →
  ∃ fuel h',
    (∀ fuel', fuel ≤ fuel' → deepFreeze fuel' h (VRef r) = Ok (h', VRef r))
    ∧ (∀ n a b, equals n h' a b = equals n h a b)
    ∧ (∀ n v, safeStringify n h' v = safeStringify n h v).
Proof.
  intros Hok Hr. destruct (deepFreeze_run h r Hok Hr) as (fuel & h' & Hrun & Hmf & _).
  apply more_frozen_same_shapes in Hmf.
  exists fuel, h'. split; [|split].
  - intros fuel' Hf. rewrite deepFreeze_ref. by rewrite (Hrun fuel' Hf).
  - intros n a b. by apply (equals_same_shapes h h' Hmf).
  - intros n v. unfold safeStringify, JSON_stringify. by rewrite (serialize_same h h' Hmf).
Qed.

Lemma deepFreeze_keeps_answers_witness :
  ∃ fuel h',
    deepFreeze fuel equals_heap (VRef 2) = Ok (h', VRef 2)
    ∧ equals 2 h' (VRef 2) (VRef 3) = equals 2 equals_heap (VRef 2) (VRef 3).
Proof.
  destruct (deepFreeze_keeps_answers equals_heap 2 eq_refl) as (fuel & h' & Hrun & Heq & _).
  { vm_compute. lia. }
  exists fuel, h'. split; [by apply Hrun|apply Heq].
Defined.

Lemma reach_freeze_reach h r a :
  (∀ x, x ≠ r → reach h r x → is_frozen h x = false) →
  reach h r a → freeze_reach h r a.
Proof.
  intros Hun. induction 1 as [|a nd c Hreach IH Ha Hc]; [constructor|].
  destruct (decide (c = r)) as [->|Hne]; [constructor|].
  eapply freeze_reach_step; [done..|]. apply Hun; [done|]. by eapply reach_step.
Qed.

(** X4: when no object that can be reached from the argument, the argument
    apart, was frozen before the call, [deepFreeze] freezes every object that
    can be reached from the argument. *)
Theorem deepFreeze_freezes_all_when_unfrozen h r :
  heap_ok h = true → r < length h →
  (∀ x, x ≠ r → reach h r x → is_frozen h x = false) →
  ∃ fuel h',
    (∀ fuel', fuel ≤ fuel' → deepFreeze fuel' h (VRef r) = Ok (h', VRef r))
    ∧ ∀ a, reach h r a → is_frozen h' a = true.
Proof.
  intros Hok Hr Hun.
  destruct (deepFreeze_run h r Hok Hr) as (fuel & h' & Hrun & _ & Hfrozen).
  exists fuel, h'. split.
  - intros fuel' Hf. rewrite deepFreeze_ref. by rewrite (Hrun fuel' Hf).
  - intros a Ha. by apply Hfrozen, reach_freeze_reach.
Qed.

Lemma deepFreeze_freezes_all_when_unfrozen_witness :
  ∃ fuel h',
    deepFreeze fuel shared_heap (VRef 0) = Ok (h', VRef 0)
    ∧ is_frozen h' 1 = true.
Proof.
  destruct (deepFreeze_freezes_all_when_unfrozen shared_heap 0 eq_refl)
    as (fuel & h' & Hrun & Hall).
  - vm_compute. lia.
  - intros x _ _. by destruct x as [|[|x]].
  - exists fuel, h'. split; [by apply Hrun|]. apply Hall.
    apply (reach_step _ _ 0 (object [("a", VRef 1); ("b", VRef 1)]));
      [constructor|reflexivity|]. 
    apply list_elem_of_here.
Defined.

(** ** Writing to what [deepFreeze] has frozen *)

Lemma set_frozen h a k v :
  is_frozen h a = true → k ≠ "__proto__" →
  set h (VRef a) k v = Err (Throw read_only_error).
Proof.
  unfold is_frozen, set, deref. destruct (h !! a) as [nd|]; [|done].
  simpl. intros -> Hk. apply String.eqb_neq in Hk.
  destruct (shape nd) as [elems|p props|src]; simpl; by rewrite Hk, ?andb_false_r.
Qed.

Lemma set_frozen_same h a k v h' :
  is_frozen h a = true → set h (VRef a) k v = Ok h' → h' = h.
Proof.
  unfold is_frozen, set, deref. destruct (h !! a) as [nd|]; [|done].
  simpl. intros ->. destruct (to_proto_setter _ _); [|done].
  destruct v; try done; by intros [= <-].
Qed.

Lemma assign_frozen h a s k ks v rest :
  is_frozen h a = true → object_keys h s = Ok (k :: ks) → k ≠ "__proto__" →
  get h s k = Ok v →
  assign h (VRef a) (s :: rest) = Err (Throw read_only_error).
Proof.
  intros Hfz Hkeys Hk Hget. unfold assign. cbn [forEach]. rewrite Hkeys.
  cbn [bind forEach]. rewrite Hget. cbn [bind]. by rewrite (set_frozen _ _ _ _ Hfz Hk).
Qed.

(** X5: after [deepFreeze], an assignment to a property of the argument, or
    of an object reached from it through objects that were not frozen
    before, throws, unless the key is [__proto__]; whatever the key, an
    assignment that returns has changed nothing (the setter of [__proto__]
    that the object inherits ignores a primitive, and throws nothing); and
    [assign] with such a destination throws as soon as the first source has
    a key other than [__proto__] to copy. *)
Theorem deepFreeze_then_write_throws h r :
  heap_ok h = true → r < length h →
  ∃ fuel h',
    (∀ fuel', fuel ≤ fuel' → deepFreeze fuel' h (VRef r) = Ok (h', VRef r))
    ∧ (∀ a k v, freeze_reach h r a → k ≠ "__proto__" →
         set h' (VRef a) k v = Err (Throw read_only_error))
    ∧ (∀ a k v h'', freeze_reach h r a → set h' (VRef a) k v = Ok h'' → h'' = h')
    ∧ (∀ a s k ks v rest, freeze_reach h r a →
         object_keys h' s = Ok (k :: ks) → k ≠ "__proto__" → get h' s k = Ok v →
         assign h' (VRef a) (s :: rest) = Err (Throw read_only_error)).
Proof.
  intros Hok Hr.
  destruct (deepFreeze_run h r Hok Hr) as (fuel & h' & Hrun & _ & Hfrozen).
  exists fuel, h'. split; [|split; [|split]].
  - intros fuel' Hf. rewrite deepFreeze_ref. by rewrite (Hrun fuel' Hf).
  - intros a k v Ha. by apply set_frozen, Hfrozen.
  - intros a k v h'' Ha. by apply set_frozen_same, Hfrozen.
  - intros a s k ks v rest Ha. by apply assign_frozen, Hfrozen.
Qed.

Lemma deepFreeze_then_write_throws_witness :
  ∃ fuel h',
    deepFreeze fuel shared_heap (VRef 0) = Ok (h', VRef 0)
    ∧ set h' (VRef 0) "a" VNull = Err (Throw read_only_error).
Proof.
  destruct (deepFreeze_then_write_throws shared_heap 0 eq_refl)
    as (fuel & h' & Hrun & Hset & _).
  - vm_compute. lia.
  - exists fuel, h'. split; [by apply Hrun|]. apply Hset; [constructor|discriminate].
Defined.

(** ** What [deepFreeze] leaves alone *)

Section freeze_within.
Variables (h : heap) (r : addr).
Hypothesis Hok : heap_ok h = true.

Lemma deepFreeze_loop_within fuel : ∀ hc q h',
  frz_inv h r hc q →
  (∀ v, v ∈ q → ∃ a, v = VRef a ∧ reach h r a) →
  (∀ a, is_frozen hc a = true → is_frozen h a = true ∨ reach h r a) →
  deepFreeze_loop fuel hc q = Ok h' →
  ∀ a, is_frozen h' a = true → is_frozen h a = true ∨ reach h r a.
Proof.
  induction fuel as [|fuel IH]; intros hc q h' Hinv Hq Hfz Hrun; [done|].
  destruct q as [|v q]; [by injection Hrun as <-|].
  destruct (Hq v) as (a & -> & Hreach); [by left|].
  pose proof Hinv as (Hmf & Hrefs & _).
  destruct (Hrefs (VRef a)) as (a' & [= <-] & Ha); [by left|].
  destruct (lookup_lt_is_Some_2 h a Ha) as [nd0 Hnd0].
  destruct (proj2 Hmf a nd0 Hnd0) as (fz & Hnd & _).
  destruct (more_frozen_node h Hok hc a _ Hmf Hnd) as (_ & _ & _ & Hnok).
  rewrite (deepFreeze_loop_step fuel hc a _ q Hnd Hnok) in Hrun. cbn [shape] in Hrun.
  eapply IH; [ | | |exact Hrun].
  - by apply (frz_inv_step h r Hok hc a _ q Hinv Hnd).
  - intros v [Hv|Hv]%elem_of_app.
    + apply Hq. by right.
    + apply elem_of_filter_bool in Hv as [Hv Hneeds].
      apply needs_freeze_ref in Hneeds as (c & -> & _).
      exists c. split; [done|]. by eapply reach_step.
  - intros b. rewrite is_frozen_insert by (rewrite (proj1 Hmf); done).
    intros [Hb|Hb%Nat.eqb_eq]%orb_true_iff; [by apply Hfz|]. subst b. by right.
Qed.

End freeze_within.

(** X6: [deepFreeze] freezes nothing outside the graph of its argument: an
    object that is frozen after the call was frozen before it or can be
    reached from the argument. *)
Theorem deepFreeze_freezes_only_reachable fuel h r h' v :
  heap_ok h = true → r < length h →
  deepFreeze fuel h (VRef r) = Ok (h', v) →
  v = VRef r ∧ ∀ a, is_frozen h' a = true → is_frozen h a = true ∨ reach h r a.
Proof.
  intros Hok Hr. rewrite deepFreeze_ref.
  intros (h1 & Hrun & [= <- <-])%bind_Ok. split; [done|].
  eapply (deepFreeze_loop_within h r Hok fuel h [VRef r]); [| | |exact Hrun].
  - by apply frz_inv_initial.
  - intros v ->%list_elem_of_singleton. exists r. split; [done|constructor].
  - intros a Ha. by left.
Qed.

Lemma deepFreeze_freezes_only_reachable_witness :
  is_frozen twins_heap 1 = true ∨ reach twins_heap 1 1.
Proof.
  assert (1 < length twins_heap) as Hr by (vm_compute; lia).
  exact (proj2 (deepFreeze_freezes_only_reachable 3 twins_heap 1 _ _
                  eq_refl Hr eq_refl) 1 eq_refl).
Defined.

(** * Further properties of [deepClone] *)

Lemma set_Ok h a key v h' :
  set h (VRef a) key v = Ok h' → h' = h ∨ ∃ k, h' = <[a:=Node k false]> h.
Proof.
  unfold set. intros (nd & _ & H)%bind_Ok. destruct (frozen nd).
  - destruct (to_proto_setter _ _); [|done]. left.
    destruct v; try done; by injection H as <-.
  - apply bind_Ok in H as (k & _ & [= <-]). right. by exists k.
Qed.

Lemma set_prefix h0 h a key v h' :
  set h (VRef a) key v = Ok h' → h0 `prefix_of` h → length h0 ≤ a →
  h0 `prefix_of` h'.
Proof.
  intros [->|(k & ->)]%set_Ok Hpre Ha; [done|]. by apply prefix_insert_ge.
Qed.

(** [hi] extends [h] by nodes that are not frozen. *)
Lemma fresh_unfrozen_insert (h hi : heap) r k :
  h `prefix_of` hi → length h ≤ r →
  (∀ b nd, length h ≤ b → hi !! b = Some nd → frozen nd = false) →
  h `prefix_of` <[r:=Node k false]> hi
  ∧ ∀ b nd, length h ≤ b → <[r:=Node k false]> hi !! b = Some nd → frozen nd = false.
Proof.
  intros Hpre Hr Hfresh. split; [by apply prefix_insert_ge|].
  intros b nd Hb. destruct (decide (b = r)) as [->|Hne].
  - intros Hnd. pose proof (lookup_lt_Some _ _ _ Hnd) as Hlt.
    rewrite length_insert in Hlt. rewrite list_lookup_insert_eq in Hnd by done.
    by injection Hnd as <-.
  - rewrite list_lookup_insert_ne by done. by apply Hfresh.
Qed.

Lemma deepClone_fresh fuel : ∀ h x h' y,
  deepClone fuel h x = Ok (h', y) →
  h `prefix_of` h'
  ∧ ∀ b nd, length h ≤ b → h' !! b = Some nd → frozen nd = false.
Proof.
  induction fuel as [|n IH]; intros h x h' y; [done|]. rewrite deepClone_unfold.
  assert (∀ b nd, length h ≤ b → h !! b = Some nd → frozen nd = false) as Hnone.
  { intros b nd Hb Hnd%lookup_lt_Some. lia. }
  destruct (_ || _); [by intros [= <- <-]|].
  intros (re & _ & H)%bind_Ok. destruct re; [by injection H as <- <-|].
  apply bind_Ok in H as (arr & _ & H). cbn zeta in H.
  apply bind_Ok in H as (keys & _ & H). apply bind_Ok in H as (h2 & Hloop & [= <- <-]).
  simpl fst in Hloop. simpl snd in Hloop.
  apply (forEach_invariant
           (λ hi, h `prefix_of` hi
                  ∧ ∀ b nd, length h ≤ b → hi !! b = Some nd → frozen nd = false)
           keys _ _ _) in Hloop; [done| |].
  - intros hi key h3 _ [Hpre Hfresh]. rewrite clone_body_value.
    intros (v & _ & H)%bind_Ok. apply bind_Ok in H as ([h4 c] & Hc & Hset).
    assert (h `prefix_of` h4
            ∧ ∀ b nd, length h ≤ b → h4 !! b = Some nd → frozen nd = false)
      as [Hpre4 Hfresh4].
    { unfold clone_value in Hc. destruct (_ && _); [|by injection Hc as <- <-].
      apply IH in Hc as [Hpre4 Hfresh4]. split; [by etrans|].
      intros b nd Hb Hnd. destruct (decide (b < length hi)) as [Hlt|Hge].
      - apply (Hfresh b); [done|].
        destruct (lookup_lt_is_Some_2 hi b Hlt) as [nd' Hnd'].
        rewrite (prefix_lookup_Some _ _ _ _ Hnd' Hpre4) in Hnd. congruence.
      - apply (Hfresh4 b); [lia|done]. }
    apply set_Ok in Hset as [->|(k & ->)]; [done|].
    by apply fresh_unfrozen_insert.
  - split; [apply prefix_snoc|]. intros b nd Hb.
    destruct (decide (b = length h)) as [->|Hne].
    + rewrite list_lookup_middle by done. by intros [= <-].
    + intros Hnd. pose proof (lookup_lt_Some _ _ _ Hnd) as Hlt.
      rewrite length_app in Hlt. simpl in Hlt. lia.
Qed.

(** X7: [deepClone] creates objects that are not frozen, also from frozen
    ones: on an acyclic value it returns a value in which every array and
    plain object can be written to, and, as it never writes to an object of
    its argument, a frozen argument does not make it throw. *)
Theorem deepClone_result_unfrozen n h x :
  heap_ok h = true → depth_le n h x = true →
  ∃ h' y,
    deepClone (S n) h x = Ok (h', y)
    ∧ ∀ path b, walk h' y path = Some (VRef b) → container h' b = true →
        is_frozen h' b = false.
Proof.
  intros Hok Hdepth.
  destruct (deepClone_copy h (heap_ok_closed _ Hok) n h x)
    as (h' & y & Hrun & Hpre & Hcopy); [done|done|by apply heap_ok_no_proto_key|].
  exists h', y. split; [done|]. intros path b Hwalk Hcont.
  destruct (copy_of_walk n h h' _ _ x y Hpre (Nat.le_refl _) Hcopy path b Hwalk)
    as (a & _ & Hb).
  rewrite Hcont in Hb. destruct Hb as [_ Hb].
  apply deepClone_fresh in Hrun as [_ Hfresh].
  unfold is_frozen. destruct (h' !! b) as [nd|] eqn:Hnd; [|done]. by eapply Hfresh.
Qed.

Lemma deepClone_result_unfrozen_witness :
  ∃ h' y,
    deepClone 4 frozen_parent_heap (VRef 0) = Ok (h', y)
    ∧ (walk h' y ["p"] = Some (VRef 4) → container h' 4 = true →
       is_frozen h' 4 = false).
Proof.
  destruct (deepClone_result_unfrozen 3 frozen_parent_heap (VRef 0) eq_refl eq_refl)
    as (h' & y & Hrun & Hwalk).
  exists h', y. split; [exact Hrun|]. apply Hwalk.
Defined.

(** ** Cyclic values *)

Lemma forEach_fails {A St} (P : St → Prop) (l : list A) (f : St → A → result St) x :
  x ∈ l →
  (∀ s y s', y ∈ l → P s → f s y = Ok s' → P s') →
  (∀ s s', P s → f s x ≠ Ok s') →
  ∀ s s', P s → forEach l f s ≠ Ok s'.
Proof.
  induction l as [|y l IH]; intros Hx Hstep Hfail s s' Hs; [by apply elem_of_nil in Hx|].
  simpl. destruct (f s y) as [s1|] eqn:Hy; [|done]. simpl.
  apply elem_of_cons in Hx as [->|Hx]; [by apply Hfail in Hy|].
  apply IH; [done| |done|].
  - intros s2 z s3 Hz. apply Hstep. by right.
  - eapply Hstep; [|done..]. by left.
Qed.

Lemma reach_first h x y :
  reach h x y →
  x = y ∨ ∃ nd c, h !! x = Some nd ∧ VRef c ∈ children (shape nd) ∧ reach h c y.
Proof.
  induction 1 as [|b nd y Hreach IH Hb Hy]; [by left|]. right.
  destruct IH as [->|(nd' & c & Hx & Hc & Hcb)].
  - exists nd, y. split; [done|]. split; [done|constructor].
  - exists nd', c. split; [done|]. split; [done|]. by eapply reach_step.
Qed.

(** The key under which a child of a node is found. *)
Lemma child_key h a nd c :
  heap_ok h = true → h !! a = Some nd → c ∈ children (shape nd) →
  ∃ key, key ∈ own_keys (shape nd) ∧ get_kind (shape nd) key = Ok c.
Proof.
  intros Hok Ha Hc. pose proof (heap_ok_lookup _ _ _ Hok Ha) as Hnok.
  destruct nd as [[elems|p props|src] fz]; simpl in *.
  - apply list_elem_of_lookup in Hc as [i Hi]. exists (key_of_index i). split.
    + apply list_elem_of_fmap. exists i. split; [done|].
      apply list_elem_of_In, in_seq. apply lookup_lt_Some in Hi. lia.
    + by rewrite index_of_key_of_index, Hi.
  - apply list_elem_of_fmap in Hc as ([k v] & -> & Hkv). exists k. split.
    + apply list_elem_of_fmap. by exists (k, v).
    + destruct (node_ok_prop h p props fz k v Hnok Hkv) as (_ & _ & ->). done.
  - by apply elem_of_nil in Hc.
Qed.

Section cycle.
Variable h : heap.
Variable on_cycle : addr → Prop.
Hypothesis Hok : heap_ok h = true.
Hypothesis Hnext : ∀ x, on_cycle x →
  ∃ nd c, h !! x = Some nd ∧ VRef c ∈ children (shape nd) ∧ on_cycle c.

Lemma deepClone_on_cycle fuel : ∀ hi x r,
  h `prefix_of` hi → on_cycle x → deepClone fuel hi (VRef x) ≠ Ok r.
Proof.
  induction fuel as [|n IH]; intros hi x r Hpre Hx; [done|].
  destruct (Hnext x Hx) as (nd & c & Hnd & Hc & Hcyc).
  destruct (child_key h x nd (VRef c) Hok Hnd Hc) as (key & Hkey & Hget).
  pose proof (prefix_lookup_Some _ _ _ _ Hnd Hpre) as Hnd'.
  rewrite deepClone_unfold. cbn [truthy typeof negb orb]. 
  unfold instanceofRegExp, isArray, kind_of, deref. rewrite Hnd'. cbn [bind].
  assert (match shape nd with RegExp _ => false | _ => true end = true) as Hcont.
  { destruct (shape nd); [done..|by apply elem_of_nil in Hc]. }
  destruct (match shape nd with RegExp _ => true | _ => false end) eqn:Hre;
    [by destruct (shape nd)|]. cbn zeta.
  set (k0 := if match shape nd with Array _ => true | _ => false end
             then Array [] else Plain true []).
  unfold object_keys, deref. simpl fst. simpl snd.
  rewrite (lookup_app_l_Some _ _ _ _ Hnd'). cbn [bind].
  intros (h2 & Hloop & _)%bind_Ok. revert Hloop.
  apply (forEach_fails (λ hj, hi `prefix_of` hj) _ _ key Hkey).
  - intros hj key' h3 _ Hj. rewrite clone_body_value.
    intros (v & _ & H)%bind_Ok. apply bind_Ok in H as ([h4 c'] & Hc' & Hset).
    apply (set_prefix hi) in Hset; [done| |done].
    unfold clone_value in Hc'. destruct (_ && _); [|by injection Hc' as <- <-].
    apply deepClone_fresh in Hc' as [? _]. by etrans.
  - intros hj h3 Hj. unfold clone_body, get, deref.
    rewrite (prefix_lookup_Some _ _ _ _ Hnd' Hj). cbn [bind]. rewrite Hget.
    cbn [bind truthy typeof andb]. 
    intros ([h4 c'] & Hc' & _)%bind_Ok. revert Hc'. apply IH; [|done].
    by repeat (etrans; [done|]).
  - apply prefix_snoc.
Qed.

End cycle.

(** X8: [deepClone] has no check for cycles: on an object that can be
    reached from one of its own properties it returns no result, however
    much recursion it is allowed. *)
Theorem deepClone_cyclic_never_returns h a nd c :
  heap_ok h = true →
  h !! a = Some nd → VRef c ∈ children (shape nd) → reach h c a →
  ∀ fuel r, deepClone fuel h (VRef a) ≠ Ok r.
Proof.
  intros Hok Ha Hc Hback fuel r.
  apply (deepClone_on_cycle h (λ x, reach h x a) Hok); [|done|constructor].
  intros x [->|(nd' & c' & Hx & Hc' & Hrest)]%reach_first.
  - by exists nd, c.
  - by exists nd', c'.
Qed.

Lemma deepClone_cyclic_never_returns_witness :
  deepClone 5 self_heap (VRef 0) ≠ Ok (self_heap, VRef 0).
Proof.
  apply (deepClone_cyclic_never_returns self_heap 0 (object [("self", VRef 0)]) 0
           eq_refl eq_refl).
  - apply list_elem_of_here.
  - constructor.
Defined.

(** * Further properties of [distinct] *)

(** The loop of [distinct] when no value differs. *)
Lemma distinct_all_equal fuel (base target res : value) hi keys :
  (∀ k, k ∈ keys → ∃ bv tv, get hi base k = Ok bv ∧ get hi target k = Ok tv
                            ∧ equals fuel hi bv tv = Ok true) →
  forEach keys (distinct_body fuel base target res) hi = Ok hi.
Proof.
  induction keys as [|k keys IH]; intros Hall; [done|]. simpl.
  destruct (Hall k) as (bv & tv & Hb & Ht & Heq); [by left|].
  unfold distinct_body at 1. rewrite Hb, Ht. cbn [bind]. rewrite Heq. cbn [bind negb].
  apply IH. intros k' Hk'. apply Hall. by right.
Qed.

(** X9: [distinct] finds no difference between an object and its
    [deepClone]: for an acyclic plain object in which no number is [NaN] and
    no object owns a property named [__proto__], the difference of the
    object and its clone is the empty mapping, in both directions. *)
Theorem distinct_of_clone_empty n h a p props fz :
  heap_closed h = true → h !! a = Some (Node (Plain p props) fz) →
  depth_le (S n) h (VRef a) = true → no_nan (S n) h (VRef a) = true →
  no_proto_key (S n) h (VRef a) = true →
  ∃ h1 y,
    deepClone (S (S n)) h (VRef a) = Ok (h1, y)
    ∧ distinct (S n) h1 (VRef a) y
      = Ok (h1 ++ [Node (Plain false []) false], VRef (length h1))
    ∧ distinct (S n) h1 y (VRef a)
      = Ok (h1 ++ [Node (Plain false []) false], VRef (length h1)).
Proof.
  intros Hok Ha Hdepth Hnan Hnp.
  destruct (deepClone_copy h Hok (S n) h (VRef a)) as (h1 & y & Hrun & Hpre & Hcopy);
    [done..|].
  exists h1, y. split; [done|].
  cbn [copy_of] in Hcopy. rewrite Ha in Hcopy. cbn [shape] in Hcopy.
  destruct Hcopy as (b & qs & -> & Hb & Hnode & Hall).
  set (h2 := h1 ++ [Node (Plain false []) false]).
  assert (h1 `prefix_of` h2) as Hpre2 by apply prefix_snoc.
  assert (h `prefix_of` h2) as Hpre02 by (by etrans).
  pose proof (prefix_lookup_Some _ _ _ _ Ha Hpre02) as Ha2.
  pose proof (prefix_lookup_Some _ _ _ _ Hnode Hpre2) as Hb2.
  cbn [no_nan] in Hnan. rewrite Ha in Hnan. cbn [shape children] in Hnan.
  assert (∀ k, k ∈ map fst props →
            ∃ v c, assoc k props = Some v ∧ assoc k qs = Some c
                   ∧ equals (S n) h2 v c = Ok true) as Hkeys.
  { intros k (v & Hv & Hin)%assoc_elem.
    destruct (Forall2_assoc_l _ _ _ _ _ Hall Hv) as (c & Hc & Hvc).
    exists v, c. split; [done|]. split; [done|].
    apply (equals_copy n h h2 (length h) (S (length h1)));
      [done|done| |].
    - eapply copy_of_prefix; [exact Hvc|done|done|lia].
    - eapply no_nan_elem; [exact Hnan|]. apply list_elem_of_fmap. by exists (k, v). }
  unfold distinct. cbn [alloc truthy negb orb]. fold h2.
  unfold object_keys, deref. rewrite Ha2, Hb2. cbn [bind shape own_keys].
  fold (distinct_body (S n) (VRef a) (VRef b) (VRef (length h1))).
  fold (distinct_body (S n) (VRef b) (VRef a) (VRef (length h1))).
  split.
  - rewrite distinct_all_equal; [done|].
    intros k Hk. rewrite <- (Forall2_keys _ _ _ Hall) in Hk.
    destruct (Hkeys k Hk) as (v & c & Hv & Hc & Heq). exists v, c.
    unfold get, deref. rewrite Ha2, Hb2. cbn [bind shape get_kind].
    by rewrite Hv, Hc.
  - rewrite distinct_all_equal; [done|].
    intros k Hk. destruct (Hkeys k Hk) as (v & c & Hv & Hc & Heq). exists c, v.
    unfold get, deref. rewrite Ha2, Hb2. cbn [bind shape get_kind].
    rewrite Hv, Hc. by rewrite equals_sym.
Qed.

Lemma distinct_of_clone_empty_witness :
  ∃ h1 y,
    deepClone 2 equals_heap (VRef 2) = Ok (h1, y)
    ∧ distinct 1 h1 (VRef 2) y
      = Ok (h1 ++ [Node (Plain false []) false], VRef (length h1)).
Proof.
  destruct (distinct_of_clone_empty 0 equals_heap 2 true [("a", num 1); ("b", num 2)]
              false eq_refl eq_refl eq_refl eq_refl eq_refl) as (h1 & y & Hrun & Hd & _).
  by exists h1, y.
Defined.

Lemma equals_self n h v : equals (S n) h v v = Ok (negb (is_nan v)).
Proof.
  destruct (is_nan v) eqn:Hv.
  - by destruct v as [| | |[]| |].
  - simpl. rewrite strict_eq_refl; [done|]. by intros ->.
Qed.

(** X10: the difference of a plain object and itself holds exactly the
    properties whose value is [NaN], the only value that [equals] does not
    find equal to itself. *)
Theorem distinct_self_keeps_nan n h b p props fz :
  heap_ok h = true → h !! b = Some (Node (Plain p props) fz) →
  depth_le (S n) h (VRef b) = true →
  ∃ h',
    distinct (S n) h (VRef b) (VRef b) = Ok (h', VRef (length h))
    ∧ h `prefix_of` h'
    ∧ h' !! length h
      = Some (Node (Plain false (List.filter (λ kv, is_nan (snd kv)) props)) false).
Proof.
  intros Hok Hb Hdepth.
  destruct (distinct_loop n h b b p p fz fz props props Hok Hb Hb Hdepth Hdepth
              (length h) (Nat.le_refl _) props [] (h ++ [Node (Plain false []) false])
              eq_refl (prefix_snoc _ _)) as (h' & Hloop & Hpre & Hres).
  { by apply list_lookup_middle. }
  exists h'. unfold distinct. cbn [alloc truthy negb orb].
  unfold object_keys, deref. rewrite (lookup_app_l_Some _ _ _ _ Hb).
  cbn [bind shape own_keys].
  fold (distinct_body (S n) (VRef b) (VRef b) (VRef (length h))).
  rewrite Hloop. cbn [bind]. split; [done|]. split; [done|].
  rewrite Hres. do 3 f_equal. apply List.filter_ext_in.
  intros [k v] Hkv%list_elem_of_In. unfold differs. cbn [fst snd].
  destruct (node_ok_prop h p props fz k v (heap_ok_lookup _ _ _ Hok Hb) Hkv)
    as (_ & _ & ->).
  cbn [default]. rewrite equals_self. by destruct (is_nan v).
Qed.

Lemma distinct_self_keeps_nan_witness :
  ∃ h',
    distinct 1 nan_object_heap (VRef 0) (VRef 0) = Ok (h', VRef 1)
    ∧ h' !! 1 = Some (Node (Plain false [("a", VNumber NaN)]) false).
Proof.
  destruct (distinct_self_keeps_nan 0 nan_object_heap 0 true
              [("a", VNumber NaN); ("b", num 1)] false eq_refl eq_refl eq_refl)
    as (h' & Hrun & _ & Hres).
  by exists h'.
Defined.

(** * Further properties of [cloneAndChange] *)

(** A value that is not an object is returned, or replaced, without a
    change of the heap. *)
Lemma cloneAndChange_prim n changer v st :
  is_ref v = false →
  ∃ st' c, _cloneAndChange (S n) changer v st = Ok (st', c)
           ∧ c_heap st' = c_heap st.
Proof.
  intros Hv. rewrite cloneAndChange_unfold.
  destruct (loose_null v); [by eexists _, _|].
  destruct (negb _); [by eexists _, _|].
  destruct v; try done; by eexists _, _.
Qed.

Section array_cycle.
Variables (h : heap) (changer : value → value) (a i : nat).
Variables (elems : list value) (fz : bool).
Hypothesis Ha : h !! a = Some (Node (Array elems) fz).
Hypothesis Hi : elems !! i = Some (VRef a).
Hypothesis Hprims : ∀ j v, j < i → elems !! j = Some v → is_ref v = false.
Hypothesis Hchanger : changer (VRef a) = VUndefined.

Lemma array_cycle_loop n r1 :
  (∀ st, h `prefix_of` c_heap st →
         _cloneAndChange n changer (VRef a) st = Err OutOfFuel) →
  length h ≤ r1 →
  ∀ d j s, i = j + d → h `prefix_of` c_heap s →
    (∃ partial, c_heap s !! r1 = Some (Node (Array partial) false)) →
    forEach (seq j (length elems - j)) (array_body n changer (VRef a) (VRef r1)) s
    = Err OutOfFuel.
Proof.
  intros IH Hr1. induction d as [|d IHd]; intros j s Hj Hpre Hr.
  - assert (j = i) as -> by lia. pose proof (lookup_lt_Some _ _ _ Hi) as Hlt.
    replace (length elems - i) with (S (length elems - S i)) by lia. cbn [seq forEach].
    unfold array_body at 1, get_index, deref.
    rewrite (prefix_lookup_Some _ _ _ _ Ha Hpre). cbn [bind shape]. rewrite Hi.
    cbn [default]. by rewrite IH.
  - pose proof (lookup_lt_Some _ _ _ Hi) as Hlt.
    replace (length elems - j) with (S (length elems - S j)) by lia. cbn [seq forEach].
    destruct (lookup_lt_is_Some_2 elems j) as [v Hv]; [lia|].
    unfold array_body at 1, get_index, deref.
    rewrite (prefix_lookup_Some _ _ _ _ Ha Hpre). cbn [bind shape]. rewrite Hv.
    cbn [default id]. destruct n as [|n]; [done|].
    destruct (cloneAndChange_prim n changer v s) as (s' & c & -> & Hheap).
    { apply (Hprims j); [lia|done]. }
    cbn [bind]. destruct Hr as [partial Hr]. unfold push, deref.
    rewrite Hheap, Hr. cbn [bind shape frozen].
    apply IHd; [lia| |].
    + cbn [with_heap c_heap]. by apply prefix_insert_ge.
    + cbn [with_heap c_heap]. eexists. apply list_lookup_insert_eq.
      by eapply lookup_lt_Some.
Qed.

Lemma array_cycle fuel : ∀ st,
  h `prefix_of` c_heap st → _cloneAndChange fuel changer (VRef a) st = Err OutOfFuel.
Proof.
  induction fuel as [|n IH]; intros st Hpre; [done|].
  rewrite cloneAndChange_unfold. cbn [loose_null is_null is_undefined orb].
  rewrite Hchanger. cbn [typeof negb]. 
  replace (String.eqb "undefined" "undefined") with true by done. cbn [negb].
  unfold Is.array, isArray, kind_of, deref. cbn [record_call c_heap].
  rewrite (prefix_lookup_Some _ _ _ _ Ha Hpre). cbn [bind shape alloc fst snd].
  unfold array_length, deref.
  rewrite (lookup_app_l_Some _ _ _ _ (prefix_lookup_Some _ _ _ _ Ha Hpre)).
  cbn [bind shape].
  rewrite <- (Nat.sub_0_r (length elems)) at 1.
  rewrite (array_cycle_loop n (length (c_heap st)) IH) with (d := i);
    [done| |by rewrite Nat.add_0_l| |].
  - by apply prefix_length.
  - cbn [with_heap c_heap]. etrans; [done|apply prefix_snoc].
  - cbn [with_heap c_heap]. exists []. by apply list_lookup_middle.
Qed.

End array_cycle.

(** X11: the check of [cloneAndChange] for recursive data covers plain
    objects only: on an array that contains itself, behind elements that are
    not objects, and that [changer] does not replace, [cloneAndChange] does
    not throw its error and returns no result, however much recursion it is
    allowed. *)
Theorem cloneAndChange_array_cycle_unchecked h changer a i elems fz :
  h !! a = Some (Node (Array elems) fz) → elems !! i = Some (VRef a) →
  (∀ j v, j < i → elems !! j = Some v → is_ref v = false) →
  changer (VRef a) = VUndefined →
  ∀ fuel, cloneAndChange fuel h (VRef a) changer = Err OutOfFuel.
Proof.
  intros Ha Hi Hprims Hchanger fuel. unfold cloneAndChange.
  by apply (array_cycle h changer a i elems fz).
Qed.

Lemma cloneAndChange_array_cycle_unchecked_witness :
  cloneAndChange 5 self_array_heap (VRef 0) no_change = Err OutOfFuel.
Proof.
  apply (cloneAndChange_array_cycle_unchecked self_array_heap no_change 0 1
           [num 1; VRef 0] false eq_refl eq_refl); [|reflexivity].
  intros [|j] v Hj; [by intros [= <-]|lia].
Defined.

(** * Further properties of [safeStringify] *)

Lemma safe_replacer_grows h seen key v seen1 v1 :
  safe_replacer h seen key v = Ok (seen1, v1) → seen_grows seen seen1.
Proof.
  unfold safe_replacer. intros (ol & _ & H)%bind_Ok.
  apply bind_Ok in H as (cont & _ & H). destruct cont.
  - destruct (includes seen v); injection H as <- <-;
      [apply seen_grows_refl|apply seen_grows_snoc].
  - injection H as <- <-. apply seen_grows_refl.
Qed.

(** The array [seen] only grows. *)
Lemma serialize_grows h n : ∀ stack seen key v seen' out,
  SerializeJSONProperty safe_replacer n h stack seen key v = Ok (seen', out) →
  seen_grows seen seen'.
Proof.
  induction n as [|n IH]; intros stack seen key v seen' out; [done|].
  rewrite SerializeJSONProperty_unfold.
  intros ([seen1 v1] & Hrep%safe_replacer_grows & H)%bind_Ok.
  assert (∀ {A} (l : list A) (body : list value * list string → A
                                       → result (list value * list string)),
            (∀ acc x acc', body acc x = Ok acc' → seen_grows (fst acc) (fst acc')) →
            ∀ acc', forEach l body (seen1, []) = Ok acc' →
                    seen_grows seen (fst acc')) as Hloop.
  { intros A l body Hbody acc' Hrun.
    apply (forEach_invariant (λ acc : list value * list string,
                                seen_grows seen (fst acc)) l _ _ _) in Hrun; [done| |done].
    intros acc x acc1 _ Hacc Hx. eapply seen_grows_trans; [done|]. by eapply Hbody. }
  destruct v1 as [| | | | |a]; try (by injection H as <- <-).
  apply bind_Ok in H as (nd & _ & H). destruct (existsb _ _); [done|].
  destruct (shape nd) as [elems|p props|src];
    apply bind_Ok in H as ([st' partial] & Hrun & [= <- <-]);
    apply Hloop in Hrun; try done.
  - intros acc x acc'. unfold json_array_body.
    intros (e & _ & H)%bind_Ok. apply bind_Ok in H as ([s' strP] & Hs & [= <-]).
    by eapply IH.
  - intros acc x acc'. unfold json_object_body.
    intros (e & _ & H)%bind_Ok. apply bind_Ok in H as ([s' strP] & Hs & [= <-]).
    by eapply IH.
  - intros acc x acc'. unfold json_object_body.
    intros (e & _ & H)%bind_Ok. apply bind_Ok in H as ([s' strP] & Hs & [= <-]).
    by eapply IH.
Qed.

(** An array or plain object that has been serialized has been seen. *)
Lemma serialize_adds h n stack seen key b seen' out :
  b < length h → container h b = true →
  SerializeJSONProperty safe_replacer n h stack seen key (VRef b) = Ok (seen', out) →
  includes seen' (VRef b) = true.
Proof.
  intros Hb Hc. destruct n as [|n]; [done|].
  destruct (includes seen (VRef b)) eqn:Hseen.
  { intros Hrun%serialize_grows. by apply Hrun. }
  rewrite SerializeJSONProperty_unfold, safe_replacer_ref by done.
  rewrite Hc, Hseen. cbn [bind].
  intros (nd & _ & H)%bind_Ok. destruct (existsb _ _); [done|].
  assert (includes (seen ++ [VRef b]) (VRef b) = true) as Hin.
  { rewrite includes_snoc. simpl. by rewrite Nat.eqb_refl, orb_true_r. }
  assert (∀ {A} (l : list A) (body : list value * list string → A
                                       → result (list value * list string)),
            (∀ acc x acc', body acc x = Ok acc' → seen_grows (fst acc) (fst acc')) →
            ∀ acc', forEach l body (seen ++ [VRef b], []) = Ok acc' →
                    includes (fst acc') (VRef b) = true) as Hloop.
  { intros A l body Hbody acc' Hrun.
    apply (forEach_invariant (λ acc : list value * list string,
                                includes (fst acc) (VRef b) = true) l _ _ _) in Hrun;
      [done| |done].
    intros acc x acc1 _ Hacc Hx. by eapply Hbody. }
  destruct (shape nd) as [elems|p props|src];
    apply bind_Ok in H as ([st' partial] & Hrun & [= <- <-]);
    apply Hloop in Hrun; try done.
  - intros acc x acc'. unfold json_array_body.
    intros (e & _ & H)%bind_Ok. apply bind_Ok in H as ([s' strP] & Hs & [= <-]).
    by eapply serialize_grows.
  - intros acc x acc'. unfold json_object_body.
    intros (e & _ & H)%bind_Ok. apply bind_Ok in H as ([s' strP] & Hs & [= <-]).
    by eapply serialize_grows.
  - intros acc x acc'. unfold json_object_body.
    intros (e & _ & H)%bind_Ok. apply bind_Ok in H as ([s' strP] & Hs & [= <-]).
    by eapply serialize_grows.
Qed.

(** X12: [safeStringify] marks every repeated object, not only the
    circular ones: when two properties of a plain object hold the same array
    or plain object, the second one is printed as [[Circular]]. *)
Theorem safeStringify_marks_shared h a p pre k1 post k2 b fz :
  heap_ok h = true →
  h !! a = Some (Node (Plain p (pre ++ (k1, VRef b) :: post)) fz) →
  (k2, VRef b) ∈ post → container h b = true →
  ∃ s, safeStringify (S (length h)) h (VRef a) = Ok (VString s)
       ∧ substring_of (QuoteJSONString k2 +:+ ":" +:+ QuoteJSONString "[Circular]") s.
Proof.
  intros Hok Ha Hk2 Hcb.
  set (props := pre ++ (k1, VRef b) :: post) in *.
  assert (a < length h) as Halt by (by eapply lookup_lt_Some).
  assert (b < length h) as Hblt.
  { unfold container in Hcb. destruct (h !! b) eqn:Hb; [|done]. by eapply lookup_lt_Some. }
  assert (container h a = true) as Hca by (unfold container; by rewrite Ha).
  assert (∀ seen, seen_grows [VRef a] seen →
            stack_inv h [a] seen ∧ unseen h seen < length h) as Hinv.
  { intros seen Hgrow. split.
    - intros x ->%list_elem_of_singleton. split; [|done]. apply Hgrow. simpl.
      by rewrite Nat.eqb_refl.
    - pose proof (unseen_grows h _ _ Hgrow). pose proof (unseen_snoc h [] a Halt eq_refl).
      pose proof (unseen_bound h []). simpl in *. lia. }
  unfold safeStringify, JSON_stringify.
  rewrite SerializeJSONProperty_unfold, safe_replacer_ref by done.
  rewrite Hca. cbn [includes existsb bind]. unfold deref. rewrite Ha.
  cbn [bind shape existsb own_keys app].
  replace (map fst props) with (map fst pre ++ k1 :: map fst post)
    by (unfold props; by rewrite map_app).
  rewrite forEach_app.
  destruct (Hinv [VRef a] (seen_grows_refl _)) as [Hst0 Hun0].
  destruct (json_object_loop h Hok (length h) (serialize_total h Hok (length h))
              a p props fz [a] Ha pre [VRef a] [])
    as (seen1 & partial1 & -> & Hgrow1 & _ & _); [|done|done|].
  { intros kv Hkv. unfold props. apply elem_of_app. by left. }
  cbn [bind forEach]. destruct (Hinv seen1 Hgrow1) as [Hst1 Hun1].
  unfold json_object_body at 1, get, deref. rewrite Ha. cbn [bind shape get_kind fst snd].
  destruct (node_ok_prop h p props fz k1 (VRef b) (heap_ok_lookup _ _ _ Hok Ha))
    as (_ & _ & ->).
  { unfold props. apply elem_of_app. right. by left. }
  cbn [bind].
  destruct (serialize_total h Hok (length h) [a] seen1 k1 (VRef b))
    as (seen2 & out & Hser & Hgrow2); [by apply Nat.ltb_lt|done|done|].
  rewrite Hser. cbn [bind].
  pose proof (serialize_adds _ _ _ _ _ _ _ _ Hblt Hcb Hser) as Hseen.
  assert (seen_grows [VRef a] seen2) as Hgrow12 by (by eapply seen_grows_trans).
  destruct (Hinv seen2 Hgrow12) as [Hst2 Hun2].
  destruct (json_object_loop h Hok (length h) (serialize_total h Hok (length h))
              a p props fz [a] Ha post seen2
              (match out with
               | Some str => partial1 ++ [QuoteJSONString k1 +:+ ":" +:+ str]
               | None => partial1
               end))
    as (seen3 & partial3 & -> & _ & _ & Hmark); [|done|done|].
  { intros kv Hkv. unfold props. apply elem_of_app. right. by right. }
  cbn [bind]. eexists. split; [done|].
  apply substring_of_app_l, substring_of_app_r, substring_of_concat.
  by apply (Hmark k2 b).
Qed.

Lemma safeStringify_marks_shared_witness :
  ∃ s, safeStringify 3 shared_heap (VRef 0) = Ok (VString s)
       ∧ substring_of (QuoteJSONString "b" +:+ ":" +:+ QuoteJSONString "[Circular]") s.
Proof.
  apply (safeStringify_marks_shared shared_heap 0 true [] "a" [("b", VRef 1)] "b" 1 false
           eq_refl eq_refl); [|reflexivity].
  apply list_elem_of_here.
Defined.

(** * [assign] *)

Lemma assign_unfold h destination sources :
  assign h destination sources =
    let* h' := forEach sources
                 (λ h1 source, let* keys := object_keys h1 source in
                               forEach keys (assign_body destination source) h1) h in
    Ok (h', destination).
Proof. reflexivity. Qed.

(** The own enumerable keys of a node are the keys at which it has a
    value, and reading the key gives the value. *)
Lemma own_keys_child_at k key : key ∈ own_keys k ↔ child_at k key ≠ None.
Proof.
  destruct k as [elems|p props|src]; simpl.
  - split.
    + intros (i & -> & Hi)%list_elem_of_fmap. rewrite index_of_key_of_index.
      apply list_elem_of_In, in_seq in Hi.
      destruct (lookup_lt_is_Some_2 elems i) as [v ->]; [lia|done].
    + destruct (index_of_key key) as [i|] eqn:Hk; [|done].
      apply index_of_key_Some in Hk as ->. intros Hi.
      apply list_elem_of_fmap. exists i. split; [done|].
      apply list_elem_of_In, in_seq. destruct (elems !! i) eqn:Hv; [|done].
      apply lookup_lt_Some in Hv. lia.
  - destruct (assoc key props) as [v|] eqn:Hv.
    + split; [done|]. intros _. apply assoc_Some_elem in Hv.
      apply list_elem_of_fmap. by exists (key, v).
    + apply assoc_None in Hv. split; [done|by intros []].
  - split; [by intros ?%elem_of_nil|done].
Qed.

Lemma get_kind_child_at k key v : child_at k key = Some v → get_kind k key = Ok v.
Proof.
  destruct k as [elems|p props|src]; simpl; [|by intros ->|done].
  destruct (index_of_key key); [|done]. by intros ->.
Qed.

Lemma index_key_not_proto i : String.eqb (key_of_index i) "__proto__" = false.
Proof.
  apply String.eqb_neq. intros Heq. pose proof (index_of_key_of_index i) as Hi.
  rewrite Heq in Hi. by vm_compute in Hi.
Qed.

Section assign_one.
Variables (h : heap) (a b : addr) (pa : bool) (nd : node).
Hypothesis Hown : has_own (shape nd) "__proto__" = false.
Hypothesis Hb : h !! b = Some nd.
Hypothesis Hab : b ≠ a.
Hypothesis Ha : a < length h.

(** The copy of the properties of one source. *)
Lemma assign_source_loop keys :
  (∀ key, key ∈ keys → key ∈ own_keys (shape nd)) →
  ∀ props,
    ∃ props',
      forEach keys (assign_body (VRef a) (VRef b))
        (<[a:=Node (Plain pa props) false]> h)
      = Ok (<[a:=Node (Plain pa props') false]> h)
      ∧ ∀ key, assoc key props' =
          match child_at (shape nd) key with
          | Some v => if bool_decide (key ∈ keys) then Some v else assoc key props
          | None => assoc key props
          end.
Proof.
  induction keys as [|k keys IH]; intros Hkeys props.
  { exists props. split; [done|]. intros key. by destruct (child_at _ _). }
  assert (k ∈ own_keys (shape nd)) as Hk by (apply Hkeys; by left).
  destruct (child_at (shape nd) k) as [v|] eqn:Hv; [|by apply own_keys_child_at in Hk].
  destruct (IH (λ key Hkey, Hkeys key (list_elem_of_further _ _ _ Hkey))
              (assoc_set k v props)) as (props' & Hrun & Hprops).
  exists props'. split.
  - cbn [forEach]. unfold assign_body at 1, get, deref.
    rewrite list_lookup_insert_ne, Hb by done. cbn [bind].
    rewrite (get_kind_child_at _ _ _ Hv). cbn [bind].
    unfold set, deref. rewrite list_lookup_insert_eq by done. cbn [bind frozen shape].
    unfold set_kind, plain_set.
    rewrite (own_key_other (shape nd) k Hown Hk).
    rewrite andb_false_r. cbn [andb bind]. by rewrite list_insert_insert_eq.
  - intros key. rewrite Hprops. destruct (child_at (shape nd) key) as [w|] eqn:Hw.
    + destruct (decide (key = k)) as [->|Hne].
      * rewrite (bool_decide_eq_true_2 (k ∈ k :: keys)) by (by left).
        rewrite Hv in Hw. injection Hw as <-.
        case_bool_decide; [done|]. by rewrite assoc_assoc_set, String.eqb_refl.
      * rewrite assoc_assoc_set. apply String.eqb_neq in Hne as Hne'. rewrite Hne'.
        case_bool_decide as H1; case_bool_decide as H2; try done.
        -- exfalso. apply H2. by right.
        -- exfalso. apply elem_of_cons in H2 as [?|?]; done.
    + rewrite assoc_assoc_set. destruct (String.eqb_spec key k) as [->|]; [|done].
      congruence.
Qed.

End assign_one.

Lemma assign_sources h a pa :
  a < length h →
  ∀ sources props,
    (∀ s, s ∈ sources →
       ∃ b nd, s = VRef b ∧ b ≠ a ∧ h !! b = Some nd
               ∧ has_own (shape nd) "__proto__" = false) →
    ∃ props',
      forEach sources
        (λ h1 source, let* keys := object_keys h1 source in
                      forEach keys (assign_body (VRef a) source) h1)
        (<[a:=Node (Plain pa props) false]> h)
      = Ok (<[a:=Node (Plain pa props') false]> h)
      ∧ ∀ key, assoc key props' = assigned h sources key (assoc key props).
Proof.
  intros Ha. induction sources as [|s sources IH]; intros props Hsources.
  { by exists props. }
  destruct (Hsources s) as (b & nd & -> & Hba & Hnd & Hown); [by left|].
  destruct (assign_source_loop h a b pa nd Hown Hnd Hba Ha (own_keys (shape nd))
              (λ _ H, H) props) as (props1 & Hrun1 & Hprops1).
  destruct (IH props1) as (props' & Hrun & Hprops).
  { intros s Hs. apply Hsources. by right. }
  exists props'. split.
  - cbn [forEach]. unfold object_keys at 1, deref.
    rewrite list_lookup_insert_ne, Hnd by done. cbn [bind]. by rewrite Hrun1.
  - intros key. rewrite Hprops, Hprops1. unfold assigned. cbn [fold_left].
    rewrite Hnd. destruct (child_at (shape nd) key) as [v|] eqn:Hv; [|done].
    rewrite bool_decide_eq_true_2; [done|]. apply own_keys_child_at. by rewrite Hv.
Qed.

(** X13: [assign] copies the properties of the sources into the
    destination, later sources winning.  For a destination that is a plain
    object and not frozen, and sources that are objects of the heap other
    than the destination, none of which owns a property named [__proto__]:
    afterwards the destination has at every key the value of the last source
    that has the key, and its old value where no source has the key; the
    call returns the destination, and no other object changes. *)
Theorem assign_last_wins h a pa props sources :
  h !! a = Some (Node (Plain pa props) false) →
  (∀ s, s ∈ sources →
     ∃ b nd, s = VRef b ∧ b ≠ a ∧ h !! b = Some nd
             ∧ has_own (shape nd) "__proto__" = false) →
  ∃ props',
    assign h (VRef a) sources = Ok (<[a:=Node (Plain pa props') false]> h, VRef a)
    ∧ ∀ key, assoc key props' = assigned h sources key (assoc key props).
Proof.
  intros Ha Hsources.
  destruct (assign_sources h a pa (lookup_lt_Some _ _ _ Ha) sources props Hsources)
    as (props' & Hrun & Hprops).
  exists props'. split; [|done]. rewrite assign_unfold.
  rewrite (list_insert_id h a _ Ha) in Hrun. by rewrite Hrun.
Qed.

Lemma assign_last_wins_witness :
  ∃ props',
    assign assign_heap (VRef 0) [VRef 1; VRef 2]
    = Ok (<[0:=Node (Plain true props') false]> assign_heap, VRef 0)
    ∧ assoc "a" props' = Some (num 1)
    ∧ assoc "b" props' = Some (num 3)
    ∧ assoc "0" props' = Some (num 7).
Proof.
  destruct (assign_last_wins assign_heap 0 true [("a", num 1); ("b", num 2)]
              [VRef 1; VRef 2] eq_refl) as (props' & Hrun & Hprops).
  - intros s Hs. apply elem_of_cons in Hs as [->|Hs].
    + exists 1, (object [("b", num 3)]). by repeat split.
    + apply list_elem_of_singleton in Hs as ->.
      exists 2, (array [num 7]). by repeat split.
  - exists props'. split; [exact Hrun|]. split; [apply Hprops|].
    split; apply Hprops.
Defined.

(** * [mixin] and [assign] *)

Lemma forEach_agree {A St} (P : St → Prop) (l : list A) (f g : St → A → result St) s :
  (∀ s x, x ∈ l → P s → f s x = g s x) →
  (∀ s x s', x ∈ l → P s → g s x = Ok s' → P s') →
  P s → forEach l f s = forEach l g s.
Proof.
  revert s. induction l as [|x l IH]; intros s Hfg Hg Hs; [done|]. simpl.
  rewrite (Hfg s x) by (done || by left).
  destruct (g s x) as [s'|] eqn:Hx; [|done]. simpl. apply IH.
  - intros s1 y Hy. apply Hfg. by right.
  - intros s1 y s2 Hy. apply Hg. by right.
  - eapply Hg; [|done..]. by left.
Qed.

Lemma objectLiteral_total h v : value_ok h v = true → ∃ r, Is.objectLiteral h v = Ok r.
Proof.
  destruct v as [| | | | |x]; try by eexists.
  intros Hx%Nat.ltb_lt. destruct (lookup_lt_is_Some_2 h x Hx) as [nd Hnd].
  unfold Is.objectLiteral, kind_of, deref. rewrite Hnd. by eexists.
Qed.

(** X14: for a destination and a source that are two different plain
    objects of a well-formed heap, where no value of the source is a plain
    object, [mixin] with [overwrite] does what [assign] does with the one
    source: the two calls return the same result and leave the same heap, or
    fail alike. *)
Theorem mixin_flat_is_assign n h a b pa props fza pb sprops fzb :
  heap_ok h = true →
  h !! a = Some (Node (Plain pa props) fza) →
  h !! b = Some (Node (Plain pb sprops) fzb) → a ≠ b →
  (∀ k v, (k, v) ∈ sprops → Is.objectLiteral h v = Ok false) →
  mixin (S n) h (VRef a) (VRef b) true = assign h (VRef a) [VRef b].
Proof.
  intros Hok Ha Hb Hab Hflat.
  pose proof (heap_ok_lookup _ _ _ Hok Ha) as Hnoka.
  pose proof (heap_ok_lookup _ _ _ Hok Hb) as Hnokb.
  assert (a < length h) as Halt by (by eapply lookup_lt_Some).
  rewrite mixin_unfold, assign_unfold.
  unfold Is.objectLiteral at 1 2, kind_of, deref. rewrite Ha, Hb. cbn [bind shape negb].
  cbn [forEach]. unfold object_keys, deref. rewrite Hb. cbn [bind shape own_keys].
  rewrite (forEach_agree
             (λ hi, ∃ props_i fz,
                hi = <[a:=Node (Plain pa props_i) fz]> h
                ∧ ∀ k v, assoc k props_i = Some v → value_ok h v = true)
             (map fst sprops) _ (assign_body (VRef a) (VRef b))).
  - by destruct (forEach _ _ _).
  - intros hi k Hk (props_i & fz & -> & Hvals).
    apply list_elem_of_fmap in Hk as ([k' sv] & -> & Hkv). cbn [fst].
    destruct (node_ok_prop h pb sprops fzb k' sv Hnokb Hkv) as (Hinh & Hsv & Hassoc).
    assert (get (<[a:=Node (Plain pa props_i) fz]> h) (VRef b) k' = Ok sv) as Hget.
    { unfold get, deref. rewrite list_lookup_insert_ne, Hb by done. cbn [bind shape get_kind].
      by rewrite Hassoc. }
    unfold mixin_body, assign_body, has_property, deref. rewrite Hget.
    rewrite list_lookup_insert_eq by done. cbn [bind shape has_own].
    rewrite Hinh, andb_false_r, orb_false_r.
    destruct (assoc k' props_i) as [dv|] eqn:Hdv; [|done].
    unfold get at 1, deref. rewrite list_lookup_insert_eq by done.
    cbn [bind shape get_kind]. rewrite Hdv. cbn [bind].
    rewrite !(objectLiteral_insert h a pa props _ _ fza) by done.
    destruct (objectLiteral_total h dv (Hvals _ _ Hdv)) as (dl & ->). cbn [bind].
    rewrite (Hflat _ _ Hkv). by destruct dl.
  - intros hi k hi' Hk (props_i & fz & -> & Hvals).
    apply list_elem_of_fmap in Hk as ([k' sv] & -> & Hkv). cbn [fst].
    destruct (node_ok_prop h pb sprops fzb k' sv Hnokb Hkv) as (Hinh & Hsv & Hassoc).
    unfold assign_body, get, deref. rewrite list_lookup_insert_ne, Hb by done.
    cbn [bind shape get_kind]. rewrite Hassoc. cbn [bind].
    unfold set, deref. rewrite list_lookup_insert_eq by done. cbn [bind frozen shape].
    destruct fz.
    { cbn [to_proto_setter]. by rewrite (inherited_proto _ Hinh), andb_false_r. }
    unfold set_kind, plain_set.
    rewrite (inherited_proto _ Hinh), andb_false_r. cbn [andb bind].
    intros [= <-]. exists (assoc_set k' sv props_i), false.
    split; [by rewrite list_insert_insert_eq|].
    intros k v. rewrite assoc_assoc_set. destruct (String.eqb k k'); [|by apply Hvals].
    by intros [= <-].
  - exists props, fza. split; [by rewrite list_insert_id|].
    intros k v Hkv%assoc_Some_elem.
    by destruct (node_ok_prop h pa props fza k v Hnoka Hkv) as (_ & ? & _).
Qed.

Lemma mixin_flat_is_assign_witness :
  mixin 1 assign_heap (VRef 0) (VRef 1) true = assign assign_heap (VRef 0) [VRef 1].
Proof.
  apply (mixin_flat_is_assign 0 assign_heap 0 1 true [("a", num 1); ("b", num 2)] false
           true [("b", num 3)] false eq_refl eq_refl eq_refl); [discriminate|].
  intros k v Hkv. apply list_elem_of_singleton in Hkv. by injection Hkv as -> ->.
Defined.

(** * [getOrDefault] *)

(** X15: [getOrDefault] never returns [undefined]: it returns what the
    selector returns unless that is [undefined], also when it is [null],
    [false], [0] or the empty string; otherwise it returns the default value,
    and [null] when the default value is [undefined] itself. *)
Theorem getOrDefault_never_undefined h obj fn defaultValue v :
  fn h obj = Ok v →
  ∃ r, getOrDefault h obj fn defaultValue = Ok r
       ∧ is_undefined r = false
       ∧ (is_undefined v = false → r = v)
       ∧ (is_undefined v = true →
          r = if is_undefined defaultValue then VNull else defaultValue).
Proof.
  intros Hfn. unfold getOrDefault. rewrite Hfn. cbn [bind]. eexists. split; [done|].
  destruct v; cbn; try done.
  split; [|done]. by destruct defaultValue.
Qed.

Lemma getOrDefault_never_undefined_witness :
  ∃ r, getOrDefault assign_heap (VRef 0) (select "c") VUndefined = Ok r
       ∧ is_undefined r = false.
Proof.
  destruct (getOrDefault_never_undefined assign_heap (VRef 0) (select "c") VUndefined
              VUndefined eq_refl) as (r & Hrun & Hdef & _).
  by exists r.
Defined.

(** * [arrayToHash] and [createKeywordMatcher] *)

(** X16: the hash that [arrayToHash] builds has the value [true] at every
    word of the array and no other key of its own, whatever the order and the
    repetitions of the words; only the word [__proto__], for which the
    assignment does not create a property, is missing. *)
Theorem arrayToHash_has_the_words array :
  ∃ hash,
    arrayToHash array = Ok hash
    ∧ (∀ w, w ∈ array → w ≠ "__proto__" → assoc w hash = Some (VBool true))
    ∧ (∀ w, w ∉ array → assoc w hash = None)
    ∧ assoc "__proto__" hash = None.
Proof.
  destruct (arrayToHash_assoc array) as (hash & Hrun & Hhash).
  exists hash. split; [done|]. split; [|split].
  - intros w Hw Hne. rewrite Hhash, bool_decide_eq_true_2 by done.
    apply String.eqb_neq in Hne. by rewrite Hne.
  - intros w Hw. by rewrite Hhash, bool_decide_eq_false_2.
  - rewrite Hhash. by rewrite andb_false_r.
Qed.

(** X17: on a word list that contains neither [hasOwnProperty] nor
    [__proto__] (after the conversion to lower case, when it applies), the
    predicate that [createKeywordMatcher] returns is the membership test: on
    the word as it is, or, for a matcher that ignores the case and words
    made of ASCII characters, on the word and the list converted to lower
    case. *)
Theorem createKeywordMatcher_is_membership (arr : list string) (caseInsensitive : bool)
    word :
  let arr' := if caseInsensitive then map lowered arr else arr in
  let word' := if caseInsensitive then lowered word else word in
  (caseInsensitive = true → ascii_only word = true ∧ forallb ascii_only arr = true) →
  "hasOwnProperty" ∉ arr' → "__proto__" ∉ arr' →
  keyword_match arr caseInsensitive word = Ok (bool_decide (word' ∈ arr'))
  ∧ (caseInsensitive = true → toLowerCase word = Ok word'
                              ∧ array_map toLowerCase arr = Ok arr').
Proof.
  intros arr' word' Hascii Hhas Hproto. split; [by apply keyword_match_member|].
  intros Hci. destruct (Hascii Hci) as [Hw Harr]. unfold arr', word'. rewrite Hci.
  split; [unfold toLowerCase; by rewrite Hw|by apply array_map_toLowerCase].
Qed.

Lemma createKeywordMatcher_is_membership_witness :
  keyword_match ["if"; "else"] true "ELSE" = Ok true.
Proof.
  apply (createKeywordMatcher_is_membership ["if"; "else"] true "ELSE");
    [done|compute_done..].
Defined.

(** * What [safeStringify] returns *)

(** X18: [safeStringify] returns a string for every value but [undefined],
    for which, like [JSON.stringify], it returns [undefined]. *)
Theorem safeStringify_string_unless_undefined h obj :
  heap_ok h = true → value_ok h obj = true →
  ∀ fuel, length h < fuel →
    ∃ r, safeStringify fuel h obj = Ok r
         ∧ (is_undefined obj = true → r = VUndefined)
         ∧ (is_undefined obj = false → ∃ s, r = VString s).
Proof.
  intros Hok Hobj fuel Hf. unfold safeStringify, JSON_stringify.
  destruct (serialize_total h Hok fuel [] [] "" obj Hobj) as (seen' & out & Hrun & _).
  { by intros x ?%elem_of_nil. }
  { pose proof (unseen_bound h []). lia. }
  rewrite Hrun. cbn [bind]. eexists. split; [done|].
  destruct fuel as [|n]; [lia|]. rewrite SerializeJSONProperty_unfold in Hrun.
  destruct obj as [| | | | |a].
  1-5: rewrite safe_replacer_prim in Hrun by done; injection Hrun as <- <-;
       (split; [done|]); intros Hu; try discriminate Hu; by eexists.
  split; [done|]. intros _. simpl in Hobj. apply Nat.ltb_lt in Hobj.
  rewrite safe_replacer_ref in Hrun by done. cbn [includes] in Hrun.
  destruct (container h a); cbn [bind existsb] in Hrun;
    apply bind_Ok in Hrun as (nd & _ & Hrun);
    destruct (shape nd);
    apply bind_Ok in Hrun as ([st' partial] & _ & [= <- <-]); by eexists.
Qed.

Lemma safeStringify_string_unless_undefined_witness :
  ∃ r, safeStringify 2 self_heap VUndefined = Ok r ∧ r = VUndefined.
Proof.
  destruct (safeStringify_string_unless_undefined self_heap VUndefined eq_refl eq_refl 2)
    as (r & Hrun & Hundef & _).
  - vm_compute. lia.
  - exists r. split; [exact Hrun|]. by apply Hundef.
Defined.

(** * [cloneAndChange] with a changer that replaces nothing *)

Lemma object_test v : truthy v && String.eqb (typeof v) "object" = is_ref v.
Proof.
  destruct v as [| |b|[|z]|s|a]; try done; simpl; by rewrite andb_false_r.
Qed.

Lemma clone_value_unfold n hi v :
  clone_value n hi v = if is_ref v then deepClone n hi v else Ok (hi, v).
Proof. unfold clone_value. by rewrite object_test. Qed.

Section agree.
Variable changer : value → value.
Hypothesis Hchanger : ∀ v, changer v = VUndefined.

Lemma cloneAndChange_prim_unchanged n v st st' c :
  is_ref v = false → _cloneAndChange n changer v st = Ok (st', c) →
  c_heap st' = c_heap st ∧ c = v.
Proof.
  intros Hv. destruct n as [|n]; [done|]. rewrite cloneAndChange_unfold.
  rewrite Hchanger. cbn [typeof]. 
  replace (String.eqb "undefined" "undefined") with true by done. cbn [negb].
  destruct (loose_null v); [by intros [= <- <-]|].
  destruct v; try done; by intros [= <- <-].
Qed.

Section step.
Variable n : nat.
Hypothesis IH : ∀ hi x st h1 y st' y',
  deepClone n hi x = Ok (h1, y) → _cloneAndChange n changer x st = Ok (st', y') →
  c_heap st = hi → c_heap st' = h1 ∧ y' = y.

Lemma value_agree hi v s h2 c s2 c' :
  clone_value n hi v = Ok (h2, c) → _cloneAndChange n changer v s = Ok (s2, c') →
  c_heap s = hi → c_heap s2 = h2 ∧ c' = c.
Proof.
  rewrite clone_value_unfold. destruct (is_ref v) eqn:Hv.
  - apply IH.
  - intros [= <- <-] Hrun <-. by apply (cloneAndChange_prim_unchanged n v s).
Qed.

Lemma clone_value_prefix hi v h2 c :
  clone_value n hi v = Ok (h2, c) → hi `prefix_of` h2.
Proof.
  rewrite clone_value_unfold. destruct (is_ref v); [|by intros [= <- <-]].
  by intros [? _]%deepClone_fresh.
Qed.

Lemma array_agree (a r : nat) len : ∀ i hi s h' s',
  c_heap s = hi →
  (∃ ys, hi !! r = Some (Node (Array ys) false) ∧ length ys = i) →
  forEach (map key_of_index (seq i len)) (clone_body n (VRef a) (VRef r)) hi = Ok h' →
  forEach (seq i len) (array_body n changer (VRef a) (VRef r)) s = Ok s' →
  c_heap s' = h'.
Proof.
  induction len as [|len IHlen]; intros i hi s h' s' Hs (ys & Hr & Hlen).
  { by intros [= <-] [= <-]. }
  cbn [seq map forEach]. rewrite clone_body_value.
  intros (h3 & H1 & Hrest1)%bind_Ok (s3 & H2 & Hrest2)%bind_Ok.
  apply bind_Ok in H1 as (v & Hget & H1). apply bind_Ok in H1 as ([h2 c] & Hc & Hset).
  unfold array_body in H2.
  apply bind_Ok in H2 as (v' & Hget' & H2). apply bind_Ok in H2 as ([s2 c'] & Hc' & H2).
  apply bind_Ok in H2 as (h3' & Hpush & [= <-]).
  assert (v' = v) as ->.
  { rewrite Hs in Hget'. unfold get, get_index in *.
    apply bind_Ok in Hget as (nd & Hnd & Hget). rewrite Hnd in Hget'. cbn [bind] in Hget'.
    destruct (shape nd); try done. cbn [get_kind] in Hget.
    rewrite index_of_key_of_index in Hget. congruence. }
  destruct (value_agree _ _ _ _ _ _ _ Hc Hc' Hs) as [Hheap ->].
  pose proof (prefix_lookup_Some _ _ _ _ Hr (clone_value_prefix _ _ _ _ Hc)) as Hr2.
  assert (h3' = h3 ∧ h3 = <[r:=Node (Array (ys ++ [c])) false]> h2) as [-> Hh3].
  { unfold push, deref in Hpush. rewrite Hheap, Hr2 in Hpush.
    cbn [bind shape frozen] in Hpush. injection Hpush as <-.
    unfold set, deref in Hset. rewrite Hr2 in Hset.
    cbn [bind shape frozen set_kind] in Hset.
    rewrite index_of_key_of_index, Hlen, Nat.ltb_irrefl, Nat.eqb_refl in Hset.
    cbn [bind] in Hset. by injection Hset as <-. }
  eapply (IHlen (S i) h3 (with_heap h3 s2)); [done| |done..].
  exists (ys ++ [c]). rewrite Hh3. split.
  - apply list_lookup_insert_eq. by eapply lookup_lt_Some.
  - rewrite length_app. simpl. lia.
Qed.

Lemma plain_agree (a r : nat) h0 p props fz :
  h0 !! a = Some (Node (Plain p props) fz) → length h0 ≤ r →
  ∀ keys hi s h' s',
    (∀ k, k ∈ keys → k ∈ map fst props) →
    c_heap s = hi → h0 `prefix_of` hi →
    forEach keys (clone_body n (VRef a) (VRef r)) hi = Ok h' →
    forEach keys (plain_body n changer (VRef a) (VRef r)) s = Ok s' →
    c_heap s' = h'.
Proof.
  intros Ha Hr. induction keys as [|key keys IHk]; intros hi s h' s' Hkeys Hs Hpre.
  { by intros [= <-] [= <-]. }
  cbn [forEach]. rewrite clone_body_value.
  intros (h3 & H1 & Hrest1)%bind_Ok (s3 & H2 & Hrest2)%bind_Ok.
  apply bind_Ok in H1 as (v & Hget & H1). apply bind_Ok in H1 as ([h2 c] & Hc & Hset).
  unfold plain_body, hasOwnProperty, deref in H2. rewrite Hs in H2.
  rewrite (prefix_lookup_Some _ _ _ _ Ha Hpre) in H2. cbn [bind shape has_own] in H2.
  destruct (assoc_elem key props) as (w & Hw & _); [apply Hkeys; by left|].
  rewrite Hw, Hget in H2. cbn [bind] in H2.
  apply bind_Ok in H2 as ([s2 c'] & Hc' & H2).
  apply bind_Ok in H2 as (h3' & Hset' & [= <-]).
  destruct (value_agree _ _ _ _ _ _ _ Hc Hc' Hs) as [Hheap ->].
  rewrite Hheap, Hset in Hset'. injection Hset' as <-.
  apply (IHk h3 (with_heap h3 s2)); [|done| |done..].
  - intros k Hk. apply Hkeys. by right.
  - apply (set_prefix h0) in Hset; [done| |done].
    etrans; [done|]. by eapply clone_value_prefix.
Qed.

End step.

Lemma clone_agree fuel : ∀ hi x st h1 y st' y',
  deepClone fuel hi x = Ok (h1, y) → _cloneAndChange fuel changer x st = Ok (st', y') →
  c_heap st = hi → c_heap st' = h1 ∧ y' = y.
Proof.
  induction fuel as [|n IH]; intros hi x st h1 y st' y'; [done|].
  destruct (is_ref x) eqn:Hx.
  2:{ rewrite deepClone_prim by done. intros [= <- <-] Hrun <-.
      by apply (cloneAndChange_prim_unchanged (S n) x st). }
  destruct x as [| | | | |a]; try done.
  rewrite deepClone_unfold, cloneAndChange_unfold. cbn [truthy typeof negb orb loose_null
    is_null is_undefined].
  replace (String.eqb "object" "object") with true by done. cbn [negb].
  rewrite Hchanger. cbn [typeof].
  replace (String.eqb "undefined" "undefined") with true by done. cbn [negb].
  intros H1 H2 Hst. cbn [record_call c_heap] in H2. rewrite Hst in H2.
  unfold instanceofRegExp, isArray, Is.array, Is.objectLiteral, isArray, kind_of, deref
    in H1, H2.
  destruct (hi !! a) as [[k fz]|] eqn:Ha; [|done]. cbn [bind shape] in H1, H2.
  destruct k as [elems|p props|src];
    cbn [alloc fst snd push_encountered record_call c_heap] in H1, H2;
    rewrite ?Hst in H2.
  - unfold object_keys, array_length, deref in H1, H2.
    rewrite (lookup_app_l_Some _ _ _ _ Ha) in H1, H2. cbn [bind shape own_keys] in H1, H2.
    apply bind_Ok in H1 as (h' & Hloop1 & [= <- <-]).
    apply bind_Ok in H2 as (s' & Hloop2 & [= <- <-]). split; [|done].
    eapply (array_agree n IH a (length hi) (length elems) 0); [|exists []|done..].
    + done.
    + split; [by apply list_lookup_middle|done].
  - destruct (includes _ _); [done|].
    unfold object_keys, deref in H1, H2.
    rewrite (lookup_app_l_Some _ _ _ _ Ha) in H1, H2. cbn [bind shape own_keys] in H1, H2.
    apply bind_Ok in H1 as (h' & Hloop1 & [= <- <-]).
    apply bind_Ok in H2 as (s' & Hloop2 & [= <- <-]). split; [|done].
    cbn [pop_encountered c_heap].
    eapply (plain_agree n IH a (length hi) hi p props fz Ha (Nat.le_refl _));
      [| |apply prefix_snoc|done..]; done.
  - injection H1 as <- <-. by injection H2 as <- <-.
Qed.

End agree.

(** X19: with a changer that replaces nothing, [cloneAndChange] is
    [deepClone]: on an acyclic value of a well-formed heap, in which no
    object owns a key that is a name of [Object.prototype] ([__proto__]
    among them), the two return the same value and leave the same heap, and
    [equals] finds the result equal to the argument when the argument holds
    no [NaN]. *)
Theorem cloneAndChange_unchanged_is_deepClone n h x changer :
  heap_ok h = true → depth_le n h x = true → (∀ v, changer v = VUndefined) →
  ∃ st' y,
    cloneAndChange (S n) h x changer = Ok (st', y)
    ∧ deepClone (S n) h x = Ok (c_heap st', y)
    ∧ (no_nan n h x = true → equals (S n) (c_heap st') x y = Ok true).
Proof.
  intros Hok Hdepth Hchanger.
  destruct (deepClone_copy h (heap_ok_closed _ Hok) n h x)
    as (h' & y & Hclone & Hpre & Hcopy); [done|done|by apply heap_ok_no_proto_key|].
  pose proof (cloneAndChange_sim h changer Hok (S n) x (CState h [] [])
                (depth_le_value_ok _ _ _ Hdepth) (reflexivity _)) as Hsim.
  change (encounteredObjects (CState h [] [])) with (@nil value) in Hsim.
  rewrite (revisits_acyclic (S n) h changer n [] x Hdepth) in Hsim;
    [|lia|by intros p ?%elem_of_nil].
  destruct Hsim as (st' & y' & Hrun & _).
  destruct (clone_agree changer Hchanger (S n) h x _ _ _ _ _ Hclone Hrun eq_refl)
    as [Hheap ->].
  exists st', y. unfold cloneAndChange. rewrite Hheap. split; [done|]. split; [done|].
  intros Hnan. by apply (equals_copy n h h' (length h) (length h')).
Qed.

Lemma cloneAndChange_unchanged_is_deepClone_witness :
  ∃ st' y,
    cloneAndChange 3 shared_heap (VRef 0) no_change = Ok (st', y)
    ∧ deepClone 3 shared_heap (VRef 0) = Ok (c_heap st', y).
Proof.
  destruct (cloneAndChange_unchanged_is_deepClone 2 shared_heap (VRef 0) no_change
              eq_refl eq_refl (λ _, eq_refl)) as (st' & y & Hrun & Hclone & _).
  by exists st', y.
Defined.

(** * [safeStringify] on trees *)

Lemma includes_not_elem seen v : v ∉ seen → includes seen v = false.
Proof.
  intros Hv. destruct (includes seen v) eqn:H; [|done]. by apply includes_elem in H.
Qed.

Lemma existsb_not_elem a (stack : list addr) :
  a ∉ stack → existsb (Nat.eqb a) stack = false.
Proof.
  induction stack as [|x stack IH]; [done|]. intros [Hne Hst]%not_elem_of_cons. simpl.
  rewrite IH by done. by apply Nat.eqb_neq in Hne as ->.
Qed.

(** The replacer on a value the traversal has not entered before. *)
Lemma safe_replacer_new h seen key v :
  (∀ a, v = VRef a → container h a = true → VRef a ∉ seen) →
  safe_replacer h seen key v =
    match v with
    | VRef a =>
        let* nd := deref h a in
        Ok (match shape nd with
            | RegExp _ => seen
            | _ => seen ++ [v]
            end, v)
    | _ => Ok (seen, v)
    end.
Proof.
  intros Hnew. destruct v as [| | | | |a]; try done.
  specialize (Hnew a eq_refl). unfold container in Hnew.
  unfold safe_replacer, Is.objectLiteral, isArray, kind_of, deref.
  destruct (h !! a) as [nd|]; [|done]. cbn [bind].
  destruct (shape nd); try done;
    by rewrite (includes_not_elem seen (VRef a)) by (by apply Hnew).
Qed.

Section tree.
Variable h : heap.
Hypothesis Hok : heap_ok h = true.

Section step.
Variable f : nat.
Hypothesis IH : ∀ stack seen key v,
  NoDup (containers f h v) →
  (∀ x, x ∈ containers f h v → VRef x ∉ seen) →
  (∀ x, x ∈ stack → VRef x ∈ seen) →
  SerializeJSONProperty safe_replacer f h stack seen key v
  = with_seen seen (containers f h v)
      (SerializeJSONProperty identity_replacer f h stack tt key v).

Lemma tree_value stack seen key v rest :
  NoDup (containers f h v ++ rest) →
  (∀ x, x ∈ containers f h v ++ rest → VRef x ∉ seen) →
  (∀ x, x ∈ stack → VRef x ∈ seen) →
  SerializeJSONProperty safe_replacer f h stack seen key v
  = with_seen seen (containers f h v)
      (SerializeJSONProperty identity_replacer f h stack tt key v)
  ∧ NoDup rest
  ∧ (∀ x, x ∈ rest → VRef x ∉ seen ++ map VRef (containers f h v))
  ∧ (∀ x, x ∈ stack → VRef x ∈ seen ++ map VRef (containers f h v)).
Proof.
  intros (Hnd & Hdis & Hrest)%NoDup_app Hseen Hstack. split; [|split; [done|split]].
  - apply IH; [done| |done]. intros x Hx. apply Hseen, elem_of_app. by left.
  - intros x Hx [Hin|Hin]%elem_of_app.
    + revert Hin. apply Hseen, elem_of_app. by right.
    + apply list_elem_of_fmap in Hin as (y & [= <-] & Hy). by apply (Hdis x).
  - intros x Hx. apply elem_of_app. left. by apply Hstack.
Qed.

Lemma tree_array_loop a elems fz stack :
  h !! a = Some (Node (Array elems) fz) →
  ∀ rest i0 seen partial,
    drop i0 elems = rest →
    NoDup (flat_map (containers f h) rest) →
    (∀ x, x ∈ flat_map (containers f h) rest → VRef x ∉ seen) →
    (∀ x, x ∈ stack → VRef x ∈ seen) →
    forEach (seq i0 (length rest))
      (json_array_body (SerializeJSONProperty safe_replacer f h stack) h (VRef a))
      (seen, partial)
    = loop_with_seen seen (flat_map (containers f h) rest)
        (forEach (seq i0 (length rest))
           (json_array_body (SerializeJSONProperty identity_replacer f h stack) h (VRef a))
           (tt, partial)).
Proof.
  intros Ha. induction rest as [|e rest IHr]; intros i0 seen partial Hdrop Hnd Hseen Hstack.
  { simpl. by rewrite app_nil_r. }
  cbn [length seq forEach flat_map] in *.
  assert (elems !! i0 = Some e) as He.
  { rewrite <- (Nat.add_0_r i0), <- lookup_drop, Hdrop. done. }
  unfold json_array_body at 1 3, get_index, deref. rewrite Ha. cbn [bind shape fst snd].
  rewrite He. cbn [default id].
  destruct (tree_value stack seen (key_of_index i0) e _ Hnd Hseen Hstack)
    as (-> & Hnd' & Hseen' & Hstack').
  destruct (SerializeJSONProperty identity_replacer f h stack tt (key_of_index i0) e)
    as [[[] strP]|]; [|done].
  cbn [with_seen bind].
  rewrite (IHr (S i0)); [| |done..].
  - destruct (forEach _ _ _) as [[[] partial']|]; [|done]. cbn [loop_with_seen].
    by rewrite map_app, app_assoc.
  - replace (S i0) with (i0 + 1) by lia. rewrite <- drop_drop, Hdrop. done.
Qed.

Lemma tree_object_loop a p props fz stack :
  h !! a = Some (Node (Plain p props) fz) →
  ∀ rest seen partial,
    (∀ kv, kv ∈ rest → kv ∈ props) →
    NoDup (flat_map (containers f h) (map snd rest)) →
    (∀ x, x ∈ flat_map (containers f h) (map snd rest) → VRef x ∉ seen) →
    (∀ x, x ∈ stack → VRef x ∈ seen) →
    forEach (map fst rest)
      (json_object_body (SerializeJSONProperty safe_replacer f h stack) h (VRef a))
      (seen, partial)
    = loop_with_seen seen (flat_map (containers f h) (map snd rest))
        (forEach (map fst rest)
           (json_object_body (SerializeJSONProperty identity_replacer f h stack) h (VRef a))
           (tt, partial)).
Proof.
  intros Ha. induction rest as [|[k v] rest IHr]; intros seen partial Hprops Hnd Hseen Hstack.
  { simpl. by rewrite app_nil_r. }
  cbn [map fst snd forEach flat_map] in *.
  unfold json_object_body at 1 3, get, deref. rewrite Ha. cbn [bind shape get_kind fst snd].
  destruct (node_ok_prop h p props fz k v (heap_ok_lookup _ _ _ Hok Ha)) as (_ & _ & ->).
  { apply Hprops. by left. }
  cbn [bind].
  destruct (tree_value stack seen k v _ Hnd Hseen Hstack)
    as (-> & Hnd' & Hseen' & Hstack').
  destruct (SerializeJSONProperty identity_replacer f h stack tt k v)
    as [[[] strP]|]; [|done].
  cbn [with_seen bind].
  rewrite IHr; [| |done..].
  - destruct (forEach _ _ _) as [[[] partial']|]; [|done]. cbn [loop_with_seen].
    by rewrite map_app, app_assoc.
  - intros kv Hkv. apply Hprops. by right.
Qed.

End step.

Lemma serialize_tree f : ∀ stack seen key v,
  NoDup (containers f h v) →
  (∀ x, x ∈ containers f h v → VRef x ∉ seen) →
  (∀ x, x ∈ stack → VRef x ∈ seen) →
  SerializeJSONProperty safe_replacer f h stack seen key v
  = with_seen seen (containers f h v)
      (SerializeJSONProperty identity_replacer f h stack tt key v).
Proof.
  induction f as [|f IH]; intros stack seen key v Hnd Hseen Hstack; [done|].
  rewrite !SerializeJSONProperty_unfold.
  change (identity_replacer h tt key v) with (Ok (tt, v)). cbn [bind].
  rewrite safe_replacer_new.
  2:{ intros a -> Hca. apply Hseen. unfold container in Hca. simpl.
      destruct (h !! a) as [nd|]; [|done]. destruct (shape nd); try done; by left. }
  destruct v as [| | | | |a]; try (simpl; by rewrite app_nil_r).
  cbn [containers] in Hnd, Hseen |- *. unfold deref.
  destruct (h !! a) as [[k fz]|] eqn:Ha; [|done]. cbn [bind shape] in *.
  rewrite ?Ha. cbn [bind shape].
  destruct k as [elems|p props|src]; cbn [children own_keys] in *.
  - apply NoDup_cons in Hnd as [Hnotin Hnd].
    rewrite existsb_not_elem.
    2:{ intros Hin. apply (Hseen a); [by left|by apply Hstack]. }
    rewrite (tree_array_loop f IH a elems fz (stack ++ [a]) Ha elems 0
               (seen ++ [VRef a]) [] eq_refl Hnd).
    + destruct (forEach _ _ _) as [[[] partial]|]; [|done]. simpl.
      by rewrite <- app_assoc.
    + intros x Hx [Hin|Hin%list_elem_of_singleton]%elem_of_app.
      * revert Hin. apply Hseen. by right.
      * injection Hin as ->. done.
    + intros x [Hx|Hx%list_elem_of_singleton]%elem_of_app; apply elem_of_app.
      * left. by apply Hstack.
      * right. subst x. by left.
  - apply NoDup_cons in Hnd as [Hnotin Hnd].
    rewrite existsb_not_elem.
    2:{ intros Hin. apply (Hseen a); [by left|by apply Hstack]. }
    rewrite (tree_object_loop f IH a p props fz (stack ++ [a]) Ha props
               (seen ++ [VRef a]) [] (λ _ H, H) Hnd).
    + destruct (forEach _ _ _) as [[[] partial]|]; [|done]. simpl.
      by rewrite <- app_assoc.
    + intros x Hx [Hin|Hin%list_elem_of_singleton]%elem_of_app.
      * revert Hin. apply Hseen. by right.
      * injection Hin as ->. done.
    + intros x [Hx|Hx%list_elem_of_singleton]%elem_of_app; apply elem_of_app.
      * left. by apply Hstack.
      * right. subst x. by left.
  - destruct (existsb _ _); [done|]. simpl. by rewrite app_nil_r.
Qed.

End tree.

(** X20: on a tree of objects, that is when the traversal enters no array
    and no plain object twice, [safeStringify] returns what [JSON.stringify]
    returns, string or error. *)
Theorem safeStringify_tree_is_JSON fuel h obj :
  heap_ok h = true → NoDup (containers fuel h obj) →
  safeStringify fuel h obj = JSON_stringify identity_replacer fuel h tt obj.
Proof.
  intros Hok Hnd. unfold safeStringify, JSON_stringify.
  rewrite (serialize_tree h Hok fuel [] [] "" obj Hnd).
  - by destruct (SerializeJSONProperty identity_replacer fuel h [] tt "" obj) as [[[] ?]|].
  - intros x _. apply not_elem_of_nil.
  - by intros x ?%elem_of_nil.
Qed.

Lemma safeStringify_tree_is_JSON_witness :
  safeStringify 4 tree_heap (VRef 0)
  = JSON_stringify identity_replacer 4 tree_heap tt (VRef 0).
Proof.
  apply (safeStringify_tree_is_JSON 4 tree_heap (VRef 0) eq_refl). compute_done.
Defined.

(** * The calls of [changer] *)

Lemma push_Ok h r c h' : push h (VRef r) c = Ok h' → ∃ k, h' = <[r:=Node k false]> h.
Proof.
  unfold push. intros (nd & _ & H)%bind_Ok. destruct (shape nd); try done.
  destruct (frozen nd); [done|]. injection H as <-. by eexists.
Qed.

Section visits.
Variables (h : heap) (changer : value → value).
Hypothesis Hok : heap_ok h = true.

Section step.
Variable n : nat.
Hypothesis IH : ∀ x st st' r,
  value_ok h x = true → h `prefix_of` c_heap st →
  _cloneAndChange n changer x st = Ok (st', r) →
  c_heap st `prefix_of` c_heap st' ∧ calls st' = calls st ++ visits n h changer x.

Lemma visits_array_loop a elems fz (r1 : nat) h0 :
  h !! a = Some (Node (Array elems) fz) → h `prefix_of` h0 → length h0 ≤ r1 →
  ∀ rest i0 s s',
    drop i0 elems = rest → h0 `prefix_of` c_heap s →
    forEach (seq i0 (length rest)) (array_body n changer (VRef a) (VRef r1)) s = Ok s' →
    h0 `prefix_of` c_heap s'
    ∧ calls s' = calls s ++ flat_map (visits n h changer) rest.
Proof.
  intros Ha Hh0 Hr1. induction rest as [|e rest IHr]; intros i0 s s' Hdrop Hpre0.
  2: assert (h `prefix_of` c_heap s) as Hpre by (by etrans).
  { intros [= <-]. by rewrite app_nil_r. }
  cbn [length seq forEach flat_map].
  assert (elems !! i0 = Some e) as He.
  { rewrite <- (Nat.add_0_r i0), <- lookup_drop, Hdrop. done. }
  intros (s1 & Hbody & Hrest)%bind_Ok. unfold array_body, get_index, deref in Hbody.
  rewrite (prefix_lookup_Some _ _ _ _ Ha Hpre) in Hbody. cbn [bind shape] in Hbody.
  rewrite He in Hbody. cbn [default id] in Hbody.
  apply bind_Ok in Hbody as ([s2 c] & Hc & Hbody).
  apply bind_Ok in Hbody as (h3 & Hpush & [= <-]).
  apply IH in Hc as [Hpre2 Hcalls2]; [| |done].
  2:{ apply (node_ok_elem h elems fz); [by apply (heap_ok_lookup _ _ _ Hok Ha)|].
      by eapply list_elem_of_lookup_2. }
  apply push_Ok in Hpush as (k & ->).
  apply IHr in Hrest as [Hpre' Hcalls']; [| |by cbn; apply prefix_insert_ge; [etrans|]].
  - split; [done|]. rewrite Hcalls'. cbn [with_heap calls]. by rewrite Hcalls2, app_assoc.
  - replace (S i0) with (i0 + 1) by lia. rewrite <- drop_drop, Hdrop. done.
Qed.

Lemma visits_plain_loop a p props fz (r2 : nat) h0 :
  h !! a = Some (Node (Plain p props) fz) → h `prefix_of` h0 → length h0 ≤ r2 →
  ∀ rest s s',
    (∀ kv, kv ∈ rest → kv ∈ props) → h0 `prefix_of` c_heap s →
    forEach (map fst rest) (plain_body n changer (VRef a) (VRef r2)) s = Ok s' →
    h0 `prefix_of` c_heap s'
    ∧ calls s' = calls s ++ flat_map (visits n h changer) (map snd rest).
Proof.
  intros Ha Hh0 Hr2. induction rest as [|[k v] rest IHr]; intros s s' Hprops Hpre0.
  2: assert (h `prefix_of` c_heap s) as Hpre by (by etrans).
  { intros [= <-]. by rewrite app_nil_r. }
  cbn [map fst snd forEach flat_map].
  destruct (node_ok_prop h p props fz k v (heap_ok_lookup _ _ _ Hok Ha)) as (_ & Hv & Hkv).
  { apply Hprops. by left. }
  intros (s1 & Hbody & Hrest)%bind_Ok.
  unfold plain_body, hasOwnProperty, get, deref in Hbody.
  rewrite (prefix_lookup_Some _ _ _ _ Ha Hpre) in Hbody.
  cbn [bind shape has_own get_kind] in Hbody. rewrite Hkv in Hbody. cbn [bind] in Hbody.
  apply bind_Ok in Hbody as ([s2 c] & Hc & Hbody).
  apply bind_Ok in Hbody as (h3 & Hset & [= <-]).
  apply IH in Hc as [Hpre2 Hcalls2]; [|done..].
  apply (set_prefix h0) in Hset; [|by etrans|done].
  apply IHr in Hrest as [Hpre' Hcalls']; [| |done].
  - split; [done|]. rewrite Hcalls'. cbn [with_heap calls]. by rewrite Hcalls2, app_assoc.
  - intros kv Hkv'. apply Hprops. by right.
Qed.

End step.

Lemma cloneAndChange_visits fuel : ∀ x st st' r,
  value_ok h x = true → h `prefix_of` c_heap st →
  _cloneAndChange fuel changer x st = Ok (st', r) →
  c_heap st `prefix_of` c_heap st' ∧ calls st' = calls st ++ visits fuel h changer x.
Proof.
  induction fuel as [|n IH]; intros x st st' r Hx Hpre; [done|].
  rewrite cloneAndChange_unfold. cbn [visits].
  destruct (loose_null x); [intros [= <- <-]; by rewrite app_nil_r|].
  destruct (negb _); [by intros [= <- <-]|].
  unfold Is.array, Is.objectLiteral, isArray, kind_of. cbn [record_call c_heap].
  destruct x as [| | | | |a]; try by intros [= <- <-].
  simpl in Hx. apply Nat.ltb_lt in Hx.
  destruct (lookup_lt_is_Some_2 h a Hx) as [[k fz] Ha].
  pose proof (prefix_lookup_Some _ _ _ _ Ha Hpre) as Ha'.
  unfold deref. rewrite Ha, Ha'. cbn [bind shape].
  destruct k as [elems|p props|src]; cbn [alloc fst snd push_encountered c_heap children].
  - unfold array_length, deref. rewrite (lookup_app_l_Some _ _ _ _ Ha'). cbn [bind shape].
    intros (s' & Hloop & [= <- <-])%bind_Ok.
    apply (visits_array_loop n IH a elems fz (length (c_heap st)) (c_heap st) Ha Hpre
             (Nat.le_refl _) elems 0) in Hloop as [Hpre' Hcalls]; [|done|apply prefix_snoc].
    split; [done|]. rewrite Hcalls. cbn [with_heap calls record_call].
    by rewrite <- app_assoc.
  - destruct (includes _ _); [done|].
    unfold object_keys, deref. rewrite (lookup_app_l_Some _ _ _ _ Ha'). cbn [bind shape own_keys].
    intros (s' & Hloop & [= <- <-])%bind_Ok.
    apply (visits_plain_loop n IH a p props fz (length (c_heap st)) (c_heap st) Ha Hpre
             (Nat.le_refl _) props) in Hloop as [Hpre' Hcalls]; [|done|apply prefix_snoc].
    split; [done|]. cbn [pop_encountered c_heap calls]. rewrite Hcalls.
    cbn [with_heap calls record_call push_encountered]. by rewrite <- app_assoc.
  - by intros [= <- <-].
Qed.

End visits.

(** X21, on a well-formed heap ([heap_ok]: no dangling reference, no own
    key that is a name of [Object.prototype]): on an acyclic value
    [cloneAndChange] returns; and whenever it
    returns, also on a value with cycles that lie below values that
    [changer] replaces, it has called [changer] once for every occurrence of
    a value in its argument that is neither [null] nor [undefined], on a
    value before the values below it and from left to right, and on nothing
    below a value that [changer] replaces; the replacement of the argument
    itself is returned as it is; and the objects of the argument are not
    modified. *)
Theorem cloneAndChange_calls_in_preorder fuel h changer obj :
  heap_ok h = true → value_ok h obj = true →
  (∀ n, depth_le n h obj = true → n < fuel →
     ∃ st' r, cloneAndChange fuel h obj changer = Ok (st', r)
              ∧ calls st' = visits fuel h changer obj)
  ∧ (∀ st' r, cloneAndChange fuel h obj changer = Ok (st', r) →
       calls st' = visits fuel h changer obj
       ∧ h `prefix_of` c_heap st'
       ∧ (loose_null obj = false →
          String.eqb (typeof (changer obj)) "undefined" = false →
          r = changer obj ∧ c_heap st' = h)).
Proof.
  intros Hok Hobj.
  assert (∀ st' r, cloneAndChange fuel h obj changer = Ok (st', r) →
            calls st' = visits fuel h changer obj ∧ h `prefix_of` c_heap st') as Hret.
  { intros st' r Hrun. unfold cloneAndChange in Hrun.
    assert (h `prefix_of` c_heap (CState h [] [])) as Hh by done.
    destruct (cloneAndChange_visits h changer Hok fuel obj _ _ _ Hobj Hh Hrun)
      as [Hpre Hcalls].
    by split. }
  split.
  - intros n Hdepth Hn.
    pose proof (cloneAndChange_sim h changer Hok fuel obj (CState h [] []) Hobj
                  (reflexivity _)) as Hsim.
    change (encounteredObjects (CState h [] [])) with (@nil value) in Hsim.
    rewrite (revisits_acyclic fuel h changer n [] obj Hdepth Hn) in Hsim;
      [|by intros p ?%elem_of_nil].
    destruct Hsim as (st' & r & Hrun & _). exists st', r.
    split; [done|]. by apply (Hret st' r).
  - intros st' r Hrun. destruct (Hret st' r Hrun) as [Hcalls Hpre].
    split; [done|]. split; [done|]. intros Hnull Hdef.
    unfold cloneAndChange in Hrun.
    destruct fuel as [|n]; [done|]. rewrite cloneAndChange_unfold, Hnull, Hdef in Hrun.
    by injection Hrun as <- <-.
Qed.

Lemma cloneAndChange_calls_in_preorder_witness :
  ∃ st' r,
    cloneAndChange 4 tree_heap (VRef 0) no_arrays = Ok (st', r)
    ∧ calls st' = [VRef 0; VRef 1; num 1; VRef 2].
Proof.
  destruct (proj1 (cloneAndChange_calls_in_preorder 4 tree_heap no_arrays (VRef 0)
                     eq_refl eq_refl) 3 eq_refl)
    as (st' & r & Hrun & Hcalls); [lia|].
  exists st', r. split; [exact Hrun|exact Hcalls].
Defined.
